(** * Issue analyzer: reference extraction and AI-response structuring

    A shallow embedding of the text-processing core of the GitHub Issue
    Analyzer server:

    - [extractFileReferences], [analyzeCode] and
      [enhanceIssueWithCodeAnalysis] of the class [IssueAnalyzerService];
    - [parseAIResponse] of the class [GeminiService];
    - [parseRepoUrl] of the class [GitHubService];
    - of the routes, the selection and the analysis of the code files of a
      repository, the reading of an issue number and the naming of a new
      AI issue;
    - [processIssueData] of the model of a stored issue.

    The first four are driven by JavaScript regular expressions.  The
    regular expressions of the source are kept as syntax trees ([regex])
    and given the backtracking semantics of ECMAScript by [run], which
    lists every way a pattern can match at a position in the priority
    order in which the engine tries them; the match an engine reports is
    the head of that list.

    Conventions of the model.
    - A JavaScript string is a list of code units [str]; code units are
      restricted to the range 0..255 ([ascii]).  White space is the part of
      the ECMAScript [\s] class that lies in that range.
    - A number ([number]) is a double restricted to the integers, the
      infinities and [NaN].  [parseInt] and [+ 1] round to the nearest
      double, so that they are exact on the safe integers (up to
      2^53 - 1) and not beyond ([parseInt] rounds the exact value of the
      numeral, also where the language leaves the digits after the
      twentieth to the engine); [String] of a number writes the shortest
      notation that reads back as the number, with an exponent from 21
      digits on.
    - An array of line numbers takes a limited number of elements, the
      parameter [maxLength] of the functions that fill one: it depends on
      the engine and its memory and is at most 2^32 - 1.  [push] on a full
      array throws a [RangeError].  The other arrays have at most as many
      elements as the text has characters and are lists.
    - [null] is [JNull].  A thrown exception is [Throws], or [Err] with
      its message where the message is part of the behaviour.
    - In [extractFileReferences] the loop over the references with line
      numbers can throw, when an array of line numbers is full; the
      [catch] around that loop is represented ([pass1_loop]).  Nothing
      else in the bodies of the [try] blocks of [extractFileReferences],
      [analyzeCode] and [parseAIResponse] can throw in this model, so the
      other [catch] branches of these functions are not represented; the
      [catch] branches of [enhanceIssueWithCodeAnalysis], [parseRepoUrl],
      [processIssueData] and of the loop over the files of a repository
      are.  Console output is not represented.
    - What the server asks of the outside (the download of a file, the
      parser of URLs of the platform) is a parameter of the functions that
      use it; the download threads the state of the world. *)

From Stdlib Require Import List Ascii String ZArith Lia Bool Arith.
Import ListNotations.

Set Implicit Arguments.

Open Scope string_scope.
Open Scope list_scope.
Open Scope nat_scope.

Abbreviation length := List.length (only parsing).

(** ** JavaScript strings *)

Definition str := list ascii.

Definition LF : ascii := "010"%char.

(** String literals are written as in the JavaScript source: the two
    characters backslash-n stand for a line feed. *)
Fixpoint js (s : string) : str :=
  match s with
  | EmptyString => []
  | String "\"%char (String "n"%char s') => LF :: js s'
  | String c s' => c :: js s'
  end.

Coercion js : string >-> str.

Definition str_eqb (a b : str) : bool :=
  if list_eq_dec ascii_dec a b then true else false.

Fixpoint prefixb (p s : str) : bool :=
  match p, s with
  | [], _ => true
  | a :: p', b :: s' => Ascii.eqb a b && prefixb p' s'
  | _ :: _, [] => false
  end.

(** [String.prototype.includes] *)
Fixpoint includes (s sub : str) : bool :=
  prefixb sub s ||
  match s with
  | [] => false
  | _ :: t => includes t sub
  end.

(** *** Character classes *)

Definition code (c : ascii) : nat := nat_of_ascii c.

Definition between (lo hi : nat) (c : ascii) : bool :=
  (lo <=? code c) && (code c <=? hi).

Definition is_digit (c : ascii) : bool := between 48 57 c.
Definition is_upper (c : ascii) : bool := between 65 90 c.
Definition is_lower (c : ascii) : bool := between 97 122 c.
(** [[a-zA-Z]] *)
Definition is_alpha (c : ascii) : bool := is_lower c || is_upper c.
(** [\w] *)
Definition is_word (c : ascii) : bool :=
  is_alpha c || is_digit c || Ascii.eqb c "_".
(** [[\w\-./]] *)
Definition is_pathc (c : ascii) : bool :=
  is_word c || Ascii.eqb c "-" || Ascii.eqb c "." || Ascii.eqb c "/".
(** [\s]: TAB, LF, VT, FF, CR, SP and NBSP *)
Definition is_space (c : ascii) : bool :=
  between 9 13 c || (code c =? 32) || (code c =? 160).
(** [[:\s]] *)
Definition is_colon_space (c : ascii) : bool := Ascii.eqb c ":" || is_space c.
(** [.] under the [s] flag, and [[\s\S]] *)
Definition any_char (c : ascii) : bool := true.

(** Canonicalisation of the [i] flag.  The patterns of the source only hold
    ASCII literals, for which folding a-z onto A-Z is exact. *)
Definition canon (c : ascii) : ascii :=
  if is_lower c then ascii_of_nat (code c - 32) else c.

(** *** [String.prototype.trim] *)

Fixpoint trimStart (s : str) : str :=
  match s with
  | c :: t => if is_space c then trimStart t else s
  | [] => []
  end.

Definition trimEnd (s : str) : str := rev (trimStart (rev s)).

Definition trim (s : str) : str := trimEnd (trimStart s).

(** *** Numbers *)

(** A JavaScript number that is an integer, infinite or [NaN].  The
    finite ones are the integers that double precision represents: every
    integer up to 2^53 in absolute value, and beyond that the multiples
    of a power of two with a significand of 53 bits. *)
Inductive number : Type :=
| NaN
| Int (z : Z)
| Infinity (negative : bool).

(** The nearest representable integer of a natural number, a tie going
    to the even significand. *)
Definition roundNat (z : Z) : Z :=
  if (z <? 2 ^ 53)%Z then z
  else
    let p := (2 ^ (Z.log2 z - 52))%Z in
    let q := (z / p)%Z in
    let r := (z mod p)%Z in
    let h := (p / 2)%Z in
    let q' :=
      if (r <? h)%Z then q
      else if (h <? r)%Z then (q + 1)%Z
           else if Z.even q then q else (q + 1)%Z in
    (q' * p)%Z.

(** The number of an integer: what is not below 2^1024 after rounding is
    infinite. *)
Definition toNumber (z : Z) : number :=
  let v := roundNat (Z.abs z) in
  if (2 ^ 1024 <=? v)%Z then Infinity (z <? 0)%Z else Int (Z.sgn z * v)%Z.

(** [x <= y]; a comparison with [NaN] is false. *)
Definition number_leb (x y : number) : bool :=
  match x, y with
  | NaN, _ | _, NaN => false
  | Int a, Int b => (a <=? b)%Z
  | Infinity true, _ => true
  | _, Infinity false => true
  | Infinity false, _ => false
  | _, Infinity true => false
  end.

(** [x + 1] *)
Definition number_succ (x : number) : number :=
  match x with
  | Int a => toNumber (a + 1)
  | _ => x
  end.

(** *** [parseInt(s, 10)] *)

Definition digit_val (c : ascii) : Z := Z.of_nat (code c - 48).

Fixpoint digits_acc (acc : Z) (s : str) : Z :=
  match s with
  | c :: t => if is_digit c then digits_acc (10 * acc + digit_val c) t else acc
  | [] => acc
  end.

Definition starts_with_digit (s : str) : bool :=
  match s with
  | c :: _ => is_digit c
  | [] => false
  end.

(** Leading white space is skipped, one sign is accepted, then the longest
    run of decimal digits is read and its value rounded to a number; no
    digit at all gives [NaN]. *)
Definition parseInt (s : str) : number :=
  let s1 := trimStart s in
  let '(neg, s2) :=
    match s1 with
    | "-"%char :: t => (true, t)
    | "+"%char :: t => (false, t)
    | _ => (false, s1)
    end in
  if starts_with_digit s2
  then toNumber (if neg then (- digits_acc 0 s2)%Z else digits_acc 0 s2)
  else NaN.

(** ** Regular expressions *)

Module RegExp.

Inductive regex : Type :=
| Eps                                   (* empty pattern *)
| Chr (c : ascii)                       (* literal character *)
| ChrI (c : ascii)                      (* literal character under flag i *)
| Cls (p : ascii -> bool)               (* class, escape or dot *)
| Seq (a b : regex)                     (* ab *)
| Alt (a b : regex)                     (* a|b *)
| Star (greedy : bool) (a : regex)      (* a* and a*? *)
| Group (i : nat) (a : regex)           (* i-th capturing group *)
| Look (a : regex)                      (* (?=a) *)
| Eos.                                  (* $ without flag m *)

(** [a+], [a+?] and [a?] *)
Definition Plus (greedy : bool) (a : regex) : regex := Seq a (Star greedy a).
Definition Opt (a : regex) : regex := Alt a Eps.

Fixpoint lit (s : str) : regex :=
  match s with
  | [] => Eps
  | [c] => Chr c
  | c :: t => Seq (Chr c) (lit t)
  end.

Fixpoint liti (s : str) : regex :=
  match s with
  | [] => Eps
  | [c] => ChrI c
  | c :: t => Seq (ChrI c) (liti t)
  end.

Fixpoint alts (l : list regex) : regex :=
  match l with
  | [] => Eps
  | [a] => a
  | a :: l' => Alt a (alts l')
  end.

Fixpoint seqs (l : list regex) : regex :=
  match l with
  | [] => Eps
  | [a] => a
  | a :: l' => Seq a (seqs l')
  end.

(** A matcher state: the input still to be read and the captures so far
    (most recent first). *)
Record mstate : Type := MState { rest : str; caps : list (nat * str) }.

Definition start (s : str) : mstate := MState s [].

Definition step_char (p : ascii -> bool) (st : mstate) : list mstate :=
  match rest st with
  | c :: t => if p c then [MState t (caps st)] else []
  | [] => []
  end.

(** The text read between two states of one match attempt. *)
Definition consumed (st st' : mstate) : str :=
  firstn (length (rest st) - length (rest st')) (rest st).

(** Iteration of a quantified atom.  An iteration that reads nothing is
    rejected, as in ECMAScript, so [n], the length of the input left, bounds
    the number of iterations and is never exhausted before the input is. *)
Fixpoint star_iter (greedy : bool) (step : mstate -> list mstate)
         (n : nat) (st : mstate) : list mstate :=
  match n with
  | 0 => [st]
  | S n' =>
      let more :=
        flat_map (fun st' =>
                    if length (rest st') <? length (rest st)
                    then star_iter greedy step n' st' else [])
                 (step st) in
      if greedy then more ++ [st] else st :: more
  end.

(** All the ways [r] matches at [st], in the order the backtracking engine
    tries them. *)
Fixpoint run (r : regex) (st : mstate) : list mstate :=
  match r with
  | Eps => [st]
  | Chr c => step_char (Ascii.eqb c) st
  | ChrI c => step_char (fun x => Ascii.eqb (canon x) (canon c)) st
  | Cls p => step_char p st
  | Seq a b => flat_map (run b) (run a st)
  | Alt a b => run a st ++ run b st
  | Star g a => star_iter g (run a) (length (rest st)) st
  | Group i a =>
      map (fun st' => MState (rest st') ((i, consumed st st') :: caps st'))
          (run a st)
  | Look a =>
      match run a st with
      | [] => []
      | st' :: _ => [MState (rest st) (caps st')]
      end
  | Eos =>
      match rest st with
      | [] => [st]
      | _ :: _ => []
      end
  end.

(** A successful match: the matched text, the text after it, and the
    captures. *)
Record rmatch : Type :=
  RMatch { m_text : str; m_post : str; m_caps : list (nat * str) }.

(** The match at the current position, if any: the first way the pattern
    matches there. *)
Definition match_here (r : regex) (s : str) : option rmatch :=
  match run r (start s) with
  | st' :: _ => Some (RMatch (consumed (start s) st') (rest st') (caps st'))
  | [] => None
  end.

(** Leftmost match: positions are tried from left to right.  The result
    is the text skipped before the match, and the match. *)
Fixpoint search (r : regex) (s : str) : option (str * rmatch) :=
  match match_here r s with
  | Some m => Some ([], m)
  | None =>
      match s with
      | [] => None
      | c :: t =>
          match search r t with
          | Some (pre, m) => Some (c :: pre, m)
          | None => None
          end
      end
  end.

(** [String.prototype.match] without flag g *)
Definition str_match (r : regex) (s : str) : option rmatch :=
  match search r s with
  | Some (_, m) => Some m
  | None => None
  end.

(** [m[i]]; [None] is [undefined]. *)
Fixpoint lookup (i : nat) (l : list (nat * str)) : option str :=
  match l with
  | [] => None
  | (j, w) :: l' => if i =? j then Some w else lookup i l'
  end.

Definition group (m : rmatch) (i : nat) : option str := lookup i (m_caps m).

(** [m[i] || ''] *)
Definition group_or_empty (m : rmatch) (i : nat) : str :=
  match group m i with
  | Some w => w
  | None => []
  end.

(** [RegExp.prototype.test] *)
Definition test (r : regex) (s : str) : bool :=
  match search r s with
  | Some _ => true
  | None => false
  end.

(** The loop [while ((m = re.exec(s)) !== null)] of a pattern with flag g:
    every search resumes where the previous match ended.  The patterns of
    the source never match the empty string, so every round shortens the
    input and [fuel], one more than its length, is not exhausted. *)
Fixpoint exec_loop (r : regex) (fuel : nat) (s : str) : list rmatch :=
  match fuel with
  | 0 => []
  | S fuel' =>
      match search r s with
      | None => []
      | Some (_, m) => m :: exec_loop r fuel' (m_post m)
      end
  end.

Definition execAll (r : regex) (s : str) : list rmatch :=
  exec_loop r (S (length s)) s.

(** [s.replace(re, '')] without flag g *)
Definition replace_empty (r : regex) (s : str) : str :=
  match search r s with
  | Some (pre, m) => pre ++ m_post m
  | None => s
  end.

(** [String.prototype.split] with a regular expression that has no
    capturing group.  [cur_rev] is the piece being read, reversed. *)
Fixpoint split_loop (sep : regex) (fuel : nat) (cur_rev s : str) : list str :=
  match fuel with
  | 0 => [rev cur_rev ++ s]
  | S fuel' =>
      match s with
      | [] => [rev cur_rev]
      | c :: t =>
          match run sep (start s) with
          | [] => split_loop sep fuel' (c :: cur_rev) t
          | st' :: _ =>
              if length (rest st') =? length s
              then match cur_rev with
                   | [] => split_loop sep fuel' [c] t
                   | _ :: _ => rev cur_rev :: split_loop sep fuel' [c] t
                   end
              else rev cur_rev :: split_loop sep fuel' [] (rest st')
          end
      end
  end.

Definition split (sep : regex) (s : str) : list str :=
  match s with
  | [] => match run sep (start []) with
          | [] => [[]]
          | _ :: _ => []
          end
  | _ :: _ => split_loop sep (S (length s)) [] s
  end.

End RegExp.

Import RegExp.

(** [String.prototype.split] with a non-empty string separator.  [skip]
    counts the characters of a separator still to be passed over. *)
Fixpoint split_str (sep : str) (skip : nat) (cur_rev s : str) : list str :=
  match s with
  | [] => [rev cur_rev]
  | c :: t =>
      match skip with
      | S k => split_str sep k cur_rev t
      | 0 =>
          if prefixb sep s
          then rev cur_rev :: split_str sep (length sep - 1) [] t
          else split_str sep 0 (c :: cur_rev) t
      end
  end.

(** ** Values and outcomes *)

(** A string argument that may be [null]. *)
Inductive jsstring : Type :=
| JNull
| JStr (s : str).

Inductive outcome (A : Type) : Type :=
| Returns (a : A)
| Throws.

Arguments Throws {A}.

(** ** IssueAnalyzerService *)

Module IssueAnalyzerService.

Record FileReference : Type :=
  mkRef { path : str; lineNumbers : list number }.

(** [[\w\-./]+\.[a-zA-Z]+], the path pattern shared by the patterns *)
Definition pathPattern : regex :=
  seqs [Plus true (Cls is_pathc); Chr "."; Plus true (Cls is_alpha)].

(** [/([\w\-./]+\.[a-zA-Z]+):(\d+)(?:-(\d+))?/g] *)
Definition fileLinePattern : regex :=
  seqs [Group 1 pathPattern; Chr ":"; Group 2 (Plus true (Cls is_digit));
        Opt (Seq (Chr "-") (Group 3 (Plus true (Cls is_digit))))].

(** [/```(?:[a-zA-Z]+)?\s*(?:([\w\-./]+\.[a-zA-Z]+))?[\s\S]*?```/g] *)
Definition codeBlockPattern : regex :=
  seqs [lit "```"; Opt (Plus true (Cls is_alpha)); Star true (Cls is_space);
        Opt (Group 1 pathPattern); Star false (Cls any_char); lit "```"].

(** [for (let i = startLine; i <= endLine; i++) lineNumbers.push(i)].
    [room] is the number of elements that the array can still take:
    [push] on an array that is full throws a [RangeError], which is
    [None].  How many elements an array takes depends on the engine and
    its memory, and is at most 2^32 - 1. *)
Fixpoint pushLines (room : nat) (i endLine : number)
         (lineNumbers : list number) : option (list number) :=
  if number_leb i endLine
  then
    match room with
    | 0 => None
    | S room' =>
        pushLines room' (number_succ i) endLine (lineNumbers ++ [i])
    end
  else Some lineNumbers.

Definition lineRange (maxLength : nat) (startLine endLine : number)
  : option (list number) :=
  pushLines maxLength startLine endLine [].

(** The body of the first [while] loop; [None] when it throws. *)
Definition refOfMatch (maxLength : nat) (m : rmatch) : option FileReference :=
  let filePath := group_or_empty m 1 in
  let startLine := parseInt (group_or_empty m 2) in
  let endLine :=
    match group_or_empty m 3 with
    | [] => startLine
    | (_ :: _) as e => parseInt e
    end in
  match lineRange maxLength startLine endLine with
  | Some lineNumbers => Some (mkRef filePath lineNumbers)
  | None => None
  end.

(** The first [while] loop inside its [try]: an exception ends the loop
    and is caught, and the references pushed so far are kept. *)
Fixpoint pass1_loop (maxLength : nat) (matches : list rmatch)
         (fileReferences : list FileReference) : list FileReference :=
  match matches with
  | [] => fileReferences
  | m :: matches' =>
      match refOfMatch maxLength m with
      | Some ref => pass1_loop maxLength matches' (fileReferences ++ [ref])
      | None => fileReferences
      end
  end.

Definition pass1 (maxLength : nat) (issueBody : str) : list FileReference :=
  pass1_loop maxLength (execAll fileLinePattern issueBody) [].

(** [fileReferences.some(ref => ref.path === filePath)] *)
Definition has_path (refs : list FileReference) (p : str) : bool :=
  existsb (fun ref => str_eqb (path ref) p) refs.

(** The body of the second [while] loop. *)
Definition addBlock (refs : list FileReference) (m : rmatch)
  : list FileReference :=
  match group_or_empty m 1 with
  | [] => refs
  | (_ :: _) as filePath =>
      if has_path refs filePath then refs
      else refs ++ [mkRef filePath []]
  end.

Definition pass2 (refs : list FileReference) (issueBody : str)
  : list FileReference :=
  fold_left addBlock (execAll codeBlockPattern issueBody) refs.

Definition extractFileReferences (maxLength : nat) (issueBody : jsstring)
  : list FileReference :=
  match issueBody with
  | JNull => []
  | JStr [] => []
  | JStr s => pass2 (pass1 maxLength s) s
  end.

(** *** analyzeCode *)

Record CodeIssue : Type :=
  mkIssue { type : str; description : str; severity : str }.

Definition is_quote (c : ascii) : bool :=
  Ascii.eqb c "'" || Ascii.eqb c "034".
Definition is_colon_eq (c : ascii) : bool :=
  Ascii.eqb c ":" || Ascii.eqb c "=".
Definition is_underscore_hyphen (c : ascii) : bool :=
  Ascii.eqb c "_" || Ascii.eqb c "-".

(** The tail of every credential pattern: [\s*[:=]\s*Q+[^Q]+Q], where [Q]
    is the class of the single and the double quote. *)
Definition assignedLiteral : regex :=
  seqs [Star true (Cls is_space); Cls is_colon_eq; Star true (Cls is_space);
        Plus true (Cls is_quote); Plus true (Cls (fun c => negb (is_quote c)));
        Cls is_quote].

Definition credentialPatterns : list regex :=
  [ Seq (lit "password") assignedLiteral;
    seqs [lit "api"; Opt (Cls is_underscore_hyphen); lit "key"; assignedLiteral];
    Seq (lit "secret") assignedLiteral;
    Seq (lit "token") assignedLiteral;
    Seq (lit "auth") assignedLiteral ].

Definition debugIssue : CodeIssue :=
  mkIssue "debugging" "Debug statements found in code" "low".
Definition incompleteIssue : CodeIssue :=
  mkIssue "incomplete" "TODO, FIXME, HACK or XXX comments found" "medium".
Definition unsafeIssue : CodeIssue :=
  mkIssue "security" "Potentially unsafe code execution" "high".
Definition credentialIssue : CodeIssue :=
  mkIssue "security" "Potential hardcoded credentials found" "critical".

Definition hasDebug (code : str) : bool :=
  includes code "console.log" || includes code "console.debug"
  || includes code "console.error".
Definition hasTodo (code : str) : bool :=
  includes code "TODO" || includes code "FIXME" || includes code "HACK"
  || includes code "XXX".
Definition hasUnsafe (code : str) : bool :=
  includes code "eval(" || includes code "new Function(".
(** The [for ... of] loop that stops at the first pattern that matches. *)
Definition hasCredential (code : str) : bool :=
  existsb (fun pattern => test pattern code) credentialPatterns.

(** [if (cond) issues.push(issue)] *)
Definition pushIf (cond : bool) (issue : CodeIssue) (issues : list CodeIssue)
  : list CodeIssue :=
  if cond then issues ++ [issue] else issues.

Definition analyzeCode (code : jsstring) : list CodeIssue :=
  match code with
  | JNull => []
  | JStr [] => []
  | JStr code =>
      let issues := [] in
      let issues := pushIf (hasDebug code) debugIssue issues in
      let issues := pushIf (hasTodo code) incompleteIssue issues in
      let issues := pushIf (hasUnsafe code) unsafeIssue issues in
      let issues := pushIf (hasCredential code) credentialIssue issues in
      issues
  end.

End IssueAnalyzerService.

(** ** GeminiService *)

Module GeminiService.

Import IssueAnalyzerService.

Record KnownFile : Type := mkFile { path : str; content : str }.

Record CodeSnippet : Type :=
  mkSnippet { filePath : str; originalCode : str; suggestedCode : str;
              lineNumbers : list number }.

Record Solution : Type :=
  mkSolution { analysis : str; solution : str;
               codeSnippets : list CodeSnippet; bestPractices : list str }.

(** [[:\s]+(.*?)] under flag s *)
Definition sectionBody : regex :=
  Seq (Plus true (Cls is_colon_space)) (Group 1 (Star false (Cls any_char))).

(** [(?=\n\s*(?: ... ))] *)
Definition followedBy (labels : list regex) : regex :=
  Look (seqs [Chr LF; Star true (Cls is_space); alts labels]).

(** [\d\.\s*label] *)
Definition numbered (label : str) : regex :=
  seqs [Cls is_digit; Chr "."; Star true (Cls is_space); liti label].

(** [/(?:Analysis|Issue Analysis)[:\s]+(.*?)(?=\n\s*(?:Solution|Step-by-step solution|Suggested solution|\d\.\s*Solution))/is] *)
Definition analysisPattern : regex :=
  seqs [alts [liti "Analysis"; liti "Issue Analysis"]; sectionBody;
        followedBy [liti "Solution"; liti "Step-by-step solution";
                    liti "Suggested solution"; numbered "Solution"]].

(** [/(?:Solution|Step-by-step solution|Suggested solution)[:\s]+(.*?)(?=\n\s*(?:Best Practices|Prevention|\d\.\s*Best Practices))/is] *)
Definition solutionPattern : regex :=
  seqs [alts [liti "Solution"; liti "Step-by-step solution";
              liti "Suggested solution"]; sectionBody;
        followedBy [liti "Best Practices"; liti "Prevention";
                    numbered "Best Practices"]].

(** [/(?:Best Practices|Prevention)[:\s]+(.*?)(?=\n\s*(?:Code Improvements|Suggested Improvements|Conclusion|$))/is] *)
Definition bestPracticesPattern : regex :=
  seqs [alts [liti "Best Practices"; liti "Prevention"]; sectionBody;
        followedBy [liti "Code Improvements"; liti "Suggested Improvements";
                    liti "Conclusion"; Eos]].

(** [/\n\s*(?:\d+\.|-|[*])\s+/] (the source escapes the asterisk with a
    backslash) *)
Definition itemSeparator : regex :=
  seqs [Chr LF; Star true (Cls is_space);
        alts [Seq (Plus true (Cls is_digit)) (Chr "."); Chr "-"; Chr "*"];
        Plus true (Cls is_space)].

(** [/```(?:[a-zA-Z]+)?\s*(?:[\w\-./]+\.[a-zA-Z]+)?\s*\n?/] *)
Definition fenceOpening : regex :=
  seqs [lit "```"; Opt (Plus true (Cls is_alpha)); Star true (Cls is_space);
        Opt pathPattern; Star true (Cls is_space); Opt (Chr LF)].

(** [/\n?```$/] *)
Definition fenceClosing : regex :=
  seqs [Opt (Chr LF); lit "```"; Eos].

(** The pattern of the fenced code blocks is the one of the extractor. *)
Definition codeBlockRegex : regex := codeBlockPattern.

(** [m && m[1]]: the first group of a match when it is not empty. *)
Definition sectionText (m : option rmatch) : option str :=
  match m with
  | None => None
  | Some m =>
      match group_or_empty m 1 with
      | [] => None
      | (_ :: _) as text => Some text
      end
  end.

(** [practicesText.split(...).filter(Boolean)] then [map(p => p.trim())] *)
Definition nonEmpty (s : str) : bool :=
  match s with
  | [] => false
  | _ :: _ => true
  end.

Definition splitPractices (captured : str) : list str :=
  let practicesText := trim captured in
  let practices := filter nonEmpty (split itemSeparator practicesText) in
  map trim practices.

(** [fileContents.find(f => f.path.includes(filePath) || filePath.includes(f.path))] *)
Definition matchesFile (filePath : str) (f : KnownFile) : bool :=
  includes (path f) filePath || includes filePath (path f).

(** The body of the loop over the fenced code blocks.  [fileContents] may
    be [null] ([None]). *)
Definition snippetOfMatch (fileContents : option (list KnownFile))
           (codeMatch : rmatch) : CodeSnippet :=
  let codeBlock := m_text codeMatch in
  let filePath := group_or_empty codeMatch 1 in
  let code := replace_empty fenceClosing (replace_empty fenceOpening codeBlock) in
  let matchedFile :=
    match filePath, fileContents with
    | _ :: _, Some files => find (matchesFile filePath) files
    | _, _ => None
    end in
  let originalCode :=
    match matchedFile with
    | Some f => content f
    | None => []
    end in
  mkSnippet (match matchedFile with
             | Some f => path f
             | None => filePath
             end)
            originalCode code [].

(** [parseAIResponse(aiResponse, issue, fileContents)]; the argument [issue]
    is not used by the source.  Calling [match] on [null] throws. *)
Definition parseAIResponse (aiResponse : jsstring)
           (fileContents : option (list KnownFile)) : outcome Solution :=
  match aiResponse with
  | JNull => Throws
  | JStr aiResponse =>
      let analysis :=
        match sectionText (str_match analysisPattern aiResponse) with
        | Some text => Returns (trim text)
        | None =>
            match split_str "\n\n" 0 [] aiResponse with
            | firstParagraph :: _ => Returns (trim firstParagraph)
            | [] => Throws
            end
        end in
      let solution :=
        match sectionText (str_match solutionPattern aiResponse) with
        | Some text => trim text
        | None => []
        end in
      let bestPractices :=
        match sectionText (str_match bestPracticesPattern aiResponse) with
        | Some text => splitPractices text
        | None => []
        end in
      let codeSnippets :=
        map (snippetOfMatch fileContents)
            (execAll codeBlockRegex aiResponse) in
      match analysis with
      | Returns analysis =>
          Returns (mkSolution analysis solution codeSnippets bestPractices)
      | Throws => Throws
      end
  end.

End GeminiService.

(** ** Errors with a message, numbers as text *)

(** The result of code that may throw [new Error(message)]. *)
Inductive result (A : Type) : Type :=
| Ok (a : A)
| Err (message : str).

Arguments Err {A}.

(** [try { ... } catch (error) { throw new Error(prefix + error.message) }] *)
Definition rethrow (A : Type) (prefix : str) (r : result A) : result A :=
  match r with
  | Ok a => Ok a
  | Err message => Err (prefix ++ message)
  end.

(** [x || d] for a value that is a string, [null] or [undefined] *)
Definition orDefault (x : jsstring) (d : str) : str :=
  match x with
  | JStr ((_ :: _) as s) => s
  | _ => d
  end.

(** [String(n)] and the interpolation of a number in a template literal. *)

(** The decimal notation of a natural number.  The digits are produced
    from the last one to the first; an integer below [10 ^ fuel] has at
    most [fuel] of them. *)
Definition digit_char (d : Z) : ascii := ascii_of_nat (48 + Z.to_nat d).

Fixpoint decimal_acc (fuel : nat) (n : Z) (acc : str) : str :=
  match fuel with
  | 0 => acc
  | S fuel' =>
      let acc' := digit_char (n mod 10) :: acc in
      if (n <? 10)%Z then acc' else decimal_acc fuel' (n / 10) acc'
  end.

Definition decimal (n : Z) : str :=
  decimal_acc (S (Z.to_nat (Z.log2 n))) n [].

(** The notation of a number from 2^53 on is the shortest one that reads
    back as the number.  A candidate is a numeral [s] of [k] digits
    standing for [s * 10 ^ (n - k)], a number of [n] digits. *)
Record notation : Type := mkNotation { nt_s : Z; nt_k : Z; nt_n : Z }.

Definition nt_value (c : notation) : Z := (nt_s c * 10 ^ (nt_n c - nt_k c))%Z.

(** The candidates of [k] digits for the double [m]: the two multiples of
    [10 ^ (n - k)] around [m], for the two values of [n] that come into
    question, kept when they have [k] digits and are rounded to [m]. *)
Definition candidates (m : Z) (k : Z) : list notation :=
  let d := Z.of_nat (length (decimal m)) in
  filter (fun c => (10 ^ (nt_k c - 1) <=? nt_s c)%Z && (nt_s c <? 10 ^ nt_k c)%Z
                   && (roundNat (nt_value c) =? m)%Z)
         (flat_map (fun n =>
                      if (n <? k)%Z then []
                      else let s := (m / 10 ^ (n - k))%Z in
                           [mkNotation s k n; mkNotation (s + 1) k n])
                   [d; (d + 1)%Z]).

(** Of two candidates the one nearer to [m], and of two as near the one
    whose numeral is even. *)
Definition nearer (m : Z) (a b : notation) : notation :=
  let da := Z.abs (nt_value a - m) in
  let db := Z.abs (nt_value b - m) in
  if (da <? db)%Z then a
  else if (db <? da)%Z then b
       else if Z.even (nt_s a) then a else b.

Definition best (m : Z) (l : list notation) : option notation :=
  match l with
  | [] => None
  | c :: l' => Some (fold_left (nearer m) l' c)
  end.

(** The first number of digits, from [k] on, that has a candidate. *)
Fixpoint shortest (fuel : nat) (m k : Z) : option notation :=
  match fuel with
  | 0 => None
  | S fuel' =>
      match best m (candidates m k) with
      | Some c => Some c
      | None => shortest fuel' m (k + 1)
      end
  end.

Fixpoint zeros (n : nat) : str :=
  match n with
  | 0 => []
  | S n' => "0"%char :: zeros n'
  end.

(** Up to 21 digits the notation is written out, the numeral followed by
    zeros; beyond that it has an exponent. *)
Definition writeNotation (c : notation) : str :=
  let digits := decimal (nt_s c) in
  if (nt_n c <=? 21)%Z
  then digits ++ zeros (Z.to_nat (nt_n c - nt_k c))
  else
    match digits with
    | [] => []
    | d :: more =>
        d :: match more with
             | [] => []
             | _ :: _ => "."%char :: more
             end
          ++ "e"%char :: "+"%char :: decimal (nt_n c - 1)
    end.

(** The notation of a natural number that is a double. *)
Definition naturalToString (m : Z) : str :=
  if (m <? 2 ^ 53)%Z then decimal m
  else
    match shortest 17 m 1 with
    | Some c => writeNotation c
    | None => decimal m
    end.

Definition numberToString (n : number) : str :=
  match n with
  | NaN => "NaN"
  | Infinity negative => if negative then "-Infinity" else "Infinity"
  | Int z =>
      if (z <? 0)%Z then "-"%char :: naturalToString (- z)
      else naturalToString z
  end.

(** [re.test(s)] for a pattern [/^.../] without flag m: the assertion [^]
    holds at the start of the input and nowhere else, so the rest of the
    pattern, which is the argument, is tried there only. *)
Definition test_anchored (r : regex) (s : str) : bool :=
  match match_here r s with
  | Some _ => true
  | None => false
  end.

(** ** IssueAnalyzerService, the combination of the two analyses *)

Module IssueEnhancement.

Import IssueAnalyzerService.

(** An element of [fileContents]; a content that is not a string is
    [JNull]. *)
Record FileData : Type := mkFileData { path : str; content : jsstring }.

Record FileAnalysis : Type :=
  mkFileAnalysis { filePath : str; issues : list CodeIssue }.

Section Enhance.

(** The issue object, whatever its fields, and its field [body]. *)
Variable Issue : Type.
Variable body : Issue -> jsstring.

(** The number of line numbers that an array of the engine takes. *)
Variable maxLength : nat.

(** [{ ...issue, fileReferences, codeAnalysis }] *)
Record EnhancedIssue : Type :=
  mkEnhanced { issue : Issue; fileReferences : list FileReference;
               codeAnalysis : list FileAnalysis }.

(** What the method returns: the enhanced issue or, from the outer
    [catch], its first argument as it was given. *)
Inductive enhancement : Type :=
| Enhanced (e : EnhancedIssue)
| Unchanged (issue : option Issue).

(** The body of the loop over the references.  [fileContents.find] throws
    when [fileContents] is [null] ([None]); the inner [catch] then goes on
    with the next reference. *)
Definition analyzeReference (fileContents : option (list FileData))
           (codeAnalysis : list FileAnalysis) (fileRef : FileReference)
  : list FileAnalysis :=
  match fileContents with
  | None => codeAnalysis
  | Some files =>
      match find (fun f => str_eqb (path f) (IssueAnalyzerService.path fileRef))
                 files with
      | Some fileData =>
          let issues := analyzeCode (content fileData) in
          if 0 <? length issues
          then codeAnalysis
                 ++ [mkFileAnalysis (IssueAnalyzerService.path fileRef) issues]
          else codeAnalysis
      | None => codeAnalysis
      end
  end.

(** Reading [issue.body] of [null] ([None]) throws; the outer [catch]
    returns the argument. *)
Definition enhanceIssueWithCodeAnalysis (issue : option Issue)
           (fileContents : option (list FileData)) : enhancement :=
  match issue with
  | None => Unchanged issue
  | Some i =>
      let fileReferences := extractFileReferences maxLength (body i) in
      let codeAnalysis :=
        fold_left (analyzeReference fileContents) fileReferences [] in
      Enhanced (mkEnhanced i fileReferences codeAnalysis)
  end.

End Enhance.

End IssueEnhancement.

(** ** GitHubService *)

Module GitHubService.

Record Repository : Type := mkRepository { owner : str; repo : str }.

(** [parts[i]]; the guards of the source keep the index within the
    array. *)
Definition part (parts : list str) (i : nat) : str := nth i parts [].

(** [parseRepoUrl(repoUrl)] for a string. *)
Definition parseRepoUrl (repoUrl : str) : result Repository :=
  rethrow "Failed to parse GitHub URL: "
    (let urlParts := split_str "github.com/" 0 [] repoUrl in
     if length urlParts <? 2 then Err "Invalid GitHub URL"
     else
       let pathParts := split_str "/" 0 [] (part urlParts 1) in
       if length pathParts <? 2 then Err "Invalid GitHub URL format"
       else
         Ok (mkRepository
               (part pathParts 0)
               (part (split_str "?" 0 []
                        (part (split_str "#" 0 [] (part pathParts 1)) 0)) 0))).

End GitHubService.

(** ** The route that analyzes a repository *)

Module RepoRoutes.

Import IssueAnalyzerService.

Definition codeFileExtensions : list str :=
  [ js ".js"; js ".jsx"; js ".ts"; js ".tsx"; js ".py"; js ".java"; js ".c";
    js ".cpp"; js ".cs"; js ".go"; js ".rb"; js ".php"; js ".html";
    js ".css"; js ".scss"; js ".json"; js ".yml"; js ".yaml" ].

(** [s.lastIndexOf(c)] for a one-character string [c]; -1 when [c] does
    not occur. *)
Fixpoint lastIndexFrom (c : ascii) (i found : Z) (s : str) : Z :=
  match s with
  | [] => found
  | x :: t => lastIndexFrom c (i + 1) (if Ascii.eqb x c then i else found) t
  end.

Definition lastIndexOf (s : str) (c : ascii) : Z := lastIndexFrom c 0 (-1) s.

(** [s.substring(from)]; a negative index is taken as 0. *)
Definition substring (s : str) (from : Z) : str := skipn (Z.to_nat from) s.

(** The test of [repoContents.filter].  A file of the listing is
    represented by its path, the only field the route reads. *)
Definition isCodeFile (path : str) : bool :=
  if includes path "."
  then
    let extension := substring path (lastIndexOf path ".") in
    existsb (str_eqb extension) codeFileExtensions
  else false.

Record AnalysisResult : Type :=
  mkAnalysisResult { filePath : str; issueType : str; description : str;
                     severity : str; lineNumbers : list number }.

Definition resultOf (path : str) (issue : CodeIssue) : AnalysisResult :=
  mkAnalysisResult path (type issue) (IssueAnalyzerService.description issue)
                   (IssueAnalyzerService.severity issue) [].

Record Analysis : Type :=
  mkAnalysis { filesAnalyzed : nat; totalFiles : nat;
               analysisResults : list AnalysisResult }.

Section Analyze.

(** The state of the world outside the server, and the download of one
    file of the repository of the request, which returns a string or
    throws. *)
Variable World : Type.
Variable fetchFileContent : World -> str -> result str * World.

(** The body of the loop over the files to analyze. *)
Definition analyzeFile (state : list AnalysisResult * World) (path : str)
  : list AnalysisResult * World :=
  let (analysisResults, w) := state in
  match fetchFileContent w path with
  | (Ok content, w') =>
      let issues := analyzeCode (JStr content) in
      (if 0 <? length issues
       then analysisResults ++ map (resultOf path) issues
       else analysisResults, w')
  | (Err _, w') => (analysisResults, w')
  end.

(** From the listing of the repository to the object of the response.
    The documents that the route stores in between are not part of it. *)
Definition analyzeRepository (repoContents : list str) (w : World)
  : Analysis * World :=
  let codeFiles := filter isCodeFile repoContents in
  let filesToAnalyze := firstn 10 codeFiles in
  let (analysisResults, w') := fold_left analyzeFile filesToAnalyze ([], w) in
  (mkAnalysis (length filesToAnalyze) (length codeFiles) analysisResults, w').

End Analyze.

(** The documents of the AI issues that the route stores, one for each
    result (the dates are left out).  [x || d] falls back on [d] for an
    empty string; an array is never replaced.  [i] is an index of an
    array, so that [i + 1] is at most 2^32 - 1 and is written in decimal
    notation. *)
Record AIIssue : Type :=
  mkAIIssue { repositoryUrl : str; issueNumber : str; title : str; body : str;
              state : str; fileReferences : list FileReference }.

Definition aiIssue (repoUrl : str) (i : nat) (item : AnalysisResult) : AIIssue :=
  let aiIssueNumber := js "AI-" ++ decimal (Z.of_nat i + 1) in
  mkAIIssue repoUrl aiIssueNumber
            (js "Code Issue: "
               ++ orDefault (JStr (issueType item)) "Code smell detected")
            (orDefault (JStr (description item))
                       "Potential code issue detected by automated analysis")
            "open"
            [mkRef (filePath item) (lineNumbers item)].

(** [for (let i = 0; i < analysisResults.length; i++)], from [i] on *)
Fixpoint aiIssuesFrom (repoUrl : str) (i : nat) (results : list AnalysisResult)
  : list AIIssue :=
  match results with
  | [] => []
  | item :: results' =>
      aiIssue repoUrl i item :: aiIssuesFrom repoUrl (S i) results'
  end.

Definition aiIssues (repoUrl : str) (analysisResults : list AnalysisResult)
  : list AIIssue :=
  aiIssuesFrom repoUrl 0 analysisResults.

End RepoRoutes.

(** ** The routes of the issues *)

Module IssueRoutes.

(** An issue number of a route or of a stored issue: a number or a
    string. *)
Inductive IssueNumber : Type :=
| Numeric (n : number)
| Textual (s : str).

(** [/^\d+$/], behind the assertion [^] *)
Definition numericPattern : regex := Seq (Plus true (Cls is_digit)) Eos.

(** [/^\d+$/.test(issueNumber) ? parseInt(issueNumber, 10) : issueNumber] *)
Definition parsedIssueNumber (issueNumber : str) : IssueNumber :=
  if test_anchored numericPattern issueNumber
  then Numeric (parseInt issueNumber)
  else Textual issueNumber.

(** [typeof n === 'string' && n.startsWith('AI-')] *)
Definition isAIIssue (n : IssueNumber) : bool :=
  match n with
  | Textual s => prefixb "AI-" s
  | Numeric _ => false
  end.

(** The number of the next AI issue, from the issue number of the stored
    AI issue found, if any.  An index out of the array gives [undefined],
    that [parseInt] reads as [NaN]. *)
Definition nextAINumber (highestAIIssue : option str) : number :=
  match highestAIIssue with
  | None => Int 1
  | Some issueNumber =>
      let currentNumber :=
        match nth_error (split_str "-" 0 [] issueNumber) 1 with
        | Some digits => parseInt digits
        | None => NaN
        end in
      number_succ currentNumber
  end.

Definition aiIssueNumber (highestAIIssue : option str) : str :=
  js "AI-" ++ numberToString (nextAINumber highestAIIssue).

End IssueRoutes.

(** ** The model of a stored issue *)

Module IssueModel.

Import IssueRoutes.

(** The fields of a document that [processIssueData] reads or writes.
    An issue number that is absent is [None]. *)
Record IssueDoc : Type :=
  mkDoc { repositoryUrl : jsstring; repoOwner : jsstring; repoName : jsstring;
          issueId : jsstring; issueNumber : option IssueNumber }.

(** The truth value of [doc.issueNumber]. *)
Definition truthy (n : option IssueNumber) : bool :=
  match n with
  | None => false
  | Some (Numeric NaN) => false
  | Some (Numeric (Int z)) => negb (z =? 0)%Z
  | Some (Numeric (Infinity _)) => true
  | Some (Textual []) => false
  | Some (Textual (_ :: _)) => true
  end.

(** [String(doc.issueNumber)] *)
Definition stringOf (n : IssueNumber) : str :=
  match n with
  | Numeric z => numberToString z
  | Textual s => s
  end.

Section Process.

(** [new URL(s).pathname], which throws when [s] is not a URL. *)
Variable pathnameOf : str -> result str.

Definition processIssueData (doc : IssueDoc) : IssueDoc :=
  let repoOwner := orDefault (repoOwner doc) "unknown" in
  let repoName := orDefault (repoName doc) "unknown" in
  let issueId := orDefault (issueId doc) "unknown" in
  let defaults :=
    mkDoc (repositoryUrl doc) (JStr repoOwner) (JStr repoName) (JStr issueId)
          (issueNumber doc) in
  match repositoryUrl doc with
  | JStr ((_ :: _) as url) =>
      match pathnameOf url with
      | Ok pathname =>
          let pathParts := split_str "/" 0 [] pathname in
          if 3 <=? length pathParts
          then
            let repoOwner := nth 1 pathParts [] in
            let repoName := nth 2 pathParts [] in
            let issueId :=
              match issueNumber doc with
              | Some n =>
                  if truthy (Some n)
                  then
                    if isAIIssue n
                    then match n with
                         | Textual s => s
                         | Numeric _ => stringOf n
                         end
                    else stringOf n
                  else issueId
              | None => issueId
              end in
            mkDoc (repositoryUrl doc) (JStr repoOwner) (JStr repoName)
                  (JStr issueId) (issueNumber doc)
          else defaults
      | Err _ => defaults
      end
  | _ => defaults
  end.

End Process.

End IssueModel.

Unset Implicit Arguments.

(** * Vocabulary of the properties

    The notions in which the properties of the model are stated. *)

Module RegExpTerms.

(** Least number of characters a match of the pattern reads. *)
Fixpoint minlen (r : regex) : nat :=
  match r with
  | Eps | Eos | Look _ | Star _ _ => 0
  | Chr _ | ChrI _ | Cls _ => 1
  | Seq a b => minlen a + minlen b
  | Alt a b => Nat.min (minlen a) (minlen b)
  | Group _ a => minlen a
  end.

(** Every character the pattern can read satisfies [P]. *)
Fixpoint reads (P : ascii -> Prop) (r : regex) : Prop :=
  match r with
  | Eps | Eos | Look _ => True
  | Chr c => P c
  | ChrI c => forall x, canon x = canon c -> P x
  | Cls p => forall x, p x = true -> P x
  | Seq a b | Alt a b => reads P a /\ reads P b
  | Star _ a | Group _ a => reads P a
  end.

(** The pattern has no capturing group. *)
Fixpoint nogroups (r : regex) : bool :=
  match r with
  | Eps | Eos | Chr _ | ChrI _ | Cls _ => true
  | Seq a b | Alt a b => nogroups a && nogroups b
  | Star _ a | Look a => nogroups a
  | Group _ _ => false
  end.

(** What a match reads is a prefix of the input, made of characters the
    pattern can read, and at least [minlen] long. *)
Definition read_between (P : ascii -> Prop) (k : nat) (st st' : mstate)
  : Prop :=
  exists w, rest st = w ++ rest st' /\ Forall P w /\ k <= length w.

(** A match reported by a search is the first way the pattern matches at
    some position of the text. *)
Definition match_at (r : regex) (s : str) (m : rmatch) : Prop :=
  exists pre st' l,
    s = pre ++ m_text m ++ m_post m /\
    run r (start (m_text m ++ m_post m)) = st' :: l /\
    m_post m = rest st' /\ m_caps m = caps st'.

(** The same state with more text behind the input. *)
Definition extend (t : str) (st : mstate) : mstate :=
  MState (rest st ++ t) (caps st).

(** The pattern has no lookahead and no end-of-input assertion. *)
Fixpoint lookfree (r : regex) : bool :=
  match r with
  | Look _ | Eos => false
  | Eps | Chr _ | ChrI _ | Cls _ => true
  | Seq a b | Alt a b => lookfree a && lookfree b
  | Star _ a | Group _ a => lookfree a
  end.

(** A match in front of a barrier is the same match with the barrier and
    what follows it left to read. *)
Definition extend_match (c : ascii) (t : str) (m : rmatch) : rmatch :=
  RMatch (m_text m) (m_post m ++ c :: t) (m_caps m).

(** The text starts with a character of the class. *)
Definition starts_in (p : ascii -> bool) (s : str) : bool :=
  match s with
  | c :: _ => p c
  | [] => false
  end.

(** Substring containment. *)
Definition contains (s sub : str) : Prop := exists u v, s = u ++ sub ++ v.

(** The text starts with white space. *)
Definition starts_ws (s : str) : bool :=
  match s with
  | c :: _ => is_space c
  | [] => false
  end.

End RegExpTerms.

Module IssueAnalyzerTerms.

Import IssueAnalyzerService RegExpTerms.

(** A decimal numeral. *)
Definition numeral (d : str) : Prop :=
  d <> [] /\ Forall (fun c => is_digit c = true) d.

(** The value of a numeral, read as [parseInt] reads it. *)
Definition value (d : str) : Z := digits_acc 0 d.

(** What the path pattern reads: path characters, at least three. *)
Definition pathlike (p : str) : Prop :=
  3 <= length p /\ Forall (fun c => is_pathc c = true) p.

(** The token behind a match of pass 1: its path, its start numeral and
    its optional end numeral. *)
Definition token_of (m : rmatch) (p s : str) (oe : option str) : Prop :=
  pathlike p /\ numeral s /\
  match oe with
  | None => m_text m = p ++ ":"%char :: s
  | Some e => numeral e /\ m_text m = p ++ ":"%char :: s ++ "-"%char :: e
  end /\
  group m 1 = Some p /\ group m 2 = Some s /\ group m 3 = oe.

(** The integers from [a] on, [n] of them, and the integers from [a] to
    [b]. *)
Fixpoint count_up (n : nat) (a : Z) : list Z :=
  match n with
  | 0 => []
  | S n' => a :: count_up n' (a + 1)%Z
  end.

Definition range (a b : Z) : list Z := count_up (Z.to_nat (b - a + 1)) a.

(** The last line of a token: its end numeral, or its start numeral when
    it has none. *)
Definition end_value (s : str) (oe : option str) : Z :=
  match oe with
  | None => value s
  | Some e => value e
  end.

(** The reference of a token: its path with the line numbers from the
    value of its start numeral to the value of its end numeral. *)
Definition ref_of_token (p s : str) (oe : option str) : FileReference :=
  mkRef p (map Int (range (value s) (end_value s oe))).

(** A file name: path characters, a dot and letters. *)
Definition filename (p : str) : Prop :=
  exists q ext,
    p = q ++ "."%char :: ext /\
    q <> [] /\ Forall (fun c => is_pathc c = true) q /\
    ext <> [] /\ Forall (fun c => is_alpha c = true) ext.


(** The text of a token and the captures of its match. *)
Definition token_text (p s : str) (oe : option str) : str :=
  p ++ ":"%char :: s ++
    match oe with
    | Some e => "-"%char :: e
    | None => []
    end.

Definition token_caps (p s : str) (oe : option str) : list (nat * str) :=
  match oe with
  | Some e => [(3, e); (2, s); (1, p)]
  | None => [(2, s); (1, p)]
  end.



(** The reference of the token behind a match of pass 1. *)
Definition tokenRef (m : rmatch) : FileReference :=
  let s := group_or_empty m 2 in
  mkRef (group_or_empty m 1)
        (map Int (range (value s)
                        (match group_or_empty m 3 with
                         | [] => value s
                         | (_ :: _) as e => value e
                         end))).

(** The limits within which a token is registered with its lines: the
    numerals are safe integers (up to [Number.MAX_SAFE_INTEGER]), which
    are numbers as they are written and which [i + 1] does not leave,
    and the lines from the first to the last fit an array that takes
    [maxLength] elements. *)
Definition safe_integer (n : Z) : Prop := (n <= 9007199254740991)%Z.

Definition within_limits (maxLength : nat) (s : str) (oe : option str)
  : Prop :=
  safe_integer (value s) /\ safe_integer (end_value s oe) /\
  (end_value s oe - value s < Z.of_nat maxLength)%Z.

(** Every token that occurs in the text is within the limits. *)
Definition tokens_within (maxLength : nat) (text : str) : Prop :=
  forall p s oe,
    filename p -> numeral s ->
    match oe with
    | Some e => numeral e
    | None => True
    end ->
    contains text (token_text p s oe) -> within_limits maxLength s oe.

(** Every run of digits of the text has a value below [bound]; [acc] is
    the value of the digits just read. *)
Fixpoint numerals_below_from (bound acc : Z) (s : str) : bool :=
  match s with
  | [] => (acc <? bound)%Z
  | c :: t =>
      if is_digit c
      then numerals_below_from bound (10 * acc + digit_val c) t
      else (acc <? bound)%Z && numerals_below_from bound 0 t
  end.

Definition numerals_below (bound : Z) (s : str) : bool :=
  numerals_below_from bound 0 s.

(** The capacity of an array by the language alone: 2^32 - 1 elements. *)
Definition languageLimit : nat := Z.to_nat 4294967295.


(** What pass 2 appends: references without line numbers, for paths that
    are new and pairwise distinct. *)
Definition fresh_blocks (refs added : list FileReference) : Prop :=
  Forall (fun r => lineNumbers r = [] /\ path r <> [] /\
                   ~ In (path r) (map path refs)) added /\
  NoDup (map path added).

End IssueAnalyzerTerms.

Module GeminiTerms.

Import IssueAnalyzerService GeminiService RegExpTerms IssueAnalyzerTerms.

(** The fallback of the analysis field, before it is trimmed. *)
Definition firstParagraph (aiResponse : str) : str :=
  hd [] (split_str "\n\n" 0 [] aiResponse).

(** An annotation and a known path match when one contains the other. *)
Definition related (annotation : str) (f : KnownFile) : Prop :=
  contains (path f) annotation \/ contains annotation (path f).

(** How one fenced block is tied to the known files. *)
Definition resolved (files : list KnownFile) (m : rmatch) (sn : CodeSnippet)
  : Prop :=
  let annotation := group_or_empty m 1 in
  (forall before f after,
      annotation <> [] ->
      files = before ++ f :: after ->
      related annotation f ->
      (forall g, In g before -> ~ related annotation g) ->
      filePath sn = path f /\ originalCode sn = content f) /\
  ((forall g, In g files -> ~ related annotation g) ->
   filePath sn = annotation /\ originalCode sn = []) /\
  (annotation = [] -> filePath sn = [] /\ originalCode sn = []).






End GeminiTerms.

Module ServiceTerms.

Import IssueAnalyzerService RegExpTerms IssueAnalyzerTerms.

(** The text before the first occurrence of [sep], all of the text when
    [sep] does not occur; and the text after that occurrence. *)
Fixpoint before (sep s : str) : str :=
  match s with
  | [] => []
  | c :: t => if prefixb sep s then [] else c :: before sep t
  end.

Fixpoint after (sep s : str) : str :=
  match s with
  | [] => []
  | c :: t => if prefixb sep s then skipn (length sep) s else after sep t
  end.

(** The words that start a credential pattern. *)
Definition credential_keyword (kw : str) : Prop :=
  kw = "password" \/ kw = "apikey" \/ kw = "api_key" \/ kw = "api-key" \/
  kw = "secret" \/ kw = "token" \/ kw = "auth".

(** What follows the word: optional white space, a colon or an equals
    sign, optional white space, one or more quotes, one or more characters
    that are no quotes, and a quote. *)
Definition assigned_literal (t : str) : Prop :=
  exists ws1 c ws2 qs v q,
    t = ws1 ++ c :: ws2 ++ qs ++ v ++ [q] /\
    Forall (fun x => is_space x = true) ws1 /\ is_colon_eq c = true /\
    Forall (fun x => is_space x = true) ws2 /\
    qs <> [] /\ Forall (fun x => is_quote x = true) qs /\
    v <> [] /\ Forall (fun x => is_quote x = false) v /\
    is_quote q = true.

Definition hardcoded_credential (code : str) : Prop :=
  exists kw t, credential_keyword kw /\ assigned_literal t /\
               contains code (kw ++ t).

(** The header of a fenced code block that is annotated with a path: the
    fence, an optional language tag, optional white space and the path. *)
Definition fence_header (p : str) (header : str) : Prop :=
  exists lang ws,
    header = js "```" ++ lang ++ ws ++ p /\
    Forall (fun c => is_alpha c = true) lang /\
    Forall (fun c => is_space c = true) ws.

(** Where a reference comes from: a token [path:line] or
    [path:start-end] of the text, or the header of a fenced block that
    is closed further on. *)
Definition from_token (text : str) (r : FileReference) : Prop :=
  exists s oe,
    numeral s /\
    match oe with
    | Some e => numeral e
    | None => True
    end /\
    contains text (token_text (path r) s oe) /\
    r = ref_of_token (path r) s oe.

Definition from_fence (text : str) (r : FileReference) : Prop :=
  lineNumbers r = [] /\
  exists header body,
    fence_header (path r) header /\
    contains text (header ++ body ++ js "```").

(** The findings of the four heuristics, in the order of the tests. *)
Definition allFindings : list CodeIssue :=
  [debugIssue; incompleteIssue; unsafeIssue; credentialIssue].

(** [l] is [l'] with some elements left out. *)
Fixpoint sublist (A : Type) (l l' : list A) : Prop :=
  match l, l' with
  | [], _ => True
  | _ :: _, [] => False
  | x :: t, y :: t' => (x = y /\ sublist A t t') \/ sublist A l t'
  end.

(** The condition of each finding. *)
Definition condition (i : CodeIssue) (code : str) : Prop :=
  (i = debugIssue /\
   (contains code "console.log" \/ contains code "console.debug" \/
    contains code "console.error")) \/
  (i = incompleteIssue /\
   (contains code "TODO" \/ contains code "FIXME" \/ contains code "HACK" \/
    contains code "XXX")) \/
  (i = unsafeIssue /\
   (contains code "eval(" \/ contains code "new Function(")) \/
  (i = credentialIssue /\ hardcoded_credential code).

(** The text ends with one of the extensions. *)
Definition has_extension (exts : list str) (p : str) : Prop :=
  exists stem ext, p = stem ++ ext /\ In ext exts.

(** None of the characters of the class occurs in the text. *)
Definition free_of (p : ascii -> bool) (s : str) : Prop :=
  Forall (fun c => p c = false) s.

(** The characters that end the name of a repository in a URL. *)
Definition ends_name (c : ascii) : bool :=
  Ascii.eqb c "/" || Ascii.eqb c "#" || Ascii.eqb c "?".

Definition is_slash (c : ascii) : bool := Ascii.eqb c "/".

(** A fenced block with a language tag, each fence on a line of its
    own. *)
Definition fenced (lang code : str) : str :=
  js "```" ++ lang ++ LF :: code ++ LF :: js "```".

(** A code that starts with neither white space nor a dotted name: the
    path characters it starts with hold no dot. *)
Definition plain_start (code : str) : Prop :=
  code <> [] /\ starts_ws code = false /\
  exists w t,
    code = w ++ t /\
    Forall (fun c => is_pathc c = true /\ c <> "."%char) w /\
    starts_in is_pathc t = false.

End ServiceTerms.

Module SectionTerms.

Import IssueAnalyzerService GeminiService RegExpTerms.

(** The three labelled sections of a response, the labels that open
    each and the patterns that end it. *)
Inductive section_name : Type :=
| AnalysisSection
| SolutionSection
| PracticesSection.

Definition label_texts (sec : section_name) : list str :=
  match sec with
  | AnalysisSection => [js "Analysis"; js "Issue Analysis"]
  | SolutionSection =>
      [js "Solution"; js "Step-by-step solution"; js "Suggested solution"]
  | PracticesSection => [js "Best Practices"; js "Prevention"]
  end.

Definition terminators (sec : section_name) : list regex :=
  match sec with
  | AnalysisSection =>
      [liti "Solution"; liti "Step-by-step solution";
       liti "Suggested solution"; numbered "Solution"]
  | SolutionSection =>
      [liti "Best Practices"; liti "Prevention"; numbered "Best Practices"]
  | PracticesSection =>
      [liti "Code Improvements"; liti "Suggested Improvements";
       liti "Conclusion"; Eos]
  end.

Definition section_pattern (sec : section_name) : regex :=
  match sec with
  | AnalysisSection => analysisPattern
  | SolutionSection => solutionPattern
  | PracticesSection => bestPracticesPattern
  end.

(** A label of the section, in any case, starts the text. *)
Definition starts_label (sec : section_name) (s : str) : bool :=
  test_anchored (alts (map liti (label_texts sec))) s.

(** The text starts with an end of the section: a line break, optional
    white space and what the section pattern looks ahead for. *)
Definition ends_section (sec : section_name) (s : str) : bool :=
  test_anchored
    (seqs [Chr LF; Star true (Cls is_space); alts (terminators sec)]) s.

(** The test fails at every position of [s], read with [tail] behind. *)
Fixpoint nowhere (test : str -> bool) (s tail : str) : bool :=
  match s with
  | [] => true
  | _ :: s' => negb (test (s ++ tail)) && nowhere test s' tail
  end.

(** The same state with other captures. *)
Definition recap (cs : list (nat * str)) (st : mstate) : mstate :=
  MState (rest st) cs.

End SectionTerms.

(** * The model on textbook inputs

    The helpers that stand for built-in JavaScript functions, evaluated on
    inputs whose results the language definition spells out. *)

Module ModelExamples.

Definition texts (ms : list rmatch) : list str := map m_text ms.

(** [/((a)|(ab))((c)|(bcd))/.exec("abcd")] is
    [["abcd", "a", "a", undefined, "bcd", undefined, "bcd"]]. *)
Example alternatives_in_order :
  let r := Seq (Group 1 (Alt (Group 2 (Chr "a")) (Group 3 (lit "ab"))))
               (Group 4 (Alt (Group 5 (Chr "c")) (Group 6 (lit "bcd")))) in
  match str_match r "abcd" with
  | Some m =>
      (m_text m, [group m 1; group m 2; group m 3; group m 4; group m 5; group m 6])
      = (js "abcd", [Some (js "a"); Some (js "a"); None; Some (js "bcd"); None;
                     Some (js "bcd")])
  | None => False
  end.
Proof. vm_compute. reflexivity. Qed.

(** [<.*>] takes the longest match and [<.*?>] the shortest. *)
Example greedy_and_lazy :
  let any g := seqs [Chr "<"; Star g (Cls any_char); Chr ">"] in
  texts (execAll (any true) "<a><b>") = [js "<a><b>"] /\
  texts (execAll (any false) "<a><b>") = [js "<a>"; js "<b>"].
Proof. split; vm_compute; reflexivity. Qed.

(** A lookahead reads nothing; [$] holds at the end of the input only. *)
Example lookahead_and_end :
  search (Seq (Chr "a") (Look (Chr "b"))) "acab"
  = Some (js "ac", RMatch (js "a") (js "b") []) /\
  texts (execAll (Seq (Plus true (Cls is_digit)) Eos) "a1b22") = [js "22"].
Proof. split; vm_compute; reflexivity. Qed.

(** Flag i folds the case of letters. *)
Example ignore_case :
  test (liti "Best Practices") "some BEST practices" = true /\
  test (lit "Best Practices") "some BEST practices" = false.
Proof. split; vm_compute; reflexivity. Qed.

(** ["ab".split(/a*?/)] is [["a", "b"]] and ["ab".split(/a*/)] is
    [["", "b"]]. *)
Example split_on_empty_matches :
  split (Star false (Chr "a")) "ab" = [js "a"; js "b"] /\
  split (Star true (Chr "a")) "ab" = [[]; js "b"].
Proof. split; vm_compute; reflexivity. Qed.

Example split_on_strings :
  split_str "\n\n" 0 [] "one\n\ntwo\nlines\n\n\nthree"
  = [js "one"; js "two\nlines"; js "\nthree"] /\
  split_str "\n\n" 0 [] [] = [[]].
Proof. split; vm_compute; reflexivity. Qed.

Example parseInt_prefixes :
  parseInt "12abc" = Int 12 /\ parseInt "  -7" = Int (-7) /\
  parseInt "007" = Int 7 /\ parseInt "abc" = NaN /\ parseInt [] = NaN.
Proof. repeat split; vm_compute; reflexivity. Qed.

(** Integers beyond 2^53 are rounded to the nearest number, a tie to the
    even one; [9007199254740992 + 1] is [9007199254740992] and
    [9007199254740994 + 1] is [9007199254740996]. *)
Example numbers_are_rounded :
  parseInt "9007199254740993" = Int 9007199254740992 /\
  parseInt "9007199254740995" = Int 9007199254740996 /\
  number_succ (Int 9007199254740992) = Int 9007199254740992 /\
  number_succ (Int 9007199254740994) = Int 9007199254740996 /\
  number_succ (Int 9007199254740991) = Int 9007199254740992 /\
  parseInt ("1"%char :: zeros 400) = Infinity false.
Proof. repeat split; vm_compute; reflexivity. Qed.

(** [String(2 ** 53)] is ["9007199254740992"], [String(2 ** 64)] is
    ["18446744073709552000"], [String(1e21)] is ["1e+21"] and
    [String(2 ** 70)] is ["1.1805916207174113e+21"]. *)
Example numbers_as_strings :
  numberToString (Int 42) = js "42" /\
  numberToString (Int (-7)) = js "-7" /\
  numberToString (Int (2 ^ 53)) = js "9007199254740992" /\
  numberToString (Int (2 ^ 64)) = js "18446744073709552000" /\
  numberToString (Int (10 ^ 21)) = js "1e+21" /\
  numberToString (Int (2 ^ 70)) = js "1.1805916207174113e+21" /\
  numberToString NaN = js "NaN" /\
  numberToString (Infinity false) = js "Infinity".
Proof. repeat split; vm_compute; reflexivity. Qed.

Example trim_and_includes :
  trim " \n two words \n" = js "two words" /\
  includes "src/app.js" "app" = true /\ includes "app" "src/app.js" = false /\
  includes "app" [] = true.
Proof. repeat split; vm_compute; reflexivity. Qed.

End ModelExamples.

(** * Properties of the regular-expression engine *)

Module RegExpFacts.

Import RegExpTerms.

Lemma step_char_In p st st' :
  In st' (step_char p st) ->
  exists c, rest st = c :: rest st' /\ p c = true /\ caps st' = caps st.
Proof.
  unfold step_char. destruct (rest st) as [|c t] eqn:E; simpl; [tauto|].
  destruct (p c) eqn:Hp; simpl; [|tauto].
  intros [<-|[]]. exists c. simpl. auto.
Qed.

(** A relation that holds of a state and itself, and is carried backwards
    along one iteration, holds along a whole quantified match. *)
Lemma star_iter_In (R : mstate -> mstate -> Prop) g step :
  (forall a, R a a) ->
  (forall a b c, In b (step a) -> R b c -> R a c) ->
  forall n st st', In st' (star_iter g step n st) -> R st st'.
Proof.
  intros Hrefl Htrans. induction n as [|n IH]; intros st st' Hin; simpl in Hin.
  - destruct Hin as [<-|[]]. apply Hrefl.
  - assert (Hmore : In st' (flat_map (fun x =>
        if length (rest x) <? length (rest st)
        then star_iter g step n x else []) (step st)) -> R st st').
    { intros H. apply in_flat_map in H. destruct H as [b [Hb Hst']].
      destruct (length (rest b) <? length (rest st)); [|destruct Hst'].
      eapply Htrans; eauto. }
    destruct g.
    + apply in_app_or in Hin. destruct Hin as [H|[<-|[]]]; auto.
    + destruct Hin as [<-|H]; auto.
Qed.

Section Reads.

Variable P : ascii -> Prop.

Lemma read_between_refl st : read_between P 0 st st.
Proof. exists []. simpl. auto. Qed.

Lemma read_between_trans j k a b c :
  read_between P j a b -> read_between P k b c -> read_between P (j + k) a c.
Proof.
  intros [w1 [E1 [F1 L1]]] [w2 [E2 [F2 L2]]]. exists (w1 ++ w2).
  rewrite E1, E2, <- app_assoc, length_app. repeat split; auto.
  - apply Forall_app; auto.
  - lia.
Qed.

Lemma read_between_weaken j k a b :
  j <= k -> read_between P k a b -> read_between P j a b.
Proof. intros Hjk [w [E [F L]]]. exists w. repeat split; auto. lia. Qed.

Lemma run_reads r :
  reads P r ->
  forall st st', In st' (run r st) -> read_between P (minlen r) st st'.
Proof.
  induction r as [ |c|c|p|a IHa b IHb|a IHa b IHb|g a IHa|i a IHa|a IHa| ];
    simpl; intros HP st st' Hin.
  - destruct Hin as [<-|[]]. apply read_between_refl.
  - apply step_char_In in Hin. destruct Hin as [x [E [Hx _]]].
    apply Ascii.eqb_eq in Hx. subst x. exists [c]. simpl. repeat split; auto.
  - apply step_char_In in Hin. destruct Hin as [x [E [Hx _]]].
    apply Ascii.eqb_eq in Hx. exists [x]. simpl. repeat split; auto.
  - apply step_char_In in Hin. destruct Hin as [x [E [Hx _]]].
    exists [x]. simpl. repeat split; auto.
  - destruct HP as [Ha Hb]. apply in_flat_map in Hin.
    destruct Hin as [mid [H1 H2]].
    apply read_between_trans with (b:=mid); eauto.
  - destruct HP as [Ha Hb]. apply in_app_or in Hin. destruct Hin as [H|H].
    + eapply read_between_weaken; [|eapply IHa; eauto]. lia.
    + eapply read_between_weaken; [|eapply IHb; eauto]. lia.
  - revert Hin. apply star_iter_In.
    + apply read_between_refl.
    + intros x y z Hxy Hyz.
      apply read_between_trans with (j:=0) (k:=0) (b:=y); auto.
      eapply read_between_weaken; [|eapply IHa; eauto]. lia.
  - apply in_map_iff in Hin. destruct Hin as [mid [<- H]]. simpl.
    destruct (IHa HP _ _ H) as [w [E [F L]]]. exists w. auto.
  - destruct (run a st) as [|x l]; [destruct Hin|].
    destruct Hin as [<-|[]]. exists []. simpl. auto.
  - destruct (rest st); [|destruct Hin].
    destruct Hin as [<-|[]]. apply read_between_refl.
Qed.

End Reads.

Lemma run_suffix r st st' :
  In st' (run r st) -> exists w, rest st = w ++ rest st' /\ minlen r <= length w.
Proof.
  intros H. destruct (@run_reads (fun _ => True) r) with (st:=st) (st':=st')
    as [w [E [_ L]]]; auto.
  - clear. induction r; simpl; auto.
  - eauto.
Qed.

Lemma run_caps_nogroups r :
  nogroups r = true ->
  forall st st', In st' (run r st) -> caps st' = caps st.
Proof.
  induction r as [ |c|c|p|a IHa b IHb|a IHa b IHb|g a IHa|i a IHa|a IHa| ];
    simpl; intros HG st st' Hin; try discriminate.
  - destruct Hin as [<-|[]]. reflexivity.
  - apply step_char_In in Hin. destruct Hin as [x [_ [_ E]]]. exact E.
  - apply step_char_In in Hin. destruct Hin as [x [_ [_ E]]]. exact E.
  - apply step_char_In in Hin. destruct Hin as [x [_ [_ E]]]. exact E.
  - apply andb_prop in HG. destruct HG as [Ga Gb].
    apply in_flat_map in Hin. destruct Hin as [mid [H1 H2]].
    rewrite (IHb Gb _ _ H2). eauto.
  - apply andb_prop in HG. destruct HG as [Ga Gb].
    apply in_app_or in Hin. destruct Hin as [H|H]; eauto.
  - revert Hin.
    apply (star_iter_In (fun x y => caps y = caps x)); auto.
    intros x y z Hxy Hyz. rewrite Hyz. eauto.
  - destruct (run a st) as [|x l] eqn:E; [destruct Hin|].
    destruct Hin as [<-|[]]. simpl. apply IHa; auto. rewrite E. left; auto.
  - destruct (rest st); [|destruct Hin].
    destruct Hin as [<-|[]]. reflexivity.
Qed.

Lemma consumed_app st st' w :
  rest st = w ++ rest st' -> consumed st st' = w.
Proof.
  intros E. unfold consumed. rewrite E, length_app.
  replace (length w + length (rest st') - length (rest st')) with (length w)
    by lia.
  rewrite firstn_app, firstn_all, Nat.sub_diag. simpl. apply app_nil_r.
Qed.

(** A capturing group around a pattern without groups records exactly the
    text the pattern read. *)
Lemma run_group P i a st st' :
  nogroups a = true -> reads P a ->
  In st' (run (Group i a) st) ->
  exists w, rest st = w ++ rest st' /\ caps st' = (i, w) :: caps st
            /\ Forall P w /\ minlen a <= length w.
Proof.
  intros G HP Hin. simpl in Hin. apply in_map_iff in Hin.
  destruct Hin as [mid [<- H]]. simpl.
  destruct (run_reads P a HP _ _ H) as [w [E [F L]]].
  exists w. rewrite (consumed_app _ _ _ E), (run_caps_nogroups a G _ _ H). auto.
Qed.

Lemma match_here_Some r s m :
  match_here r s = Some m ->
  exists st' l, run r (start s) = st' :: l /\
                s = m_text m ++ m_post m /\
                m_post m = rest st' /\ m_caps m = caps st'.
Proof.
  unfold match_here. destruct (run r (start s)) as [|st' l] eqn:E; [discriminate|].
  intros [= <-]. exists st', l. simpl. repeat split; auto.
  destruct (run_suffix r (start s) st') as [w [Ew _]]; [rewrite E; left; auto|].
  rewrite (consumed_app _ _ _ Ew). exact Ew.
Qed.

Lemma search_Some r s : forall pre m,
  search r s = Some (pre, m) ->
  s = pre ++ m_text m ++ m_post m /\ match_here r (m_text m ++ m_post m) = Some m.
Proof.
  induction s as [|c t IH]; intros pre m; simpl.
  - destruct (match_here r []) as [m0|] eqn:E; [|discriminate].
    intros [= <- <-]. destruct (match_here_Some _ _ _ E) as [_ [_ [_ [<- _]]]].
    auto.
  - destruct (match_here r (c :: t)) as [m0|] eqn:E.
    + intros [= <- <-]. destruct (match_here_Some _ _ _ E) as [_ [_ [_ [<- _]]]].
      auto.
    + destruct (search r t) as [[pre0 m0]|]; [|discriminate].
      intros [= <- <-]. destruct (IH _ _ eq_refl) as [-> H]. auto.
Qed.

Lemma search_here r s m : match_here r s = Some m -> search r s = Some ([], m).
Proof. intros H. destruct s; simpl; rewrite H; reflexivity. Qed.

Lemma search_match_at r s pre m : search r s = Some (pre, m) -> match_at r s m.
Proof.
  intros H. apply search_Some in H. destruct H as [E H].
  apply match_here_Some in H. destruct H as [st' [l [H1 [_ [H3 H4]]]]].
  exists pre, st', l. auto.
Qed.

(** A match of a pattern that reads at least one character leaves less
    input than there was. *)
Lemma search_shorter r s pre m :
  search r s = Some (pre, m) ->
  length (m_post m) + minlen r <= length s.
Proof.
  intros H. apply search_match_at in H.
  destruct H as [pre' [st' [l [E [Hrun [Hp _]]]]]].
  destruct (run_suffix r (start (m_text m ++ m_post m)) st') as [w [Ew Lw]];
    [rewrite Hrun; left; auto|].
  simpl in Ew. rewrite <- Hp in Ew. apply app_inv_tail in Ew.
  rewrite E, Ew, !length_app. lia.
Qed.

(** Every match of the global loop is a first match at some position. *)
Lemma exec_loop_In r m : forall fuel s,
  In m (exec_loop r fuel s) -> exists s', match_at r s' m.
Proof.
  induction fuel as [|fuel IH]; intros s; simpl; [tauto|].
  destruct (search r s) as [[pre m0]|] eqn:E; [|simpl; tauto].
  intros [<-|H].
  - exists s. eapply search_match_at; eauto.
  - eauto.
Qed.

(** The bound on the rounds of the global loop is never reached: more
    fuel does not change the result. *)
Lemma exec_loop_fuel r :
  1 <= minlen r ->
  forall n m s, length s < n -> length s < m ->
                exec_loop r n s = exec_loop r m s.
Proof.
  intros Hr. induction n as [|n IH]; intros m s Hn Hm; [lia|].
  destruct m as [|m]; [lia|]. simpl.
  destruct (search r s) as [[pre m0]|] eqn:E; [|reflexivity].
  apply search_shorter in E. f_equal. apply IH; lia.
Qed.

Lemma execAll_In r s m : In m (execAll r s) -> exists s', match_at r s' m.
Proof. apply exec_loop_In. Qed.

(** The bound on the rounds of a split is never reached either. *)
Lemma split_loop_fuel sep :
  1 <= minlen sep ->
  forall n m cur_rev s, length s < n -> length s < m ->
                        split_loop sep n cur_rev s = split_loop sep m cur_rev s.
Proof.
  intros Hsep. induction n as [|n IH]; intros m cur_rev s Hn Hm; [lia|].
  destruct m as [|m]; [lia|]. cbn [split_loop].
  destruct s as [|c t]; [reflexivity|].
  destruct (run sep (start (c :: t))) as [|st' l] eqn:E.
  - apply IH; simpl in *; lia.
  - destruct (run_suffix sep (start (c :: t)) st') as [w [Ew Lw]];
      [rewrite E; left; reflexivity|].
    simpl in Ew. apply (f_equal (@List.length ascii)) in Ew.
    rewrite length_app in Ew. simpl in Ew.
    replace (length (rest st') =? length (c :: t)) with false
      by (symmetry; apply Nat.eqb_neq; simpl; lia).
    f_equal. apply IH; simpl in *; lia.
Qed.

Lemma In_run_Seq a b st st' :
  In st' (run (Seq a b) st) <->
  exists mid, In mid (run a st) /\ In st' (run b mid).
Proof. simpl. apply in_flat_map. Qed.

Lemma In_run_Alt a b st st' :
  In st' (run (Alt a b) st) <-> In st' (run a st) \/ In st' (run b st).
Proof. simpl. apply in_app_iff. Qed.

Lemma In_run_Chr c st st' :
  In st' (run (Chr c) st) <-> rest st = c :: rest st' /\ caps st' = caps st.
Proof.
  simpl. split.
  - intros H. apply step_char_In in H. destruct H as [x [E [Hx Hc]]].
    apply Ascii.eqb_eq in Hx. subst x. auto.
  - intros [E Hc]. unfold step_char. rewrite E, Ascii.eqb_refl.
    left. destruct st'; simpl in *. congruence.
Qed.

(** *** Barriers

    A character that a pattern cannot read stops every match in front of
    it: what follows the character has no influence on the matches that
    start before it.  This needs a pattern without lookahead. *)

Lemma flat_map_map_in {A B C} (f : B -> list C) (g : A -> list C)
      (k : A -> B) (h : C -> C) l :
  (forall y, In y l -> f (k y) = map h (g y)) ->
  flat_map f (map k l) = map h (flat_map g l).
Proof.
  induction l as [|a l IH]; simpl; intros H; auto.
  rewrite map_app, H, IH; auto.
Qed.

Lemma flat_map_eq_in {A B} (f g : A -> list B) l :
  (forall y, In y l -> f y = g y) -> flat_map f l = flat_map g l.
Proof.
  induction l as [|a l IH]; simpl; intros H; auto.
  rewrite H, IH; auto.
Qed.

Lemma run_shorter r st y : In y (run r st) -> length (rest y) <= length (rest st).
Proof.
  intros H. destruct (run_suffix r st y H) as [w [E _]].
  rewrite E, length_app. lia.
Qed.

(** The bound on the iterations of a quantifier is never reached. *)
Lemma star_iter_fuel g step :
  (forall st y, In y (step st) -> length (rest y) <= length (rest st)) ->
  forall n m st, length (rest st) <= n -> length (rest st) <= m ->
                 star_iter g step n st = star_iter g step m st.
Proof.
  intros Hstep.
  assert (Hnil : forall k st, length (rest st) = 0 ->
            flat_map (fun st' => if length (rest st') <? length (rest st)
                                 then star_iter g step k st' else [])
                     (step st) = []).
  { intros k st H0. rewrite (flat_map_eq_in _ (fun _ => [])).
    - induction (step st); simpl; auto.
    - intros y Hy. rewrite H0. reflexivity. }
  induction n as [|n IH]; intros m st Hn Hm.
  - destruct m as [|m]; [reflexivity|]. simpl.
    rewrite Hnil by lia. destruct g; reflexivity.
  - destruct m as [|m]; simpl.
    + rewrite Hnil by lia. destruct g; reflexivity.
    + rewrite (flat_map_eq_in _
        (fun st' => if length (rest st') <? length (rest st)
                    then star_iter g step m st' else [])); [reflexivity|].
      intros y Hy. destruct (length (rest y) <? length (rest st)) eqn:E; auto.
      apply Nat.ltb_lt in E. apply IH; lia.
Qed.

Lemma star_iter_extend g step t :
  (forall st, step (extend t st) = map (extend t) (step st)) ->
  forall n st,
    star_iter g step n (extend t st) = map (extend t) (star_iter g step n st).
Proof.
  intros Hstep. induction n as [|n IH]; intros st; [reflexivity|].
  cbn [star_iter].
  assert (E : flat_map
                (fun st' => if length (rest st') <? length (rest (extend t st))
                            then star_iter g step n st' else [])
                (step (extend t st))
              = map (extend t)
                    (flat_map
                       (fun st' => if length (rest st') <? length (rest st)
                                   then star_iter g step n st' else [])
                       (step st))).
  { rewrite Hstep. apply flat_map_map_in. intros y _. simpl.
    rewrite !length_app.
    replace (length (rest y) + length t <? length (rest st) + length t)
      with (length (rest y) <? length (rest st)).
    - destruct (length (rest y) <? length (rest st)); [apply IH|reflexivity].
    - destruct (length (rest y) <? length (rest st)) eqn:E1; symmetry.
      + apply Nat.ltb_lt. apply Nat.ltb_lt in E1. lia.
      + apply Nat.ltb_ge. apply Nat.ltb_ge in E1. lia. }
  rewrite E. destruct g; simpl.
  - rewrite map_app. reflexivity.
  - reflexivity.
Qed.

Lemma step_char_extend p c t st :
  p c = false ->
  step_char p (extend (c :: t) st) = map (extend (c :: t)) (step_char p st).
Proof.
  intros H. unfold step_char, extend. simpl.
  destruct (rest st) as [|a s']; simpl.
  - rewrite H. reflexivity.
  - destruct (p a); reflexivity.
Qed.

Lemma consumed_extend t st y :
  (exists w, rest st = w ++ rest y) ->
  consumed (extend t st) (extend t y) = consumed st y.
Proof.
  intros [w E]. rewrite (consumed_app _ _ _ E). apply consumed_app.
  simpl. rewrite E, app_assoc. reflexivity.
Qed.

Section Barrier.

Variable P : ascii -> Prop.
Variable c : ascii.
Variable t : str.
Hypothesis barrier : ~ P c.

Lemma run_barrier r :
  lookfree r = true -> reads P r ->
  forall st, run r (extend (c :: t) st) = map (extend (c :: t)) (run r st).
Proof.
  induction r as [ |x|x|p|a IHa b IHb|a IHa b IHb|g a IHa|i a IHa|a IHa| ];
    simpl; intros HL HP st; try discriminate.
  - reflexivity.
  - apply step_char_extend. destruct (Ascii.eqb x c) eqn:E; auto.
    apply Ascii.eqb_eq in E. subst x. contradiction.
  - apply (step_char_extend (fun y => Ascii.eqb (canon y) (canon x))).
    destruct (Ascii.eqb (canon c) (canon x)) eqn:E; auto.
    apply Ascii.eqb_eq in E. exfalso. auto.
  - apply step_char_extend. destruct (p c) eqn:E; auto. exfalso. auto.
  - apply andb_prop in HL. destruct HL as [La Lb]. destruct HP as [Pa Pb].
    rewrite (IHa La Pa). apply flat_map_map_in. intros y _. apply IHb; auto.
  - apply andb_prop in HL. destruct HL as [La Lb]. destruct HP as [Pa Pb].
    rewrite (IHa La Pa), (IHb Lb Pb), map_app. reflexivity.
  - rewrite star_iter_extend by (apply IHa; auto). f_equal.
    apply star_iter_fuel.
    + intros x y. apply run_shorter.
    + rewrite length_app. lia.
    + lia.
  - rewrite (IHa HL HP), !map_map. apply map_ext_in. intros y Hy.
    unfold extend at 1. simpl. rewrite consumed_extend; [reflexivity|].
    destruct (run_suffix a st y Hy) as [w [E _]]. eauto.
Qed.

Lemma match_here_barrier r x :
  lookfree r = true -> reads P r ->
  match_here r (x ++ c :: t)
  = match match_here r x with
    | Some m => Some (extend_match c t m)
    | None => None
    end.
Proof.
  intros HL HP. unfold match_here.
  change (start (x ++ c :: t)) with (extend (c :: t) (start x)).
  rewrite (run_barrier r HL HP).
  destruct (run r (start x)) as [|y l] eqn:E; [reflexivity|]. simpl map.
  unfold extend_match. cbn [m_text m_post m_caps].
  rewrite consumed_extend; [reflexivity|].
  destruct (run_suffix r (start x) y) as [w [Ew _]]; [rewrite E; left; auto|].
  eauto.
Qed.

Lemma search_barrier r :
  lookfree r = true -> reads P r ->
  forall x,
    search r (x ++ c :: t)
    = match search r x with
      | Some (pre, m) => Some (pre, extend_match c t m)
      | None =>
          match search r t with
          | Some (pre, m) => Some (x ++ c :: pre, m)
          | None => None
          end
      end.
Proof.
  intros HL HP. induction x as [|a x IH].
  - pose proof (match_here_barrier r [] HL HP) as Hb. simpl in Hb.
    cbn [app search]. rewrite Hb.
    destruct (match_here r []); [reflexivity|].
    destruct (search r t) as [[pre m]|]; reflexivity.
  - pose proof (match_here_barrier r (a :: x) HL HP) as Hb.
    replace ((a :: x) ++ c :: t) with (a :: (x ++ c :: t)) in * by reflexivity.
    cbn [search]. rewrite Hb.
    destruct (match_here r (a :: x)); [reflexivity|].
    rewrite IH. destruct (search r x) as [[pre m]|]; [reflexivity|].
    destruct (search r t) as [[pre m]|]; reflexivity.
Qed.

(** The matches of the global loop on a text with a barrier are the
    matches in front of the barrier followed by the matches behind it. *)
Lemma exec_loop_barrier r :
  lookfree r = true -> reads P r -> 1 <= minlen r ->
  forall n x,
    length x < n ->
    map m_caps (exec_loop r (n + S (length t)) (x ++ c :: t))
    = map m_caps (exec_loop r n x)
      ++ map m_caps (exec_loop r (S (length t)) t).
Proof.
  intros HL HP Hmin. induction n as [|n IH]; intros x Hx; [lia|].
  cbn [Nat.add exec_loop]. rewrite (search_barrier r HL HP).
  destruct (search r x) as [[pre m]|] eqn:E.
  - apply search_shorter in E. cbn [map app extend_match m_post m_caps].
    f_equal. apply IH. lia.
  - cbn [map app]. destruct (search r t) as [[pre m]|] eqn:Et; [|reflexivity].
    apply search_shorter in Et. cbn [map]. f_equal. f_equal.
    apply exec_loop_fuel; auto; lia.
Qed.

Lemma execAll_barrier r x :
  lookfree r = true -> reads P r -> 1 <= minlen r ->
  map m_caps (execAll r (x ++ c :: t))
  = map m_caps (execAll r x) ++ map m_caps (execAll r t).
Proof.
  intros HL HP Hmin. unfold execAll.
  rewrite <- (exec_loop_barrier r HL HP Hmin (S (length x)) x) by lia.
  f_equal. apply exec_loop_fuel; auto; rewrite length_app; simpl; lia.
Qed.

End Barrier.

(** *** Quantified classes *)

Lemma star_iter_self g step n st : In st (star_iter g step n st).
Proof.
  destruct n; simpl; [auto|]. destruct g.
  - apply in_or_app. right. left. reflexivity.
  - left. reflexivity.
Qed.

Section ClassStar.

Variable p : ascii -> bool.
Variable step : mstate -> list mstate.
Hypothesis step_is_class : forall st, step st = step_char p st.

(** Every prefix made of characters of the class can be read. *)
Lemma star_iter_class_In g w : forall t cs n,
  Forall (fun c => p c = true) w -> length (w ++ t) <= n ->
  In (MState t cs) (star_iter g step n (MState (w ++ t) cs)).
Proof.
  induction w as [|a w IH]; intros t cs n Hw Hn.
  - apply star_iter_self.
  - inversion Hw as [|? ? Ha Hw']; subst.
    destruct n as [|n]; [simpl in Hn; lia|].
    assert (Hmore : In (MState t cs)
              (flat_map (fun st' =>
                 if length (rest st') <? length (rest (MState ((a :: w) ++ t) cs))
                 then star_iter g step n st' else [])
                 (step (MState ((a :: w) ++ t) cs)))).
    { rewrite step_is_class. unfold step_char. simpl. rewrite Ha. simpl.
      replace (length (w ++ t) <? S (length (w ++ t))) with true
        by (symmetry; apply Nat.ltb_lt; lia).
      rewrite app_nil_r. apply IH; auto. simpl in Hn. lia. }
    cbn [star_iter]. destruct g.
    + apply in_or_app. left. exact Hmore.
    + right. exact Hmore.
Qed.

(** A greedy quantifier first reads the longest such prefix. *)
Lemma star_iter_class_full w : forall t cs n,
  Forall (fun c => p c = true) w -> starts_in p t = false ->
  length (w ++ t) <= n ->
  exists l, star_iter true step n (MState (w ++ t) cs) = MState t cs :: l.
Proof.
  induction w as [|a w IH]; intros t cs n Hw Ht Hn.
  - destruct n as [|n]; [exists []; reflexivity|].
    cbn [star_iter]. rewrite step_is_class. unfold step_char. simpl.
    destruct t as [|b t]; [exists []; reflexivity|].
    simpl in Ht. rewrite Ht. exists []. reflexivity.
  - inversion Hw as [|? ? Ha Hw']; subst.
    destruct n as [|n]; [simpl in Hn; lia|].
    cbn [star_iter]. rewrite step_is_class. unfold step_char. simpl.
    rewrite Ha. simpl.
    replace (length (w ++ t) <? S (length (w ++ t))) with true
      by (symmetry; apply Nat.ltb_lt; lia).
    rewrite app_nil_r.
    destruct (IH t cs n Hw' Ht) as [l E]; [simpl in Hn; lia|].
    rewrite E. simpl. eauto.
Qed.

End ClassStar.

Lemma star_class_In g p w t cs :
  Forall (fun c => p c = true) w ->
  In (MState t cs) (run (Star g (Cls p)) (MState (w ++ t) cs)).
Proof.
  intros Hw.
  change (run (Star g (Cls p)) (MState (w ++ t) cs))
    with (star_iter g (run (Cls p)) (length (w ++ t)) (MState (w ++ t) cs)).
  apply (star_iter_class_In p (run (Cls p)) (fun _ => eq_refl)); auto.
Qed.

Lemma plus_class_In g p w t cs :
  w <> [] -> Forall (fun c => p c = true) w ->
  In (MState t cs) (run (Plus g (Cls p)) (MState (w ++ t) cs)).
Proof.
  intros Hne Hw. destruct w as [|a w]; [congruence|].
  inversion Hw as [|? ? Ha Hw']; subst.
  unfold Plus. apply In_run_Seq. exists (MState (w ++ t) cs). split.
  - simpl. unfold step_char. simpl. rewrite Ha. left. reflexivity.
  - change (run (Star g (Cls p)) (MState (w ++ t) cs))
      with (star_iter g (run (Cls p)) (length (w ++ t)) (MState (w ++ t) cs)).
    apply (star_iter_class_In p (run (Cls p)) (fun _ => eq_refl)); auto.
Qed.

Lemma plus_class_full p w t cs :
  w <> [] -> Forall (fun c => p c = true) w -> starts_in p t = false ->
  exists l, run (Plus true (Cls p)) (MState (w ++ t) cs) = MState t cs :: l.
Proof.
  intros Hne Hw Ht. destruct w as [|a w]; [congruence|].
  inversion Hw as [|? ? Ha Hw']; subst.
  destruct (star_iter_class_full p (run (Cls p)) (fun _ => eq_refl)
              w t cs (length (w ++ t)) Hw' Ht (le_n _)) as [l E].
  exists (l ++ []). unfold Plus.
  change (run (Seq (Cls p) (Star true (Cls p))) (MState ((a :: w) ++ t) cs))
    with (flat_map (run (Star true (Cls p)))
                   (step_char p (MState ((a :: w) ++ t) cs))).
  unfold step_char. simpl rest. cbn iota. rewrite Ha. cbn [flat_map caps].
  change (run (Star true (Cls p)) (MState (w ++ t) cs))
    with (star_iter true (run (Cls p)) (length (w ++ t)) (MState (w ++ t) cs)).
  rewrite E. reflexivity.
Qed.

(** A pattern that cannot start with the character at hand does not
    match. *)
Lemma plus_class_none g p c t cs :
  p c = false -> run (Plus g (Cls p)) (MState (c :: t) cs) = [].
Proof. intros H. simpl. unfold step_char. simpl. rewrite H. reflexivity. Qed.

Lemma plus_class_none_nil g p cs : run (Plus g (Cls p)) (MState [] cs) = [].
Proof. reflexivity. Qed.



(** *** Equations of [run] *)

Lemma run_Seq_eq a b st : run (Seq a b) st = flat_map (run b) (run a st).
Proof. reflexivity. Qed.

Lemma run_Alt_eq a b st : run (Alt a b) st = run a st ++ run b st.
Proof. reflexivity. Qed.

Lemma run_Group_eq i a st :
  run (Group i a) st
  = map (fun st' => MState (rest st') ((i, consumed st st') :: caps st'))
        (run a st).
Proof. reflexivity. Qed.

Lemma run_Chr_hit c t cs : run (Chr c) (MState (c :: t) cs) = [MState t cs].
Proof. simpl. unfold step_char. simpl. rewrite Ascii.eqb_refl. reflexivity. Qed.

Lemma run_Chr_miss c a t cs : a <> c -> run (Chr c) (MState (a :: t) cs) = [].
Proof.
  intros H. simpl. unfold step_char. simpl.
  destruct (Ascii.eqb c a) eqn:E; [|reflexivity].
  apply Ascii.eqb_eq in E. congruence.
Qed.

Lemma run_Chr_nil c cs : run (Chr c) (MState [] cs) = [].
Proof. reflexivity. Qed.

(** *** The first way a pattern matches *)





End RegExpFacts.

(** * Properties of the character classes and string helpers *)

Module StringFacts.

Import RegExpTerms.

Ltac all_chars c :=
  destruct c as [[|] [|] [|] [|] [|] [|] [|] [|]]; vm_compute;
  try reflexivity; try discriminate; auto.

Lemma digit_is_pathc c : is_digit c = true -> is_pathc c = true.
Proof. all_chars c. Qed.

Lemma alpha_is_pathc c : is_alpha c = true -> is_pathc c = true.
Proof. all_chars c. Qed.

Lemma digit_not_space c : is_digit c = true -> is_space c = false.
Proof. all_chars c. Qed.

Lemma digit_not_sign c :
  is_digit c = true -> c <> "-"%char /\ c <> "+"%char.
Proof. all_chars c; split; discriminate. Qed.

Lemma str_eqb_eq a b : str_eqb a b = true <-> a = b.
Proof.
  unfold str_eqb. destruct (list_eq_dec ascii_dec a b); split; auto; discriminate.
Qed.

Lemma prefixb_spec p : forall s, prefixb p s = true <-> exists v, s = p ++ v.
Proof.
  induction p as [|a p IH]; intros s; simpl.
  - split; eauto.
  - destruct s as [|b s].
    + split; [discriminate|]. intros [v H]. discriminate.
    + rewrite andb_true_iff, Ascii.eqb_eq, IH. split.
      * intros [-> [v ->]]. eauto.
      * intros [v [= -> ->]]. eauto.
Qed.

(** [includes] is substring containment. *)
Lemma includes_spec sub : forall s,
  includes s sub = true <-> exists u v, s = u ++ sub ++ v.
Proof.
  induction s as [|c t IH].
  - simpl. rewrite orb_false_r, prefixb_spec. split.
    + intros [v H]. exists [], v. exact H.
    + intros [u [v H]]. destruct u; [eauto|discriminate].
  - cbn [includes]. rewrite orb_true_iff, prefixb_spec, IH. split.
    + intros [[v H]|[u [v H]]].
      * exists [], v. exact H.
      * exists (c :: u), v. simpl. congruence.
    + intros [u [v H]]. destruct u as [|c' u].
      * left. eauto.
      * right. injection H as _ H. eauto.
Qed.

Lemma digits_acc_nonneg s : forall acc, (0 <= acc)%Z -> (0 <= digits_acc acc s)%Z.
Proof.
  induction s as [|c t IH]; intros acc H; cbn [digits_acc]; auto.
  destruct (is_digit c); auto. apply IH. unfold digit_val.
  pose proof (Nat2Z.is_nonneg (code c - 48)). lia.
Qed.

(** On a non-empty run of digits [parseInt] is the number of the value of
    the numeral. *)
Lemma parseInt_digits d :
  d <> [] -> Forall (fun c => is_digit c = true) d ->
  parseInt d = toNumber (digits_acc 0 d).
Proof.
  intros Hne Hd. destruct d as [|c t]; [congruence|].
  inversion Hd as [|? ? Hc Ht]; subst. clear Hd Ht Hne.
  destruct c as [[|] [|] [|] [|] [|] [|] [|] [|]];
    try discriminate Hc; reflexivity.
Qed.

(** *** trim *)

Lemma trimStart_fix s : starts_ws s = false -> trimStart s = s.
Proof. destruct s as [|c t]; simpl; auto. intros ->. reflexivity. Qed.

Lemma trimStart_not_ws s : starts_ws (trimStart s) = false.
Proof.
  induction s as [|c t IH]; simpl; auto.
  destruct (is_space c) eqn:E; [exact IH|]. simpl. exact E.
Qed.

Lemma trimStart_idem s : trimStart (trimStart s) = trimStart s.
Proof. apply trimStart_fix, trimStart_not_ws. Qed.

Lemma trimStart_suffix s : exists v, s = v ++ trimStart s.
Proof.
  induction s as [|c t [v IH]]; simpl.
  - exists []. reflexivity.
  - destruct (is_space c).
    + exists (c :: v). simpl. congruence.
    + exists []. reflexivity.
Qed.

Lemma trimEnd_prefix s : exists v, s = trimEnd s ++ v.
Proof.
  unfold trimEnd. destruct (trimStart_suffix (rev s)) as [v E].
  exists (rev v). rewrite <- rev_app_distr, <- E, rev_involutive. reflexivity.
Qed.

Lemma trimEnd_idem s : trimEnd (trimEnd s) = trimEnd s.
Proof. unfold trimEnd. rewrite rev_involutive, trimStart_idem. reflexivity. Qed.

Lemma trimEnd_not_ws s : starts_ws s = false -> starts_ws (trimEnd s) = false.
Proof.
  intros H. destruct (trimEnd_prefix s) as [v E].
  destruct (trimEnd s) as [|c t]; auto. rewrite E in H. exact H.
Qed.

Lemma trim_not_ws s : starts_ws (trim s) = false.
Proof. apply trimEnd_not_ws, trimStart_not_ws. Qed.

(** A trimmed string is left as it is by [trim]. *)
Lemma trim_idem s : trim (trim s) = trim s.
Proof.
  unfold trim at 1. rewrite (trimStart_fix _ (trim_not_ws s)).
  unfold trim. apply trimEnd_idem.
Qed.



End StringFacts.

(** * Properties of the numbers *)

Module DoubleFacts.

Local Open Scope Z_scope.

(** *** Rounding to a significand of 53 bits *)

(** The significand [q] rounded with what is left, [r], against the half
    [h] of the unit: to the nearest, a tie to the even one. *)
Ltac case_ifs :=
  repeat match goal with
         | |- context [if ?b then _ else _] => destruct b eqn:?
         end.

Lemma pow2_double e : 1 <= e -> 2 ^ e = 2 * 2 ^ (e - 1).
Proof.
  intros H. replace e with (Z.succ (e - 1)) at 1 by lia.
  rewrite Z.pow_succ_r by lia. reflexivity.
Qed.

Lemma pow2_pos e : 0 <= e -> 1 <= 2 ^ e.
Proof. intros H. pose proof (Z.pow_pos_nonneg 2 e). lia. Qed.

Lemma pow2_split a b : 0 <= a -> 0 <= b -> 2 ^ (a + b) = 2 ^ a * 2 ^ b.
Proof. intros. apply Z.pow_add_r; assumption. Qed.

Lemma roundNat_small z : z < 2 ^ 53 -> roundNat z = z.
Proof.
  intros H. unfold roundNat. apply Z.ltb_lt in H. rewrite H. reflexivity.
Qed.

(** A number from 2^53 on is a significand of 53 bits times a power of
    two, and something below that power. *)
Lemma roundNat_decomp z :
  2 ^ 53 <= z ->
  exists e q r,
    1 <= e /\ z = q * 2 ^ e + r /\ 0 <= r < 2 ^ e /\ 2 ^ 52 <= q < 2 ^ 53 /\
    roundNat z
    = (if r <? 2 ^ (e - 1) then q
       else if 2 ^ (e - 1) <? r then q + 1
            else if Z.even q then q else q + 1) * 2 ^ e.
Proof.
  intros Hz. unfold roundNat.
  assert (Hnlt : (z <? 2 ^ 53) = false) by (apply Z.ltb_ge; exact Hz).
  rewrite Hnlt.
  assert (Hl : 53 <= Z.log2 z).
  { change 53 with (Z.log2 (2 ^ 53)). apply Z.log2_le_mono. exact Hz. }
  set (e := Z.log2 z - 52). assert (He : 1 <= e) by (unfold e; lia).
  pose proof (@pow2_pos e ltac:(lia)) as Hp.
  destruct (Z.log2_spec z ltac:(lia)) as [Hlo Hhi].
  replace (Z.log2 z) with (52 + e) in Hlo by (unfold e; lia).
  replace (Z.succ (Z.log2 z)) with (53 + e) in Hhi by (unfold e; lia).
  rewrite pow2_split in Hlo, Hhi by lia.
  exists e, (z / 2 ^ e), (z mod 2 ^ e).
  pose proof (Z.div_mod z (2 ^ e) ltac:(lia)) as Hdm.
  pose proof (Z.mod_pos_bound z (2 ^ e) ltac:(lia)) as Hr.
  split; [exact He|]. split; [lia|]. split; [exact Hr|]. split.
  - split.
    + apply Z.div_le_lower_bound; lia.
    + apply Z.div_lt_upper_bound; lia.
  - assert (Hh : 2 ^ e / 2 = 2 ^ (e - 1)).
    { rewrite (@pow2_double e He). rewrite Z.mul_comm.
      apply Z.div_mul. lia. }
    rewrite Hh. reflexivity.
Qed.

Lemma roundNat_compose e q r :
  1 <= e -> 0 <= r < 2 ^ e -> 2 ^ 52 <= q < 2 ^ 53 ->
  roundNat (q * 2 ^ e + r)
  = (if r <? 2 ^ (e - 1) then q
     else if 2 ^ (e - 1) <? r then q + 1
          else if Z.even q then q else q + 1) * 2 ^ e.
Proof.
  intros He Hr Hq.
  pose proof (@pow2_pos e ltac:(lia)) as Hp.
  pose proof (@pow2_double e He) as Hd.
  pose proof (@pow2_pos (e - 1) ltac:(lia)) as Hh.
  set (z := q * 2 ^ e + r).
  assert (Hz : 2 ^ 53 <= z) by (unfold z; nia).
  assert (Hlog : Z.log2 z = 52 + e).
  { apply Z.log2_unique; [lia|].
    replace (Z.succ (52 + e)) with (53 + e) by lia.
    rewrite !pow2_split by lia. unfold z. split; nia. }
  unfold roundNat.
  assert (Hnlt : (z <? 2 ^ 53) = false) by (apply Z.ltb_ge; exact Hz).
  rewrite Hnlt, Hlog. replace (52 + e - 52) with e by lia.
  assert (Hdiv : z / 2 ^ e = q).
  { symmetry. apply (Z.div_unique z (2 ^ e) q r); [lia|unfold z; lia]. }
  assert (Hmod : z mod 2 ^ e = r).
  { symmetry. apply (Z.mod_unique z (2 ^ e) q r); [lia|unfold z; lia]. }
  assert (Hhalf : 2 ^ e / 2 = 2 ^ (e - 1)).
  { rewrite Hd, Z.mul_comm. apply Z.div_mul. lia. }
  rewrite Hdiv, Hmod, Hhalf. reflexivity.
Qed.

Lemma roundNat_big z : 2 ^ 53 <= z -> 2 ^ 53 <= roundNat z.
Proof.
  intros Hz.
  destruct (@roundNat_decomp z Hz) as (e & q & r & He & _ & _ & Hq & ->).
  pose proof (@pow2_double e He) as Hd.
  pose proof (@pow2_pos (e - 1) ltac:(lia)) as Hh.
  destruct (r <? 2 ^ (e - 1)); [nia|].
  destruct (2 ^ (e - 1) <? r); [nia|].
  destruct (Z.even q); nia.
Qed.

Lemma roundNat_even z : 2 ^ 53 <= z -> exists k, roundNat z = 2 * k.
Proof.
  intros Hz.
  destruct (@roundNat_decomp z Hz) as (e & q & r & He & _ & _ & _ & ->).
  rewrite (@pow2_double e He).
  eexists. rewrite Z.mul_assoc, (Z.mul_comm _ 2), <- Z.mul_assoc.
  reflexivity.
Qed.

(** Rounding keeps the order. *)
Lemma roundNat_mono z1 z2 : z1 <= z2 -> roundNat z1 <= roundNat z2.
Proof.
  intros H.
  destruct (Z.lt_ge_cases z2 (2 ^ 53)) as [H2|H2].
  { rewrite !roundNat_small by lia. exact H. }
  destruct (Z.lt_ge_cases z1 (2 ^ 53)) as [H1|H1].
  { rewrite (@roundNat_small z1 H1). pose proof (@roundNat_big z2 H2). lia. }
  destruct (@roundNat_decomp z1 H1)
    as (e1 & q1 & r1 & He1 & E1 & Hr1 & Hq1 & ->).
  destruct (@roundNat_decomp z2 H2)
    as (e2 & q2 & r2 & He2 & E2 & Hr2 & Hq2 & ->).
  pose proof (@pow2_pos e1 ltac:(lia)) as Hp1.
  pose proof (@pow2_pos e2 ltac:(lia)) as Hp2.
  set (n1 := if r1 <? 2 ^ (e1 - 1) then q1
             else if 2 ^ (e1 - 1) <? r1 then q1 + 1
                  else if Z.even q1 then q1 else q1 + 1).
  set (n2 := if r2 <? 2 ^ (e2 - 1) then q2
             else if 2 ^ (e2 - 1) <? r2 then q2 + 1
                  else if Z.even q2 then q2 else q2 + 1).
  assert (B1 : q1 <= n1 <= q1 + 1).
  { unfold n1. case_ifs; lia. }
  assert (B2 : q2 <= n2 <= q2 + 1).
  { unfold n2. case_ifs; lia. }
  destruct (Z.lt_trichotomy e1 e2) as [Hlt|[Heq|Hgt]].
  - assert (Hpow : 2 * 2 ^ e1 <= 2 ^ e2).
    { replace e2 with ((e2 - e1 - 1) + (1 + e1)) by lia.
      rewrite pow2_split by lia. rewrite (@pow2_split 1 e1) by lia.
      pose proof (@pow2_pos (e2 - e1 - 1) ltac:(lia)).
      change (2 ^ 1) with 2. nia. }
    nia.
  - subst e2.
    assert (Hq : q1 <= q2) by nia.
    destruct (Z.eq_dec q1 q2) as [->|Hne].
    + assert (Hr : r1 <= r2) by lia.
      assert (Hn : n1 <= n2).
      { subst n1 n2.
        destruct (r1 <? 2 ^ (e1 - 1)) eqn:A1;
          destruct (r2 <? 2 ^ (e1 - 1)) eqn:A2;
          destruct (2 ^ (e1 - 1) <? r1) eqn:A3;
          destruct (2 ^ (e1 - 1) <? r2) eqn:A4;
          destruct (Z.even q2); lia. }
      nia.
    + nia.
  - exfalso.
    assert (Hpow : 2 * 2 ^ e2 <= 2 ^ e1).
    { replace e1 with ((e1 - e2 - 1) + (1 + e2)) by lia.
      rewrite pow2_split by lia. rewrite (@pow2_split 1 e2) by lia.
      pose proof (@pow2_pos (e1 - e2 - 1) ltac:(lia)).
      change (2 ^ 1) with 2. nia. }
    nia.
Qed.

(** *** One more than a number from 2^53 on *)

(** Adding one to a number that rounding gives leaves it as it is, or
    goes two further, once, when the significand is odd and the unit is
    two. *)
Lemma roundNat_succ z :
  2 ^ 53 <= z ->
  roundNat (roundNat z + 1) = roundNat z \/
  (roundNat (roundNat z + 1) = roundNat z + 2 /\
   roundNat z mod 4 = 2 /\
   roundNat (roundNat z + 2 + 1) = roundNat z + 2 /\
   roundNat z < 2 ^ 54).
Proof.
  intros Hz.
  destruct (@roundNat_decomp z Hz) as (e & q & r & He & _ & _ & Hq & ->).
  set (n := if r <? 2 ^ (e - 1) then q
            else if 2 ^ (e - 1) <? r then q + 1
                 else if Z.even q then q else q + 1).
  assert (Bn : q <= n <= q + 1) by (unfold n; case_ifs; lia).
  clearbody n.
  pose proof (@pow2_pos e ltac:(lia)) as Hp.
  pose proof (@pow2_double e He) as Hd.
  pose proof (@pow2_pos (e - 1) ltac:(lia)) as Hh.
  destruct (Z.eq_dec n (2 ^ 53)) as [->|Hn].
  - (* the significand has gone up to 2^53 *)
    left.
    assert (E : 2 ^ 53 * 2 ^ e + 1 = 2 ^ 52 * 2 ^ (e + 1) + 1).
    { rewrite (@pow2_double (e + 1)) by lia.
      replace (e + 1 - 1) with e by lia. lia. }
    rewrite E, roundNat_compose; [|lia| |lia].
    + replace (e + 1 - 1) with e by lia.
      assert (Hlt : (1 <? 2 ^ e) = true) by (apply Z.ltb_lt; lia).
      rewrite Hlt. rewrite (@pow2_double (e + 1)) by lia.
      replace (e + 1 - 1) with e by lia. lia.
    + pose proof (@pow2_pos (e + 1) ltac:(lia)).
      rewrite (@pow2_double (e + 1)) in * by lia.
      replace (e + 1 - 1) with e in * by lia. lia.
  - assert (Hn' : 2 ^ 52 <= n < 2 ^ 53) by lia.
    rewrite (@roundNat_compose e n 1 He ltac:(lia) Hn').
    destruct (Z.eq_dec e 1) as [->|He1].
    + change (2 ^ (1 - 1)) with 1. change (2 ^ 1) with 2.
      change (1 <? 1) with false. cbv iota.
      destruct (Z.even n) eqn:En; [left; reflexivity|right].
      assert (Ho : Z.odd n = true) by (rewrite <- Z.negb_even, En; reflexivity).
      apply Z.odd_spec in Ho. destruct Ho as [k Hk].
      split; [lia|]. split.
      * subst n. Z.to_euclidean_division_equations. lia.
      * split; [|lia].
        destruct (Z.eq_dec (n + 1) (2 ^ 53)) as [Htop|Htop].
        -- replace (n * 2 + 2 + 1) with (2 ^ 52 * 2 ^ 2 + 1) by lia.
           rewrite roundNat_compose; [|lia|change (2 ^ 2) with 4; lia|lia].
           change (2 ^ (2 - 1)) with 2. change (1 <? 2) with true.
           cbv iota. lia.
        -- replace (n * 2 + 2 + 1) with ((n + 1) * 2 ^ 1 + 1)
             by (change (2 ^ 1) with 2; lia).
           rewrite roundNat_compose;
             [|lia|change (2 ^ 1) with 2; lia|lia].
           change (2 ^ (1 - 1)) with 1. change (2 ^ 1) with 2.
           change (1 <? 1) with false. cbv iota.
           assert (Ee : Z.even (n + 1) = true).
           { apply Z.even_spec. exists (k + 1). lia. }
           rewrite Ee. lia.
    + left.
      assert (Hlt : (1 <? 2 ^ (e - 1)) = true).
      { apply Z.ltb_lt. rewrite (@pow2_double (e - 1)) by lia.
        pose proof (@pow2_pos (e - 1 - 1) ltac:(lia)). lia. }
      rewrite Hlt. reflexivity.
Qed.

(** Only itself is rounded to a number whose half is odd. *)
Lemma roundNat_odd_half z :
  2 ^ 53 <= z -> roundNat z mod 4 = 2 -> roundNat z = z.
Proof.
  intros Hz.
  destruct (@roundNat_decomp z Hz) as (e & q & r & He & Ez & Hr & Hq & ->).
  destruct (Z.eq_dec e 1) as [->|He1].
  - change (2 ^ (1 - 1)) with 1. change (2 ^ 1) with 2 in *.
    destruct (r <? 1) eqn:A; [intros _; apply Z.ltb_lt in A; lia|].
    destruct (1 <? r) eqn:B; [apply Z.ltb_lt in B; lia|].
    destruct (Z.even q) eqn:En.
    + apply Z.even_spec in En. destruct En as [k ->]. intros H. exfalso.
      revert H. Z.to_euclidean_division_equations. lia.
    + assert (Ho : Z.odd q = true) by (rewrite <- Z.negb_even, En; reflexivity).
      apply Z.odd_spec in Ho. destruct Ho as [k ->]. intros H. exfalso.
      revert H. Z.to_euclidean_division_equations. lia.
  - intros H. exfalso. revert H.
    rewrite (@pow2_double e He), (@pow2_double (e - 1)) by lia.
    set (n := if r <? _ then q else _). clearbody n.
    set (x := 2 ^ (e - 1 - 1)). clearbody x.
    Z.to_euclidean_division_equations. lia.
Qed.

(** *** The number of an integer *)

Lemma toNumber_small z : Z.abs z <= 2 ^ 53 -> toNumber z = Int z.
Proof.
  intros H. unfold toNumber.
  assert (E : roundNat (Z.abs z) = Z.abs z).
  { destruct (Z.eq_dec (Z.abs z) (2 ^ 53)) as [->|Hne]; [reflexivity|].
    apply roundNat_small. lia. }
  rewrite E.
  assert (Hb : (2 ^ 1024 <=? Z.abs z) = false).
  { apply Z.leb_gt. eapply Z.le_lt_trans; [exact H|]. reflexivity. }
  rewrite Hb. f_equal. lia.
Qed.

Lemma toNumber_natural z :
  0 <= z ->
  toNumber z = (if 2 ^ 1024 <=? roundNat z then Infinity false
                else Int (roundNat z)).
Proof.
  intros H. unfold toNumber. rewrite Z.abs_eq by exact H.
  destruct (2 ^ 1024 <=? roundNat z); [|f_equal].
  - f_equal. apply Z.ltb_ge. exact H.
  - destruct (Z.eq_dec z 0) as [->|Hz]; [reflexivity|].
    rewrite Z.sgn_pos by lia. lia.
Qed.

Lemma roundNat_nonneg z : 0 <= z -> 0 <= roundNat z.
Proof.
  intros H. destruct (Z.lt_ge_cases z (2 ^ 53)) as [Hs|Hb].
  - rewrite roundNat_small by exact Hs. exact H.
  - pose proof (@roundNat_big z Hb). lia.
Qed.

End DoubleFacts.

(** * Properties of the reference extractor *)

Module IssueAnalyzerFacts.

Import IssueAnalyzerService RegExpTerms IssueAnalyzerTerms RegExpFacts
       StringFacts DoubleFacts.

Lemma count_up_In n : forall a x,
  In x (count_up n a) <-> (a <= x < a + Z.of_nat n)%Z.
Proof.
  induction n as [|n IH]; intros a x.
  - simpl. lia.
  - cbn [count_up In]. rewrite IH. lia.
Qed.



(** The integers of an inclusive range, in increasing order. *)
Lemma range_In a b x : In x (range a b) <-> (a <= x <= b)%Z.
Proof. unfold range. rewrite count_up_In. lia. Qed.



Lemma range_single a : range a a = [a].
Proof.
  unfold range. replace (a - a + 1)%Z with 1%Z by lia. reflexivity.
Qed.

Lemma range_descending a b : (b < a)%Z -> range a b = [].
Proof.
  intros H. unfold range.
  replace (Z.to_nat (b - a + 1)) with 0 by lia. reflexivity.
Qed.

Lemma range_first a b : (a <= b)%Z -> range a b = a :: range (a + 1) b.
Proof.
  intros H. unfold range.
  replace (Z.to_nat (b - a + 1)) with (S (Z.to_nat (b - (a + 1) + 1))) by lia.
  reflexivity.
Qed.

(** *** The loop over the lines of a token *)

Lemma pushLines_done room i b acc :
  number_leb i b = false -> pushLines room i b acc = Some acc.
Proof. intros H. destruct room; cbn [pushLines]; rewrite H; reflexivity. Qed.

Lemma pushLines_step room i b acc :
  number_leb i b = true ->
  pushLines (S room) i b acc = pushLines room (number_succ i) b (acc ++ [i]).
Proof. intros H. cbn [pushLines]. rewrite H. reflexivity. Qed.

Lemma pushLines_full i b acc :
  number_leb i b = true -> pushLines 0 i b acc = None.
Proof. intros H. cbn [pushLines]. rewrite H. reflexivity. Qed.

(** A counter that [i + 1] leaves as it is fills the array. *)
Lemma pushLines_stuck i b :
  number_succ i = i -> number_leb i b = true ->
  forall room acc, pushLines room i b acc = None.
Proof.
  intros Hs Hle. induction room as [|room IH]; intros acc.
  - apply pushLines_full. exact Hle.
  - rewrite pushLines_step by exact Hle. rewrite Hs. apply IH.
Qed.

(** Below 2^53 the loop counts in steps of one: it lists the range when
    the array takes it, and throws otherwise. *)
Lemma pushLines_safe b :
  (b < 2 ^ 53)%Z ->
  forall room a acc,
    (0 <= a <= b + 1)%Z ->
    pushLines room (Int a) (Int b) acc
    = if (b - a + 1 <=? Z.of_nat room)%Z
      then Some (acc ++ map Int (range a b))
      else None.
Proof.
  intros Hb. induction room as [|room IH]; intros a acc Ha.
  - destruct (Z.eq_dec a (b + 1)) as [->|Hne].
    + rewrite pushLines_done by (cbn; apply Z.leb_gt; lia).
      replace (b - (b + 1) + 1 <=? Z.of_nat 0)%Z with true
        by (symmetry; apply Z.leb_le; lia).
      rewrite range_descending by lia. rewrite app_nil_r. reflexivity.
    + rewrite pushLines_full by (cbn; apply Z.leb_le; lia).
      replace (b - a + 1 <=? Z.of_nat 0)%Z with false
        by (symmetry; apply Z.leb_gt; lia).
      reflexivity.
  - destruct (Z.eq_dec a (b + 1)) as [->|Hne].
    + rewrite pushLines_done by (cbn; apply Z.leb_gt; lia).
      replace (b - (b + 1) + 1 <=? Z.of_nat (S room))%Z with true
        by (symmetry; apply Z.leb_le; lia).
      rewrite range_descending by lia. rewrite app_nil_r. reflexivity.
    + rewrite pushLines_step by (cbn; apply Z.leb_le; lia).
      cbn [number_succ]. rewrite toNumber_small by lia.
      rewrite IH by lia. rewrite (range_first a b) by lia.
      cbn [map]. rewrite <- app_assoc. cbn [app].
      destruct (Z.leb_spec (b - a + 1) (Z.of_nat (S room)));
        destruct (Z.leb_spec (b - (a + 1) + 1) (Z.of_nat room));
        try reflexivity; lia.
Qed.

(** A range that does not end below 2^53 is never listed: the counter
    comes to 2^53 and stays there. *)
Lemma pushLines_overflow b :
  number_leb (Int (2 ^ 53)) b = true ->
  forall room a acc,
    (0 <= a <= 2 ^ 53)%Z -> pushLines room (Int a) b acc = None.
Proof.
  intros Hb.
  assert (Hle : forall a, (a <= 2 ^ 53)%Z -> number_leb (Int a) b = true).
  { intros a Ha. destruct b as [|vb|[|]]; cbn in *; try discriminate; auto.
    apply Z.leb_le. apply Z.leb_le in Hb. lia. }
  induction room as [|room IH]; intros a acc Ha.
  - apply pushLines_full. apply Hle. lia.
  - rewrite pushLines_step by (apply Hle; lia).
    destruct (Z.eq_dec a (2 ^ 53)) as [->|Hne].
    + change (number_succ (Int (2 ^ 53))) with (Int (2 ^ 53)).
      apply IH. lia.
    + cbn [number_succ]. rewrite toNumber_small by lia. apply IH. lia.
Qed.

(** The lines of a token within the limits are listed. *)
Lemma lineRange_fits maxLength vs ve :
  (0 <= vs)%Z -> (0 <= ve)%Z -> safe_integer vs -> safe_integer ve ->
  (ve - vs < Z.of_nat maxLength)%Z ->
  lineRange maxLength (toNumber vs) (toNumber ve)
  = Some (map Int (range vs ve)).
Proof.
  unfold safe_integer. intros Hs He Ss Se Hroom. unfold lineRange.
  rewrite !toNumber_small by lia.
  destruct (Z.le_gt_cases vs (ve + 1)) as [Hle|Hgt].
  - rewrite pushLines_safe by lia.
    replace (ve - vs + 1 <=? Z.of_nat maxLength)%Z with true
      by (symmetry; apply Z.leb_le; lia).
    reflexivity.
  - rewrite pushLines_done by (cbn; apply Z.leb_gt; lia).
    rewrite range_descending by lia. reflexivity.
Qed.

Lemma toNumber_cases z :
  (0 <= z)%Z ->
  (toNumber z = Infinity false /\ (2 ^ 1024 <= roundNat z)%Z) \/
  (toNumber z = Int (roundNat z) /\ (roundNat z < 2 ^ 1024)%Z).
Proof.
  intros H. rewrite (@toNumber_natural z H).
  destruct (Z.leb_spec (2 ^ 1024) (roundNat z)); [left|right]; auto.
Qed.

(** Whenever the loop ends, what it has listed is the range between the
    values of the numerals, whatever their size: from 2^53 on it ends
    only on a range that is empty or holds one line. *)
Lemma lineRange_exact maxLength vs ve l :
  (0 <= vs)%Z -> (0 <= ve)%Z ->
  lineRange maxLength (toNumber vs) (toNumber ve) = Some l ->
  l = map Int (range vs ve).
Proof.
  intros Hs He. unfold lineRange.
  destruct (Z.lt_ge_cases vs (2 ^ 53)) as [Ss|Bs].
  - rewrite (@toNumber_small vs) by lia.
    destruct (Z.lt_ge_cases ve (2 ^ 53)) as [Se|Be].
    + rewrite (@toNumber_small ve) by lia.
      destruct (Z.le_gt_cases vs (ve + 1)) as [Hle|Hgt].
      * rewrite pushLines_safe by lia.
        destruct (ve - vs + 1 <=? Z.of_nat maxLength)%Z; [|discriminate].
        intros [= <-]. reflexivity.
      * rewrite pushLines_done by (cbn; apply Z.leb_gt; lia).
        intros [= <-]. rewrite range_descending by lia. reflexivity.
    + rewrite pushLines_overflow; [discriminate| |lia].
      pose proof (@roundNat_big ve Be) as Hb.
      destruct (@toNumber_cases ve He) as [[-> _]|[-> _]]; [reflexivity|].
      cbn. apply Z.leb_le. exact Hb.
  - pose proof (@roundNat_big vs Bs) as Hva.
    assert (Hdesc : (roundNat ve < roundNat vs)%Z -> range vs ve = []).
    { intros Hlt. apply range_descending.
      destruct (Z.lt_ge_cases ve vs) as [H|H]; [exact H|].
      pose proof (@roundNat_mono vs ve H). lia. }
    destruct (@toNumber_cases vs Hs) as [[-> Hinf]|[-> Hfin]].
    + (* the start is infinite *)
      destruct (@toNumber_cases ve He) as [[-> _]|[-> Hfe]].
      * rewrite pushLines_stuck by reflexivity. discriminate.
      * rewrite pushLines_done by reflexivity. intros [= <-].
        rewrite Hdesc by lia. reflexivity.
    + pose proof (@roundNat_succ vs Bs) as Hsucc.
      pose proof (@roundNat_odd_half vs Bs) as Hodd.
      set (va := roundNat vs) in *.
      assert (Hstuck : forall v b,
                 roundNat (v + 1) = v -> (0 <= v < 2 ^ 1024)%Z ->
                 number_leb (Int v) b = true ->
                 forall room acc, pushLines room (Int v) b acc = None).
      { intros v b Hv Hr Hle. apply pushLines_stuck; [|exact Hle].
        cbn [number_succ]. rewrite toNumber_natural by lia. rewrite Hv.
        replace (2 ^ 1024 <=? v)%Z with false
          by (symmetry; apply Z.leb_gt; lia).
        reflexivity. }
      destruct (number_leb (Int va) (toNumber ve)) eqn:Hle.
      * destruct Hsucc as [Hsame|(Hadv & Hmod & Hnext & Hsmall)].
        -- rewrite Hstuck by (auto; lia). discriminate.
        -- destruct maxLength as [|room];
             [rewrite pushLines_full by exact Hle; discriminate|].
           rewrite pushLines_step by exact Hle. cbn [number_succ app].
           rewrite (@toNumber_natural (va + 1)) by lia. rewrite Hadv.
           replace (2 ^ 1024 <=? va + 2)%Z with false
             by (symmetry; apply Z.leb_gt;
                 eapply Z.le_lt_trans with (m := (2 ^ 54 + 2)%Z);
                 [lia|reflexivity]).
           destruct (number_leb (Int (va + 2)) (toNumber ve)) eqn:Hle2.
           ++ rewrite Hstuck; [discriminate|exact Hnext| |exact Hle2].
              split; [lia|].
              eapply Z.le_lt_trans with (m := (2 ^ 54 + 2)%Z);
                [lia|reflexivity].
           ++ rewrite pushLines_done by exact Hle2. intros [= <-].
              assert (Evs : vs = va) by (symmetry; apply Hodd; exact Hmod).
              destruct (@toNumber_cases ve He) as [[Ee _]|[Ee Hfe]];
                rewrite Ee in Hle, Hle2; [discriminate Hle2|].
              cbn in Hle, Hle2. apply Z.leb_le in Hle.
              apply Z.leb_gt in Hle2.
              assert (Be : (2 ^ 53 <= ve)%Z).
              { destruct (Z.lt_ge_cases ve (2 ^ 53)) as [H|H]; [|exact H].
                rewrite (@roundNat_small ve H) in Hle. lia. }
              destruct (@roundNat_even ve Be) as [k Hk].
              assert (Eve : roundNat ve = va).
              { revert Hmod. Z.to_euclidean_division_equations. lia. }
              assert (Eve' : ve = va).
              { rewrite <- Eve. symmetry. apply roundNat_odd_half; [exact Be|].
                rewrite Eve. exact Hmod. }
              rewrite Evs, Eve', range_single. reflexivity.
      * rewrite pushLines_done by exact Hle. intros [= <-].
        rewrite Hdesc; [reflexivity|].
        destruct (@toNumber_cases ve He) as [[Ee _]|[Ee _]];
          rewrite Ee in Hle; [discriminate Hle|].
        cbn in Hle. apply Z.leb_gt in Hle. exact Hle.
Qed.

(** *** Tokens *)

Lemma numeral_of_read w :
  Forall (fun c => is_digit c = true) w -> 1 <= length w -> numeral w.
Proof. intros F L. split; auto. destruct w; simpl in L; [lia|discriminate]. Qed.

Lemma parseInt_numeral d : numeral d -> parseInt d = toNumber (value d).
Proof. intros [H1 H2]. apply parseInt_digits; auto. Qed.

Lemma value_nonneg d : (0 <= value d)%Z.
Proof. apply digits_acc_nonneg. lia. Qed.

Lemma pathPattern_reads : reads (fun c => is_pathc c = true) pathPattern.
Proof.
  simpl. repeat split; auto using alpha_is_pathc.
Qed.

Lemma digits_reads : reads (fun c => is_digit c = true) (Plus true (Cls is_digit)).
Proof. simpl. auto. Qed.

(** The text and the captures of one way [fileLinePattern] matches: a path,
    a colon, a numeral, and possibly a hyphen and a second numeral. *)
Lemma fileLine_shape st st' :
  In st' (run fileLinePattern st) ->
  exists p s, pathlike p /\ numeral s /\
    ((rest st = p ++ ":"%char :: s ++ rest st' /\
      caps st' = (2, s) :: (1, p) :: caps st) \/
     (exists e, numeral e /\
        rest st = p ++ ":"%char :: s ++ "-"%char :: e ++ rest st' /\
        caps st' = (3, e) :: (2, s) :: (1, p) :: caps st)).
Proof.
  unfold fileLinePattern, seqs. intros H.
  apply In_run_Seq in H. destruct H as [s1 [H1 H]].
  apply In_run_Seq in H. destruct H as [s2 [H2 H]].
  apply In_run_Seq in H. destruct H as [s3 [H3 H]].
  apply (run_group (fun c => is_pathc c = true)) in H1;
    [|reflexivity|exact pathPattern_reads].
  destruct H1 as [p [Ep [Cp [Fp Lp]]]].
  apply In_run_Chr in H2. destruct H2 as [E2 C2].
  apply (run_group (fun c => is_digit c = true)) in H3;
    [|reflexivity|exact digits_reads].
  destruct H3 as [s [Es [Cs [Fs Ls]]]].
  exists p, s. split; [split; auto|]. split; [apply numeral_of_read; auto|].
  apply In_run_Alt in H. destruct H as [H|H].
  - right. apply In_run_Seq in H. destruct H as [s4 [H4 H5]].
    apply In_run_Chr in H4. destruct H4 as [E4 C4].
    apply (run_group (fun c => is_digit c = true)) in H5;
      [|reflexivity|exact digits_reads].
    destruct H5 as [e [Ee [Ce [Fe Le]]]].
    exists e. split; [apply numeral_of_read; auto|]. split.
    + rewrite Ep, E2, Es, E4, Ee. reflexivity.
    + rewrite Ce, C4, Cs, C2, Cp. reflexivity.
  - left. simpl in H. destruct H as [<-|[]]. split.
    + rewrite Ep, E2, Es. reflexivity.
    + rewrite Cs, C2, Cp. reflexivity.
Qed.

Lemma fileLine_match text m :
  match_at fileLinePattern text m -> exists p s oe, token_of m p s oe.
Proof.
  intros [pre [st' [l [E0 [Erun [Epost Ecaps]]]]]].
  assert (Hin : In st' (run fileLinePattern (start (m_text m ++ m_post m))))
    by (rewrite Erun; left; reflexivity).
  apply fileLine_shape in Hin.
  destruct Hin as [p [s [Hp [Hs [[Er Ec]|[e [He [Er Ec]]]]]]]];
    simpl in Er, Ec; rewrite <- Epost in Er.
  - exists p, s, None. unfold token_of, group. rewrite Ecaps, Ec.
    repeat split; try apply Hp; try apply Hs.
    apply app_inv_tail with (l := m_post m).
    rewrite Er, <- !app_assoc. reflexivity.
  - exists p, s, (Some e). unfold token_of, group. rewrite Ecaps, Ec.
    repeat split; try apply Hp; try apply Hs; try apply He.
    apply app_inv_tail with (l := m_post m).
    rewrite Er, <- !app_assoc. simpl. rewrite <- !app_assoc. reflexivity.
Qed.

Lemma filename_nonempty p : filename p -> p <> [].
Proof.
  intros (q & ext & -> & Hq & _). intros H. apply app_eq_nil in H.
  destruct H; discriminate.
Qed.

(** *** The reference of a match *)

Lemma refOfMatch_caps maxLength m m' :
  m_caps m = m_caps m' -> refOfMatch maxLength m = refOfMatch maxLength m'.
Proof.
  intros E. unfold refOfMatch, group_or_empty, group. rewrite E. reflexivity.
Qed.

Lemma tokenRef_caps m m' : m_caps m = m_caps m' -> tokenRef m = tokenRef m'.
Proof.
  intros E. unfold tokenRef, group_or_empty, group. rewrite E. reflexivity.
Qed.

(** What the body of the loop does with a token: it reads the numerals
    as numbers and lists the lines between them. *)
Lemma refOfMatch_groups maxLength m p s oe :
  numeral s ->
  match oe with
  | Some e => numeral e
  | None => True
  end ->
  group m 1 = Some p -> group m 2 = Some s -> group m 3 = oe ->
  refOfMatch maxLength m
  = option_map (mkRef p)
               (lineRange maxLength (toNumber (value s))
                          (toNumber (end_value s oe))) /\
  tokenRef m = ref_of_token p s oe.
Proof.
  intros Hs He G1 G2 G3.
  unfold refOfMatch, tokenRef, ref_of_token, end_value, group_or_empty.
  rewrite G1, G2, G3, (@parseInt_numeral s Hs).
  destruct oe as [e|].
  - rewrite <- (@parseInt_numeral _ He).
    destruct e as [|c e]; [destruct He; congruence|].
    rewrite (@parseInt_numeral _ He).
    split; [|reflexivity].
    destruct (lineRange _ _ _); reflexivity.
  - split; [|reflexivity].
    destruct (lineRange _ _ _); reflexivity.
Qed.

Lemma token_caps_groups m p s oe :
  m_caps m = token_caps p s oe ->
  group m 1 = Some p /\ group m 2 = Some s /\ group m 3 = oe.
Proof.
  intros E. unfold group. rewrite E. destruct oe; repeat split; reflexivity.
Qed.

(** A reference that the loop registers for a token is the reference of
    the token, and a token within the limits is registered. *)
Lemma refOfMatch_exact maxLength m p s oe r :
  numeral s ->
  match oe with
  | Some e => numeral e
  | None => True
  end ->
  m_caps m = token_caps p s oe ->
  refOfMatch maxLength m = Some r -> r = ref_of_token p s oe.
Proof.
  intros Hs He Ec. destruct (token_caps_groups _ _ _ _ Ec) as (G1 & G2 & G3).
  destruct (refOfMatch_groups maxLength m p s oe Hs He G1 G2 G3) as [-> _].
  destruct (lineRange _ _ _) as [l|] eqn:E; [|discriminate].
  intros [= <-]. unfold ref_of_token. f_equal.
  apply (lineRange_exact maxLength); [apply value_nonneg| |exact E].
  unfold end_value. destruct oe; apply value_nonneg.
Qed.

Lemma refOfMatch_fits maxLength m p s oe :
  numeral s ->
  match oe with
  | Some e => numeral e
  | None => True
  end ->
  m_caps m = token_caps p s oe ->
  within_limits maxLength s oe ->
  refOfMatch maxLength m = Some (ref_of_token p s oe).
Proof.
  intros Hs He Ec (L1 & L2 & L3).
  destruct (token_caps_groups _ _ _ _ Ec) as (G1 & G2 & G3).
  destruct (refOfMatch_groups maxLength m p s oe Hs He G1 G2 G3) as [-> _].
  rewrite lineRange_fits; auto using value_nonneg.
  unfold end_value. destruct oe; apply value_nonneg.
Qed.

Lemma tokenRef_token m p s oe :
  numeral s ->
  match oe with
  | Some e => numeral e
  | None => True
  end ->
  m_caps m = token_caps p s oe -> tokenRef m = ref_of_token p s oe.
Proof.
  intros Hs He Ec. destruct (token_caps_groups _ _ _ _ Ec) as (G1 & G2 & G3).
  apply (refOfMatch_groups 0 m p s oe Hs He G1 G2 G3).
Qed.

(** *** Tokens in a text *)

(** Every pattern of a global loop or of a split reads at least one
    character, so the bounds on their rounds are never reached. *)
Lemma patterns_read :
  1 <= minlen fileLinePattern /\ 1 <= minlen codeBlockPattern /\
  1 <= minlen GeminiService.itemSeparator.
Proof. repeat split; simpl; lia. Qed.









Lemma fileLinePattern_reads :
  reads (fun c => is_pathc c = true \/ c = ":"%char) fileLinePattern.
Proof.
  simpl. repeat split; auto using alpha_is_pathc, digit_is_pathc.
Qed.

(** *** Matches within the text *)

Lemma exec_loop_within r : forall fuel s m,
  In m (exec_loop r fuel s) ->
  exists pre, s = pre ++ m_text m ++ m_post m /\
              match_here r (m_text m ++ m_post m) = Some m.
Proof.
  induction fuel as [|fuel IH]; intros s m H; [contradiction|].
  cbn [exec_loop] in H.
  destruct (search r s) as [[pre m0]|] eqn:E; [|contradiction].
  apply search_Some in E. destruct E as [Es Em].
  destruct H as [<-|H].
  - exists pre. auto.
  - destruct (IH _ _ H) as (pre' & Hp & Hm).
    exists (pre ++ m_text m0 ++ pre'). split; [|exact Hm].
    rewrite Es, Hp at 1. rewrite <- !app_assoc. reflexivity.
Qed.

Lemma execAll_within r s m :
  In m (execAll r s) ->
  exists pre, s = pre ++ m_text m ++ m_post m /\
              match_here r (m_text m ++ m_post m) = Some m.
Proof. apply exec_loop_within. Qed.

Lemma contains_middle (pre w post : str) : contains (pre ++ w ++ post) w.
Proof. exists pre, post. reflexivity. Qed.

Lemma contains_trans a b c : contains a b -> contains b c -> contains a c.
Proof.
  intros (u & v & ->) (u' & v' & ->). exists (u ++ u'), (v' ++ v).
  rewrite <- !app_assoc. reflexivity.
Qed.

(** *** Literals *)

Lemma lit_shape w : forall st st',
  In st' (run (lit w) st) -> rest st = w ++ rest st' /\ caps st' = caps st.
Proof.
  induction w as [|c w IH]; intros st st' H.
  - destruct H as [<-|[]]. auto.
  - destruct w as [|d w].
    + apply In_run_Chr in H. exact H.
    + change (lit (c :: d :: w)) with (Seq (Chr c) (lit (d :: w))) in H.
      apply In_run_Seq in H. destruct H as (mid & H1 & H2).
      apply In_run_Chr in H1. destruct H1 as [E1 C1].
      apply IH in H2. destruct H2 as [E2 C2].
      rewrite E1, E2, C2, C1. auto.
Qed.

Lemma lit_In w : forall t cs,
  In (MState t cs) (run (lit w) (MState (w ++ t) cs)).
Proof.
  induction w as [|c w IH]; intros t cs.
  - left. reflexivity.
  - destruct w as [|d w].
    + apply In_run_Chr. auto.
    + change (lit (c :: d :: w)) with (Seq (Chr c) (lit (d :: w))).
      apply In_run_Seq. exists (MState ((d :: w) ++ t) cs). split.
      * apply In_run_Chr. auto.
      * apply IH.
Qed.

(** *** The shape of a path *)

Lemma class_plus_reads (P : ascii -> Prop) g p :
  (forall x, p x = true -> P x) -> reads P (Plus g (Cls p)).
Proof. intros H. simpl. auto. Qed.

Lemma class_plus_shape g p st st' :
  In st' (run (Plus g (Cls p)) st) ->
  exists w, rest st = w ++ rest st' /\ w <> [] /\
            Forall (fun c => p c = true) w /\ caps st' = caps st.
Proof.
  intros H.
  pose proof (run_caps_nogroups (Plus g (Cls p)) eq_refl _ _ H) as Hc.
  apply (run_reads (fun c => p c = true) _
                   (class_plus_reads _ g p (fun x Hx => Hx))) in H.
  destruct H as (w & Hw & Hall & Hlen).
  exists w. split; [exact Hw|]. split; [|split; [exact Hall|exact Hc]].
  intros ->. simpl in Hlen. lia.
Qed.

Lemma class_star_shape g p st st' :
  In st' (run (Star g (Cls p)) st) ->
  exists w, rest st = w ++ rest st' /\
            Forall (fun c => p c = true) w /\ caps st' = caps st.
Proof.
  intros H.
  pose proof (run_caps_nogroups (Star g (Cls p)) eq_refl _ _ H) as Hc.
  assert (Hr : reads (fun c => p c = true) (Star g (Cls p)))
    by (simpl; auto).
  apply (run_reads (fun c => p c = true) _ Hr) in H.
  destruct H as (w & Hw & Hall & Hlen).
  exists w. auto.
Qed.

Lemma pathPattern_shape st st' :
  In st' (run pathPattern st) ->
  exists p, filename p /\ rest st = p ++ rest st' /\ caps st' = caps st.
Proof.
  unfold pathPattern, seqs. intros H.
  apply In_run_Seq in H. destruct H as (s1 & H1 & H).
  apply In_run_Seq in H. destruct H as (s2 & H2 & H3).
  apply class_plus_shape in H1. destruct H1 as (q & Eq & Nq & Fq & Cq).
  apply In_run_Chr in H2. destruct H2 as [E2 C2].
  apply class_plus_shape in H3. destruct H3 as (ext & Ee & Ne & Fe & Ce).
  exists (q ++ "."%char :: ext). split; [|split].
  - exists q, ext. auto.
  - rewrite Eq, E2, Ee, <- app_assoc. reflexivity.
  - congruence.
Qed.

Lemma path_group_shape i st st' :
  In st' (run (Group i pathPattern) st) ->
  exists p, filename p /\ rest st = p ++ rest st' /\
            caps st' = (i, p) :: caps st.
Proof.
  rewrite run_Group_eq. intros H. apply in_map_iff in H.
  destruct H as (s1 & <- & H1).
  apply pathPattern_shape in H1. destruct H1 as (p & Fp & Ep & Cp).
  exists p. cbn [rest caps]. split; [exact Fp|]. split; [exact Ep|].
  rewrite (consumed_app _ _ _ Ep), Cp. reflexivity.
Qed.

(** The path of a token has the shape of a file name. *)
Lemma fileLine_filename st st' :
  In st' (run fileLinePattern st) ->
  exists p s, filename p /\ numeral s /\
    ((rest st = p ++ ":"%char :: s ++ rest st' /\
      caps st' = (2, s) :: (1, p) :: caps st) \/
     (exists e, numeral e /\
        rest st = p ++ ":"%char :: s ++ "-"%char :: e ++ rest st' /\
        caps st' = (3, e) :: (2, s) :: (1, p) :: caps st)).
Proof.
  unfold fileLinePattern, seqs. intros H.
  apply In_run_Seq in H. destruct H as [s1 [H1 H]].
  apply In_run_Seq in H. destruct H as [s2 [H2 H]].
  apply In_run_Seq in H. destruct H as [s3 [H3 H]].
  apply path_group_shape in H1. destruct H1 as [p [Fp [Ep Cp]]].
  apply In_run_Chr in H2. destruct H2 as [E2 C2].
  apply (run_group (fun c => is_digit c = true)) in H3;
    [|reflexivity|exact digits_reads].
  destruct H3 as [s [Es [Cs [Fs Ls]]]].
  exists p, s. split; [exact Fp|]. split; [apply numeral_of_read; auto|].
  apply In_run_Alt in H. destruct H as [H|H].
  - right. apply In_run_Seq in H. destruct H as [s4 [H4 H5]].
    apply In_run_Chr in H4. destruct H4 as [E4 C4].
    apply (run_group (fun c => is_digit c = true)) in H5;
      [|reflexivity|exact digits_reads].
    destruct H5 as [e [Ee [Ce [Fe Le]]]].
    exists e. split; [apply numeral_of_read; auto|]. split.
    + rewrite Ep, E2, Es, E4, Ee. reflexivity.
    + rewrite Ce, C4, Cs, C2, Cp. reflexivity.
  - left. simpl in H. destruct H as [<-|[]]. split.
    + rewrite Ep, E2, Es. reflexivity.
    + rewrite Cs, C2, Cp. reflexivity.
Qed.

(** Every match of the scan of pass 1 is a token of the text whose path
    is a file name. *)
Lemma pass1_match_origin text m :
  In m (execAll fileLinePattern text) ->
  exists p s oe,
    filename p /\ numeral s /\
    match oe with
    | Some e => numeral e
    | None => True
    end /\
    m_text m = token_text p s oe /\ m_caps m = token_caps p s oe /\
    contains text (token_text p s oe).
Proof.
  intros H. apply execAll_within in H. destruct H as (pre & Ht & Hm).
  apply match_here_Some in Hm.
  destruct Hm as (st' & l & Hrun & _ & Hpost & Hcaps).
  assert (Hin : In st' (run fileLinePattern (start (m_text m ++ m_post m))))
    by (rewrite Hrun; left; reflexivity).
  apply fileLine_filename in Hin.
  destruct Hin as (p & s & Fp & Ns & [[Er Ec]|(e & Ne & Er & Ec)]);
    cbn [start rest caps] in Er, Ec; rewrite <- Hpost in Er.
  - exists p, s, None.
    assert (Et : m_text m = token_text p s None).
    { apply app_inv_tail with (l := m_post m). rewrite Er.
      unfold token_text. rewrite app_nil_r, <- app_assoc. reflexivity. }
    assert (Ecaps : m_caps m = token_caps p s None)
      by (rewrite Hcaps, Ec; reflexivity).
    split; [exact Fp|]. split; [exact Ns|]. split; [exact I|].
    split; [exact Et|]. split; [exact Ecaps|].
    rewrite Ht, Et. apply contains_middle.
  - exists p, s, (Some e).
    assert (Et : m_text m = token_text p s (Some e)).
    { apply app_inv_tail with (l := m_post m). rewrite Er.
      unfold token_text. rewrite <- app_assoc. cbn [app].
      rewrite <- app_assoc. reflexivity. }
    assert (Ecaps : m_caps m = token_caps p s (Some e))
      by (rewrite Hcaps, Ec; reflexivity).
    split; [exact Fp|]. split; [exact Ns|]. split; [exact Ne|].
    split; [exact Et|]. split; [exact Ecaps|].
    rewrite Ht, Et. apply contains_middle.
Qed.

(** *** Pass 1 *)

Lemma pass1_loop_acc maxLength ms : forall acc,
  pass1_loop maxLength ms acc = acc ++ pass1_loop maxLength ms [].
Proof.
  induction ms as [|m ms IH]; intros acc; cbn [pass1_loop].
  - rewrite app_nil_r. reflexivity.
  - destruct (refOfMatch maxLength m) as [r|].
    + rewrite IH, (IH ([] ++ [r])). rewrite <- app_assoc. reflexivity.
    + rewrite app_nil_r. reflexivity.
Qed.

Lemma pass1_loop_caps maxLength l : forall l' acc,
  map m_caps l = map m_caps l' ->
  pass1_loop maxLength l acc = pass1_loop maxLength l' acc.
Proof.
  induction l as [|m l IH]; intros [|m' l'] acc E; try discriminate; auto.
  cbn [map] in E. injection E as E1 E2. cbn [pass1_loop].
  rewrite (refOfMatch_caps maxLength m m' E1).
  destruct (refOfMatch maxLength m'); [apply IH; exact E2|reflexivity].
Qed.

(** What pass 1 registers is what its loop makes of a match. *)
Lemma pass1_loop_In maxLength ms r :
  In r (pass1_loop maxLength ms []) ->
  exists m, In m ms /\ refOfMatch maxLength m = Some r.
Proof.
  induction ms as [|m ms IH]; cbn [pass1_loop]; [contradiction|].
  destruct (refOfMatch maxLength m) as [r0|] eqn:E; [|contradiction].
  rewrite pass1_loop_acc. intros H. apply in_app_or in H.
  destruct H as [[<-|[]]|H].
  - exists m. split; [left; reflexivity|exact E].
  - destruct (IH H) as (m' & Hm' & E'). exists m'. split; [right|]; auto.
Qed.

(** While the loop does not throw it registers the reference of every
    match, in the order of the matches. *)
Lemma pass1_loop_app maxLength l1 l2 :
  Forall (fun m => refOfMatch maxLength m = Some (tokenRef m)) l1 ->
  pass1_loop maxLength (l1 ++ l2) []
  = map tokenRef l1 ++ pass1_loop maxLength l2 [].
Proof.
  induction l1 as [|m l1 IH]; intros H; [reflexivity|].
  inversion H as [|? ? Hm Hl]; subst. cbn [app pass1_loop map].
  rewrite Hm, pass1_loop_acc, (IH Hl). reflexivity.
Qed.

Lemma pass1_In maxLength text r :
  In r (pass1 maxLength text) ->
  exists m, In m (execAll fileLinePattern text) /\
            refOfMatch maxLength m = Some r.
Proof. apply pass1_loop_In. Qed.

(** A reference of pass 1 is the reference of a token of the text. *)
Lemma pass1_origin maxLength text r :
  In r (pass1 maxLength text) ->
  exists p s oe,
    filename p /\ numeral s /\
    match oe with
    | Some e => numeral e
    | None => True
    end /\
    contains text (token_text p s oe) /\ r = ref_of_token p s oe.
Proof.
  intros H. apply pass1_In in H. destruct H as (m & Hm & Hr).
  destruct (pass1_match_origin text m Hm)
    as (p & s & oe & Fp & Ns & Ne & _ & Ec & Hc).
  exists p, s, oe. repeat (split; [assumption|]).
  exact (refOfMatch_exact maxLength m p s oe r Ns Ne Ec Hr).
Qed.

(** In a text whose tokens are within the limits the loop does not
    throw. *)
Lemma tokens_complete maxLength text :
  tokens_within maxLength text ->
  Forall (fun m => refOfMatch maxLength m = Some (tokenRef m))
         (execAll fileLinePattern text).
Proof.
  intros H. apply Forall_forall. intros m Hm.
  destruct (pass1_match_origin text m Hm)
    as (p & s & oe & Fp & Ns & Ne & _ & Ec & Hc).
  rewrite (tokenRef_token m p s oe Ns Ne Ec).
  apply refOfMatch_fits; auto. apply (H p s oe); auto.
Qed.

Lemma pass1_complete maxLength text :
  tokens_within maxLength text ->
  pass1 maxLength text = map tokenRef (execAll fileLinePattern text).
Proof.
  intros H. unfold pass1.
  rewrite <- (app_nil_r (execAll fileLinePattern text)) at 1.
  rewrite (pass1_loop_app maxLength _ [] (@tokens_complete maxLength text H)).
  apply app_nil_r.
Qed.

(** A character that is neither a path character nor a colon separates
    the references of pass 1, when the loop does not throw in front of
    it. *)
Lemma pass1_barrier maxLength x c t :
  is_pathc c = false -> c <> ":"%char ->
  tokens_within maxLength x ->
  pass1 maxLength (x ++ c :: t) = pass1 maxLength x ++ pass1 maxLength t.
Proof.
  intros Hc Hcolon Hx. unfold pass1 at 1.
  rewrite (pass1_loop_caps maxLength _
             (execAll fileLinePattern x ++ execAll fileLinePattern t)).
  - rewrite (pass1_loop_app maxLength _ _ (@tokens_complete maxLength x Hx)).
    rewrite (@pass1_complete maxLength x Hx). reflexivity.
  - rewrite map_app.
    apply (execAll_barrier (fun c => is_pathc c = true \/ c = ":"%char)).
    + intros [H|H]; congruence.
    + reflexivity.
    + exact fileLinePattern_reads.
    + simpl. lia.
Qed.

(** *** Pass 2 *)

Lemma has_path_In refs p : has_path refs p = true <-> In p (map path refs).
Proof.
  unfold has_path. rewrite existsb_exists, in_map_iff. split.
  - intros [r [Hr E]]. apply str_eqb_eq in E. eauto.
  - intros [r [E Hr]]. exists r. split; auto. apply str_eqb_eq. auto.
Qed.

Lemma fold_addBlock ms : forall refs,
  exists added, fold_left addBlock ms refs = refs ++ added /\
                fresh_blocks refs added.
Proof.
  induction ms as [|m ms IH]; intros refs; simpl.
  - exists []. rewrite app_nil_r. repeat split; constructor.
  - unfold addBlock at 2. destruct (group_or_empty m 1) as [|c p] eqn:G; auto.
    destruct (has_path refs (c :: p)) eqn:Hp; auto.
    destruct (IH (refs ++ [mkRef (c :: p) []])) as [added [E [F N]]].
    exists (mkRef (c :: p) [] :: added). rewrite E, <- app_assoc. split; auto.
    assert (Hnew : ~ In (c :: p) (map path refs)).
    { rewrite <- has_path_In, Hp. discriminate. }
    split.
    + constructor; [simpl; repeat split; auto; discriminate|].
      eapply Forall_impl; [|exact F]. simpl. intros r [H1 [H2 H3]].
      repeat split; auto. intros H. apply H3.
      rewrite map_app. apply in_or_app. auto.
    + simpl. constructor; auto. intros H. apply in_map_iff in H.
      destruct H as [r [Er Hr]]. rewrite Forall_forall in F.
      destruct (F r Hr) as [_ [_ H3]]. apply H3. rewrite map_app.
      apply in_or_app. right. simpl. auto.
Qed.

Lemma extract_JStr maxLength text :
  extractFileReferences maxLength (JStr text)
  = pass2 (pass1 maxLength text) text.
Proof. destruct text; reflexivity. Qed.

Lemma extract_split maxLength text :
  exists added,
    extractFileReferences maxLength (JStr text)
    = pass1 maxLength text ++ added /\
    fresh_blocks (pass1 maxLength text) added.
Proof. rewrite extract_JStr. apply fold_addBlock. Qed.




(** *** Texts whose numerals are small *)

Lemma digits_acc_mono s : forall a b,
  (a <= b)%Z -> (digits_acc a s <= digits_acc b s)%Z.
Proof.
  induction s as [|c s IH]; intros a b H; cbn [digits_acc]; [exact H|].
  destruct (is_digit c); [apply IH; lia|exact H].
Qed.

Lemma digit_val_nonneg c : (0 <= digit_val c)%Z.
Proof. unfold digit_val. lia. Qed.

Lemma numerals_below_acc bound s : forall acc,
  (0 <= acc)%Z -> numerals_below_from bound acc s = true -> (acc < bound)%Z.
Proof.
  induction s as [|c s IH]; intros acc Ha H; cbn [numerals_below_from] in H.
  - apply Z.ltb_lt. exact H.
  - destruct (is_digit c).
    + pose proof (digit_val_nonneg c).
      assert (10 * acc + digit_val c < bound)%Z by (apply IH; [lia|exact H]).
      lia.
    + apply andb_prop in H. apply Z.ltb_lt. apply H.
Qed.

Lemma numerals_below_prefix bound s : forall acc y,
  s <> [] -> Forall (fun c => is_digit c = true) s -> (0 <= acc)%Z ->
  numerals_below_from bound acc (s ++ y) = true ->
  (digits_acc acc s < bound)%Z.
Proof.
  induction s as [|c s IH]; intros acc y Hne Hs Ha H; [congruence|].
  inversion Hs as [|? ? Hc Hs']; subst.
  cbn [app numerals_below_from] in H. rewrite Hc in H.
  cbn [digits_acc]. rewrite Hc.
  pose proof (digit_val_nonneg c).
  destruct s as [|d s].
  - cbn [digits_acc]. apply (numerals_below_acc bound y); [lia|exact H].
  - apply (IH _ y); [discriminate|exact Hs'|lia|exact H].
Qed.

(** Every numeral that occurs in such a text has a value below the
    bound. *)
Lemma numerals_below_sub bound s y : forall x acc,
  numeral s -> (0 <= acc)%Z ->
  numerals_below_from bound acc (x ++ s ++ y) = true ->
  (value s < bound)%Z.
Proof.
  intros x acc [Hne Hs]. revert acc.
  induction x as [|c x IH]; intros acc Ha H.
  - cbn [app] in H.
    pose proof (numerals_below_prefix bound s acc y Hne Hs Ha H).
    pose proof (digits_acc_mono s 0 acc Ha). unfold value. lia.
  - cbn [app numerals_below_from] in H. destruct (is_digit c).
    + pose proof (digit_val_nonneg c).
      apply (IH (10 * acc + digit_val c)%Z); [lia|exact H].
    + apply andb_prop in H. apply (IH 0%Z); [lia|apply H].
Qed.

Lemma token_numerals text p s oe :
  contains text (token_text p s oe) ->
  (exists x y, text = x ++ s ++ y) /\
  match oe with
  | Some e => exists x y, text = x ++ e ++ y
  | None => True
  end.
Proof.
  intros (u & v & ->). unfold token_text. split.
  - exists (u ++ p ++ [":"%char]),
           (match oe with
            | Some e => "-"%char :: e
            | None => []
            end ++ v).
    rewrite <- !app_assoc. cbn [app]. rewrite <- !app_assoc. reflexivity.
  - destruct oe as [e|]; [|exact I].
    exists (u ++ p ++ ":"%char :: s ++ ["-"%char]), v.
    rewrite <- !app_assoc. cbn [app]. rewrite <- !app_assoc. cbn [app].
    reflexivity.
Qed.

(** A text whose numerals are safe integers below the number of lines
    that an array takes has its tokens within the limits. *)
Lemma small_numerals_within bound maxLength text :
  (bound <= 2 ^ 53)%Z -> (bound <= Z.of_nat maxLength)%Z ->
  numerals_below bound text = true -> tokens_within maxLength text.
Proof.
  intros Hsafe Hcap H p s oe _ Hs He Hc.
  destruct (token_numerals text p s oe Hc) as [(x & y & Es) Hoe].
  assert (Vs : (value s < bound)%Z).
  { rewrite Es in H. apply (numerals_below_sub bound s y x 0%Z Hs); [lia|].
    exact H. }
  assert (Ve : (end_value s oe < bound)%Z).
  { destruct oe as [e|]; [|exact Vs].
    destruct Hoe as (x' & y' & Ee). rewrite Ee in H.
    apply (numerals_below_sub bound e y' x' 0%Z He); [lia|exact H]. }
  pose proof (value_nonneg s). unfold within_limits, safe_integer.
  repeat split; lia.
Qed.

(** So has a text without a hyphen whose numerals are safe integers,
    when an array takes one line. *)
Lemma single_lines_within maxLength text :
  0 < maxLength -> ~ In "-"%char text ->
  numerals_below (2 ^ 53) text = true -> tokens_within maxLength text.
Proof.
  intros Hcap Hh H p s oe _ Hs He Hc.
  destruct oe as [e|].
  - exfalso. apply Hh. destruct Hc as (u & v & ->). unfold token_text.
    apply in_or_app. right. apply in_or_app. left.
    apply in_or_app. right. right. apply in_or_app. right. left. reflexivity.
  - destruct (token_numerals text p s None Hc) as [(x & y & Es) _].
    assert (Vs : (value s < 2 ^ 53)%Z).
    { rewrite Es in H.
      apply (numerals_below_sub (2 ^ 53) s y x 0%Z Hs); [lia|exact H]. }
    unfold within_limits, safe_integer, end_value. repeat split; lia.
Qed.

End IssueAnalyzerFacts.

(** * Properties claimed of the reference extractor and the severity scan *)

Module IssueAnalyzerSpec.

Import IssueAnalyzerService RegExpTerms IssueAnalyzerTerms RegExpFacts
       StringFacts DoubleFacts IssueAnalyzerFacts.

(** The extraction of a text whose tokens are within the limits: pass 1
    registers the reference of every match, and pass 2 follows. *)
Lemma extract_complete maxLength text :
  tokens_within maxLength text ->
  extractFileReferences maxLength (JStr text)
  = pass2 (map tokenRef (execAll fileLinePattern text)) text.
Proof.
  intros H. rewrite extract_JStr, (@pass1_complete maxLength text H).
  reflexivity.
Qed.

Lemma a_js_twice maxLength :
  0 < maxLength ->
  extractFileReferences maxLength (JStr "a.js:1 a.js:2")
  = [mkRef "a.js" [Int 1]; mkRef "a.js" [Int 2]].
Proof.
  intros H. rewrite extract_complete; [vm_compute; reflexivity|].
  apply single_lines_within; [exact H| |vm_compute; reflexivity].
  vm_compute. intuition discriminate.
Qed.

(** C1.  The claim asks for pairwise distinct paths in the result.  Pass 2
    looks the path up before it appends; pass 1 appends without looking,
    so a path mentioned twice with a line number is returned twice,
    whatever the number of lines that an array takes, if it takes one. *)
Theorem pass1_duplicates_survive (maxLength : nat) :
  0 < maxLength ->
  extractFileReferences maxLength (JStr "a.js:1 a.js:2")
  = [mkRef "a.js" [Int 1]; mkRef "a.js" [Int 2]]
  /\ ~ NoDup (map path (extractFileReferences maxLength (JStr "a.js:1 a.js:2"))).
Proof.
  intros Hcap. pose proof (@a_js_twice maxLength Hcap) as E.
  split; [exact E|]. rewrite E. simpl. intros H.
  inversion H as [|x l Hnotin _]; subst. apply Hnotin. left. reflexivity.
Qed.

Lemma pass1_duplicates_survive_witness :
  0 < languageLimit /\
  (extractFileReferences languageLimit (JStr "a.js:1 a.js:2")
   = [mkRef "a.js" [Int 1]; mkRef "a.js" [Int 2]]
   /\ ~ NoDup (map path (extractFileReferences languageLimit
                           (JStr "a.js:1 a.js:2")))).
Proof.
  assert (H : 0 < languageLimit) by (unfold languageLimit; lia).
  split; [exact H|]. exact (@pass1_duplicates_survive languageLimit H).
Defined.


(** The example of C6 evaluated, with the number of lines that the
    language allows an array. *)
Lemma pass2_keeps_pass1_example :
  extractFileReferences languageLimit
    (JStr "a.js:7-8 ```js a.js\ncode``` ```js b.js\n```")
  = [mkRef "a.js" [Int 7; Int 8]; mkRef "b.js" []].
Proof. lazy. reflexivity. Qed.

(** Every reference of pass 1 has a path of at least three characters and
    line numbers that are integers and not negative. *)
Lemma pass1_wellformed maxLength text r :
  In r (pass1 maxLength text) ->
  path r <> [] /\
  Forall (fun n => exists z, n = Int z /\ (0 <= z)%Z) (lineNumbers r).
Proof.
  intros H. destruct (pass1_origin maxLength text r H)
    as (p & s & oe & Fp & Ns & _ & _ & ->).
  cbn [ref_of_token path lineNumbers]. split.
  - apply filename_nonempty. exact Fp.
  - apply Forall_forall. intros n Hn. apply in_map_iff in Hn.
    destruct Hn as (z & <- & Hz). exists z. split; [reflexivity|].
    apply range_In in Hz. pose proof (value_nonneg s). lia.
Qed.

Lemma line_zero maxLength :
  0 < maxLength ->
  extractFileReferences maxLength (JStr "file.js:0")
  = [mkRef "file.js" [Int 0]].
Proof.
  intros H. rewrite extract_complete; [vm_compute; reflexivity|].
  apply single_lines_within; [exact H| |vm_compute; reflexivity].
  vm_compute. intuition discriminate.
Qed.

(** C8, counterexample.  A line number of zero is registered as it is
    written. *)
Lemma line_zero_registered :
  extractFileReferences languageLimit (JStr "file.js:0")
  = [mkRef "file.js" [Int 0]]
  /\ ~ Forall (fun r => Forall (fun n => exists z, n = Int z /\ (0 < z)%Z)
                               (lineNumbers r))
              (extractFileReferences languageLimit (JStr "file.js:0")).
Proof.
  assert (E : extractFileReferences languageLimit (JStr "file.js:0")
              = [mkRef "file.js" [Int 0]])
    by (apply line_zero; unfold languageLimit; lia).
  split; [exact E|]. rewrite E. intros H.
  inversion H as [|x l Hx _]; subst. simpl in Hx.
  inversion Hx as [|y l' Hy _]; subst. destruct Hy as (z & [= <-] & Hz). lia.
Qed.

(** C8, as amended.  For every input, [null] included, and whatever the
    number of lines that an array takes, every reference returned has a
    non-empty path and every line number is an integer that is not
    negative. *)
Theorem references_wellformed (maxLength : nat) (issueBody : jsstring) :
  Forall (fun r => path r <> [] /\
                   Forall (fun n => exists z, n = Int z /\ (0 <= z)%Z)
                          (lineNumbers r))
         (extractFileReferences maxLength issueBody).
Proof.
  destruct issueBody as [|text]; [constructor|].
  destruct (extract_split maxLength text) as [added [E [F _]]]. rewrite E.
  apply Forall_app. split.
  - apply Forall_forall. intros r Hr. eapply pass1_wellformed; eauto.
  - eapply Forall_impl; [|exact F]. simpl. intros r [H1 [H2 _]].
    split; auto. rewrite H1. constructor.
Qed.

(** *** analyzeCode *)

Lemma hasUnsafe_spec code :
  hasUnsafe code = true <->
  contains code "eval(" \/ contains code "new Function(".
Proof.
  unfold hasUnsafe, contains. rewrite orb_true_iff, !includes_spec.
  reflexivity.
Qed.

Lemma contains_nonempty code sub : sub <> [] -> contains code sub -> code <> [].
Proof.
  intros Hs [u [v ->]] E. apply app_eq_nil in E. destruct E as [_ E].
  apply app_eq_nil in E. destruct E as [E _]. contradiction.
Qed.

Lemma analyzeCode_eq code :
  code <> [] ->
  analyzeCode (JStr code)
  = (if hasDebug code then [debugIssue] else [])
    ++ (if hasTodo code then [incompleteIssue] else [])
    ++ (if hasUnsafe code then [unsafeIssue] else [])
    ++ (if hasCredential code then [credentialIssue] else []).
Proof.
  intros H. destruct code; [congruence|]. unfold analyzeCode, pushIf.
  destruct (hasDebug _), (hasTodo _), (hasUnsafe _), (hasCredential _);
    reflexivity.
Qed.

Lemma In_if (b : bool) (x y : CodeIssue) :
  In x (if b then [y] else []) <-> b = true /\ y = x.
Proof. destruct b; simpl; intuition discriminate. Qed.

(** Closes a goal from a hypothesis that equates two of the four records. *)
Ltac no_alias H :=
  repeat match type of H with
         | _ \/ _ => destruct H as [H|H]; [vm_compute in H; discriminate|]
         end;
  try (vm_compute in H; discriminate); try contradiction.

Lemma issues_distinct (d t : bool) :
  NoDup ((if d then [debugIssue] else [])
         ++ (if t then [incompleteIssue] else [])
         ++ [unsafeIssue] ++ [credentialIssue]).
Proof.
  destruct d, t; simpl; repeat constructor; simpl; intros H; no_alias H.
Qed.

(** C9.  The four heuristics are tested one after the other and each one
    that fires appends its own record; a record is reported exactly when
    its heuristic fires, whatever the others do.  So a text that contains
    an unsafe evaluation and matches a credential pattern yields two
    different records of type [security]. *)
Theorem security_categories_independent (code : str) :
  contains code "eval(" \/ contains code "new Function(" ->
  hasCredential code = true ->
  let issues := analyzeCode (JStr code) in
  In unsafeIssue issues /\ In credentialIssue issues /\
  unsafeIssue <> credentialIssue /\
  type unsafeIssue = "security" /\ type credentialIssue = "security" /\
  NoDup issues /\
  (In debugIssue issues <-> hasDebug code = true) /\
  (In incompleteIssue issues <-> hasTodo code = true).
Proof.
  intros Hu Hc issues. subst issues.
  assert (Hne : code <> []).
  { destruct Hu as [Hu|Hu]; eapply contains_nonempty; eauto; discriminate. }
  apply hasUnsafe_spec in Hu. rewrite (analyzeCode_eq _ Hne), Hu, Hc.
  assert (D : unsafeIssue <> credentialIssue)
    by (intros H; vm_compute in H; discriminate).
  rewrite !in_app_iff, !In_if.
  split; [|split; [|split; [exact D|split; [reflexivity|split; [reflexivity|]]]]].
  - right. right. left. left. reflexivity.
  - right. right. right. left. reflexivity.
  - split; [apply issues_distinct|]. split; split.
    + intros [[H _]|[[_ H]|[H|H]]]; auto; simpl in H; no_alias H.
    + intros H. left. auto.
    + intros [[_ H]|[[H _]|[H|H]]]; auto; simpl in H; no_alias H.
    + intros H. right. left. auto.
Qed.

Lemma security_categories_independent_witness :
  let code : str := "eval(input); const password = 'hunter2';" in
  ((contains code "eval(" \/ contains code "new Function(") /\
   hasCredential code = true) /\
  let issues := analyzeCode (JStr code) in
  In unsafeIssue issues /\ In credentialIssue issues /\
  unsafeIssue <> credentialIssue /\
  type unsafeIssue = "security" /\ type credentialIssue = "security" /\
  NoDup issues /\
  (In debugIssue issues <-> hasDebug code = true) /\
  (In incompleteIssue issues <-> hasTodo code = true).
Proof.
  intros code.
  assert (H1 : contains code "eval(" \/ contains code "new Function(").
  { left. exists [], (js "input); const password = 'hunter2';"). reflexivity. }
  assert (H2 : hasCredential code = true) by (vm_compute; reflexivity).
  split; [exact (conj H1 H2)|].
  exact (security_categories_independent code H1 H2).
Defined.

(** The example of C9 evaluated. *)
Lemma security_categories_example :
  analyzeCode (JStr "eval(input); const password = 'hunter2';")
  = [unsafeIssue; credentialIssue].
Proof. vm_compute. reflexivity. Qed.



(** The examples of C5 evaluated, with the number of lines that the
    language allows an array. *)
Lemma token_range_examples :
  extractFileReferences languageLimit (JStr "a/b/file.js:10-12")
  = [mkRef "a/b/file.js" [Int 10; Int 11; Int 12]] /\
  extractFileReferences languageLimit (JStr "file.py:5")
  = [mkRef "file.py" [Int 5]].
Proof. split; lazy; reflexivity. Qed.

(** Outside the limits the loop of pass 1 throws, on the push that the
    array does not take, and pass 1 ends: a token in front of which a
    line number is not a safe integer is not registered. *)
Lemma token_after_unsafe_lost maxLength :
  extractFileReferences maxLength (JStr "a.js:9007199254740993 b.js:1") = [].
Proof.
  rewrite extract_JStr. unfold pass1.
  assert (E : map m_caps
                  (execAll fileLinePattern "a.js:9007199254740993 b.js:1")
              = [ [(2, js "9007199254740993"); (1, js "a.js")];
                  [(2, js "1"); (1, js "b.js")] ])
    by (vm_compute; reflexivity).
  rewrite (pass1_loop_caps maxLength _
             [RMatch [] [] [(2, js "9007199254740993"); (1, js "a.js")];
              RMatch [] [] [(2, js "1"); (1, js "b.js")]] [] E).
  cbn [pass1_loop].
  assert (Ethrow : refOfMatch maxLength
                     (RMatch [] [] [(2, js "9007199254740993");
                                    (1, js "a.js")]) = None).
  { unfold refOfMatch, lineRange.
    change (group_or_empty _ 3) with (@nil ascii).
    change (parseInt (group_or_empty _ 2)) with (Int 9007199254740992).
    cbv iota. rewrite pushLines_stuck; reflexivity. }
  rewrite Ethrow. vm_compute. reflexivity.
Qed.

(** Then a fenced code block annotated with the path of that token
    registers the path without line numbers: pass 1 has established
    none. *)
Lemma unsafe_line_then_fence maxLength :
  extractFileReferences maxLength
    (JStr "a.js:9007199254740993 ```js a.js\ncode```")
  = [mkRef "a.js" []].
Proof.
  rewrite extract_JStr. unfold pass1.
  assert (E : map m_caps
                  (execAll fileLinePattern
                           "a.js:9007199254740993 ```js a.js\ncode```")
              = [ [(2, js "9007199254740993"); (1, js "a.js")] ])
    by (vm_compute; reflexivity).
  rewrite (pass1_loop_caps maxLength _
             [RMatch [] [] [(2, js "9007199254740993"); (1, js "a.js")]]
             [] E).
  cbn [pass1_loop].
  assert (Ethrow : refOfMatch maxLength
                     (RMatch [] [] [(2, js "9007199254740993");
                                    (1, js "a.js")]) = None).
  { unfold refOfMatch, lineRange.
    change (group_or_empty _ 3) with (@nil ascii).
    change (parseInt (group_or_empty _ 2)) with (Int 9007199254740992).
    cbv iota. rewrite pushLines_stuck; reflexivity. }
  rewrite Ethrow. vm_compute. reflexivity.
Qed.



(** The example of C10 evaluated: nothing else is returned. *)
Lemma descending_range_example :
  extractFileReferences languageLimit (JStr "file.js:10-5")
  = [mkRef "file.js" []].
Proof. lazy. reflexivity. Qed.

End IssueAnalyzerSpec.

(** * Properties of the response structurer *)

Module GeminiFacts.

Import IssueAnalyzerService GeminiService RegExpTerms IssueAnalyzerTerms
       GeminiTerms RegExpFacts StringFacts IssueAnalyzerFacts.

Lemma split_str_nonempty sep s : forall skip cur_rev,
  split_str sep skip cur_rev s <> [].
Proof.
  induction s as [|c t IH]; intros skip cur_rev; simpl; [discriminate|].
  destruct skip; [|apply IH].
  destruct (prefixb sep (c :: t)); [discriminate|apply IH].
Qed.

(** On a string [parseAIResponse] always returns, and each field is
    computed on its own. *)
Lemma parse_fields aiResponse fileContents :
  parseAIResponse (JStr aiResponse) fileContents
  = Returns
      (mkSolution
         (match sectionText (str_match analysisPattern aiResponse) with
          | Some text => trim text
          | None => trim (firstParagraph aiResponse)
          end)
         (match sectionText (str_match solutionPattern aiResponse) with
          | Some text => trim text
          | None => []
          end)
         (map (snippetOfMatch fileContents) (execAll codeBlockRegex aiResponse))
         (match sectionText (str_match bestPracticesPattern aiResponse) with
          | Some text => splitPractices text
          | None => []
          end)).
Proof.
  unfold parseAIResponse, firstParagraph.
  destruct (sectionText (str_match analysisPattern aiResponse)); [reflexivity|].
  pose proof (split_str_nonempty "\n\n" aiResponse 0 []) as H.
  destruct (split_str "\n\n" 0 [] aiResponse); [congruence|reflexivity].
Qed.

Lemma matchesFile_spec annotation f :
  matchesFile annotation f = true <-> related annotation f.
Proof.
  unfold matchesFile, related, contains.
  rewrite orb_true_iff, !includes_spec. reflexivity.
Qed.

(** [find] returns the first element that satisfies the test. *)
Lemma find_first {A} (test : A -> bool) l before x after :
  l = before ++ x :: after -> test x = true ->
  (forall y, In y before -> test y = false) ->
  find test l = Some x.
Proof.
  intros -> Hx. induction before as [|y before IH]; intros Hb; simpl.
  - rewrite Hx. reflexivity.
  - rewrite (Hb y) by (left; reflexivity). apply IH.
    intros z Hz. apply Hb. right. exact Hz.
Qed.

Lemma find_none {A} (test : A -> bool) l :
  (forall y, In y l -> test y = false) -> find test l = None.
Proof.
  induction l as [|y l IH]; intros H; simpl; auto.
  rewrite (H y) by (left; reflexivity). apply IH. intros z Hz. apply H.
  right. exact Hz.
Qed.

Lemma not_related_false annotation g :
  ~ related annotation g -> matchesFile annotation g = false.
Proof.
  intros H. destruct (matchesFile annotation g) eqn:E; auto.
  apply matchesFile_spec in E. contradiction.
Qed.

Lemma snippet_resolved files m : resolved files m (snippetOfMatch (Some files) m).
Proof.
  unfold resolved, snippetOfMatch.
  destruct (group_or_empty m 1) as [|c a] eqn:G; repeat split;
    try congruence.
  - rewrite (find_first (matchesFile (c :: a)) files before f after); auto.
    + apply matchesFile_spec. assumption.
    + intros y Hy. apply not_related_false. auto.
  - rewrite (find_first (matchesFile (c :: a)) files before f after); auto.
    + apply matchesFile_spec. assumption.
    + intros y Hy. apply not_related_false. auto.
  - rewrite find_none; auto. intros y Hy. apply not_related_false. auto.
  - rewrite find_none; auto. intros y Hy. apply not_related_false. auto.
Qed.

(** *** Splitting the best practices *)

Lemma starts_ws_in s : starts_ws s = starts_in is_space s.
Proof. destruct s; reflexivity. Qed.








(** *** Sections that end the text *)

(** A section pattern matches only in front of a line break. *)
Lemma followedBy_line_break labels st st' :
  In st' (run (followedBy labels) st) -> exists t, rest st = LF :: t.
Proof.
  unfold followedBy. cbn [run].
  destruct (run (seqs [Chr LF; Star true (Cls is_space); alts labels]) st)
    as [|x l] eqn:E; [intros []|]. intros _.
  assert (Hx : In x (run (seqs [Chr LF; Star true (Cls is_space); alts labels]) st))
    by (rewrite E; left; reflexivity).
  cbn [seqs] in Hx. apply In_run_Seq in Hx. destruct Hx as [mid [Hc _]].
  apply In_run_Chr in Hc. destruct Hc as [Ec _]. eauto.
Qed.

Lemma section_needs_line_break label labels s :
  ~ In LF s ->
  str_match (seqs [label; sectionBody; followedBy labels]) s = None.
Proof.
  intros Hno. unfold str_match.
  destruct (search (seqs [label; sectionBody; followedBy labels]) s)
    as [[pre m]|] eqn:E; [|reflexivity].
  exfalso. apply search_match_at in E.
  destruct E as [pre' [st' [l [Es [Hrun _]]]]].
  assert (Hin : In st' (run (seqs [label; sectionBody; followedBy labels])
                            (start (m_text m ++ m_post m))))
    by (rewrite Hrun; left; reflexivity).
  cbn [seqs] in Hin.
  apply In_run_Seq in Hin. destruct Hin as [s1 [H1 Hin]].
  apply In_run_Seq in Hin. destruct Hin as [s2 [H2 H3]].
  apply followedBy_line_break in H3. destruct H3 as [t Et].
  destruct (run_suffix _ _ _ H1) as [w1 [E1 _]].
  destruct (run_suffix _ _ _ H2) as [w2 [E2 _]].
  simpl in E1. apply Hno. rewrite Es, E1, E2, Et.
  apply in_or_app. right. apply in_or_app. right. apply in_or_app. right.
  left. reflexivity.
Qed.

Lemma split_str_no_line_break s : forall cur_rev,
  ~ In LF s -> split_str "\n\n" 0 cur_rev s = [rev cur_rev ++ s].
Proof.
  induction s as [|c t IH]; intros cur_rev Hno.
  - simpl. rewrite app_nil_r. reflexivity.
  - cbn [split_str].
    assert (Hc : c <> LF) by (intros ->; apply Hno; left; reflexivity).
    assert (Hp : prefixb "\n\n" (c :: t) = false).
    { change (prefixb "\n\n" (c :: t))
        with (Ascii.eqb LF c && prefixb [LF] t).
      destruct (Ascii.eqb LF c) eqn:E; [|reflexivity].
      apply Ascii.eqb_eq in E. congruence. }
    rewrite Hp, IH.
    + simpl. rewrite <- app_assoc. reflexivity.
    + intros H. apply Hno. right. exact H.
Qed.




End GeminiFacts.

(** * Properties claimed of the response structurer *)

Module GeminiSpec.

Import IssueAnalyzerService GeminiService RegExpTerms IssueAnalyzerTerms
       GeminiTerms RegExpFacts StringFacts GeminiFacts.

(** C2, counterexample.  [parseAIResponse] calls a method of its first
    argument before anything else, which throws on [null]. *)
Lemma parse_null_throws :
  parseAIResponse JNull (Some []) = Throws
  /\ forall sol, parseAIResponse JNull (Some []) <> Returns sol.
Proof. split; [reflexivity|]. intros sol H. discriminate H. Qed.

(** C2, as amended.  [extractFileReferences] returns the empty sequence
    for [null] and for the empty string, whatever the number of lines
    that an array takes; on the empty string
    [parseAIResponse] returns the solution whose fields are all empty,
    and on every string it returns. *)
Theorem empty_input_defaults :
  (forall maxLength, extractFileReferences maxLength JNull = []) /\
  (forall maxLength, extractFileReferences maxLength (JStr []) = []) /\
  (forall fileContents,
      parseAIResponse (JStr []) fileContents
      = Returns (mkSolution [] [] [] [])) /\
  (forall rawText fileContents,
      exists sol, parseAIResponse (JStr rawText) fileContents = Returns sol).
Proof.
  repeat split. intros rawText fileContents. rewrite parse_fields. eauto.
Qed.

(** C4.  The analysis and the solution patterns end in a lookahead for a
    line break followed by the next label and have no alternative for the
    end of the input, while the best-practices pattern has one.  A
    labelled analysis that ends the text is therefore not captured: the
    fallback returns the first paragraph, label included; and a labelled
    solution that ends the text is dropped.  In particular no section of
    a text of one line is captured. *)
Theorem unterminated_section_lost (rawText : str)
        (files : option (list KnownFile)) :
  (~ In LF rawText ->
   exists snippets,
     parseAIResponse (JStr rawText) files
     = Returns (mkSolution (trim rawText) [] snippets [])) /\
  parseAIResponse (JStr "Analysis: The loop bound is off by one") files
  = Returns (mkSolution "Analysis: The loop bound is off by one" [] [] []) /\
  parseAIResponse (JStr "Analysis: Off by one\nSolution: Use a strict bound") files
  = Returns (mkSolution "Off by one" [] [] []) /\
  parseAIResponse (JStr "Prevention: Review loops\n") files
  = Returns (mkSolution "Prevention: Review loops" [] [] ["Review loops" : str]).
Proof.
  rewrite !parse_fields. split; [|repeat split; vm_compute; reflexivity].
  intros Hno. eexists. unfold analysisPattern, solutionPattern, bestPracticesPattern.
  rewrite !section_needs_line_break by exact Hno. cbn [sectionText].
  unfold firstParagraph. rewrite split_str_no_line_break by exact Hno.
  reflexivity.
Qed.

(** C7.  On a string the structurer returns, with one snippet per fenced
    block in the order of the blocks.  For a block with an annotation, the
    first known file, in the order given, whose path contains the
    annotation or is contained in it supplies [filePath] (its own path)
    and [originalCode] (its content); if there is none, [filePath] is the
    annotation and [originalCode] is empty; a block without annotation has
    both empty. *)
Theorem snippet_file_resolution (rawText : str) (files : list KnownFile) :
  (exists sol,
      parseAIResponse (JStr rawText) (Some files) = Returns sol /\
      Forall2 (resolved files) (execAll codeBlockRegex rawText)
              (codeSnippets sol)) /\
  parseAIResponse (JStr "Fix:\n\n```js src/app.js\nlet x = 1;\n```")
                  (Some [mkFile "README.md" "docs"; mkFile "src/app.js" "let x;"])
  = Returns (mkSolution "Fix:" [] [mkSnippet "src/app.js" "let x;" "let x = 1;" []] []).
Proof.
  split.
  - rewrite parse_fields. eexists. split; [reflexivity|]. simpl.
    induction (execAll codeBlockRegex rawText) as [|m ms IH]; simpl;
      constructor; auto using snippet_resolved.
  - rewrite parse_fields. vm_compute. reflexivity.
Qed.



End GeminiSpec.

(** * Texts cut at separators *)

Module TextFacts.

Import RegExpTerms ServiceTerms StringFacts.

Lemma split_str_skip sep w : forall cur t,
  split_str sep (length w) cur (w ++ t) = split_str sep 0 cur t.
Proof.
  induction w as [|c w IH]; intros cur t; simpl.
  - destruct t; reflexivity.
  - apply IH.
Qed.

Lemma prefixb_app p v : prefixb p (p ++ v) = true.
Proof. apply prefixb_spec. exists v. reflexivity. Qed.

Lemma includes_nil sep : sep <> [] -> includes [] sep = false.
Proof. destruct sep; [congruence|reflexivity]. Qed.

Lemma split_str_cut sep cur t :
  sep <> [] ->
  split_str sep 0 cur (sep ++ t) = rev cur :: split_str sep 0 [] t.
Proof.
  intros Hsep. destruct sep as [|c sep']; [congruence|].
  change ((c :: sep') ++ t) with (c :: (sep' ++ t)).
  cbn [split_str].
  change (c :: sep' ++ t) with ((c :: sep') ++ t).
  rewrite prefixb_app.
  replace (length (c :: sep') - 1) with (length sep') by (simpl; lia).
  rewrite split_str_skip. reflexivity.
Qed.

(** A split at a string cuts at the first occurrence of the separator and
    goes on behind it. *)
Lemma split_str_first sep :
  sep <> [] ->
  forall s cur,
    split_str sep 0 cur s
    = if includes s sep
      then (rev cur ++ before sep s) :: split_str sep 0 [] (after sep s)
      else [rev cur ++ s].
Proof.
  intros Hsep. induction s as [|c t IH]; intros cur.
  - rewrite includes_nil by assumption. simpl. rewrite app_nil_r. reflexivity.
  - cbn [includes before after].
    destruct (prefixb sep (c :: t)) eqn:Hp.
    + cbn [orb]. apply prefixb_spec in Hp. destruct Hp as [v Hv].
      rewrite Hv, split_str_cut by assumption.
      rewrite skipn_app, skipn_all, Nat.sub_diag. simpl.
      rewrite app_nil_r. reflexivity.
    + cbn [orb split_str]. rewrite Hp, IH.
      destruct (includes t sep); simpl; rewrite <- app_assoc; reflexivity.
Qed.

Lemma before_prefix sep s : exists v, s = before sep s ++ v.
Proof.
  induction s as [|c t [v IH]]; [exists []; reflexivity|].
  cbn [before]. destruct (prefixb sep (c :: t)).
  - exists (c :: t). reflexivity.
  - exists v. simpl. congruence.
Qed.

Lemma before_after sep s :
  includes s sep = true -> s = before sep s ++ sep ++ after sep s.
Proof.
  induction s as [|c t IH]; cbn [includes before after].
  - destruct sep; [reflexivity|discriminate].
  - destruct (prefixb sep (c :: t)) eqn:Hp.
    + intros _. apply prefixb_spec in Hp. destruct Hp as [v Hv].
      rewrite Hv at 1. rewrite Hv.
      rewrite skipn_app, skipn_all, Nat.sub_diag. reflexivity.
    + cbn [orb]. intros H. simpl. f_equal. apply IH, H.
Qed.

Lemma before_none sep s : includes s sep = false -> before sep s = s.
Proof.
  induction s as [|c t IH]; cbn [includes before]; [reflexivity|].
  destruct (prefixb sep (c :: t)); [discriminate|].
  cbn [orb]. intros H. f_equal. apply IH, H.
Qed.

Lemma split_str_hd sep s :
  sep <> [] -> hd [] (split_str sep 0 [] s) = before sep s.
Proof.
  intros Hsep. rewrite split_str_first by assumption.
  destruct (includes s sep) eqn:Hi; [reflexivity|].
  simpl. symmetry. apply before_none, Hi.
Qed.

Lemma split_str_length sep s :
  sep <> [] ->
  (length (split_str sep 0 [] s) <? 2) = negb (includes s sep).
Proof.
  intros Hsep. rewrite split_str_first by assumption.
  destruct (includes s sep); [|reflexivity].
  destruct (split_str sep 0 [] (after sep s)) eqn:E; [|reflexivity].
  exfalso. revert E. apply GeminiFacts.split_str_nonempty.
Qed.

Lemma split_str_second sep s :
  sep <> [] -> includes s sep = true ->
  nth 1 (split_str sep 0 [] s) [] = before sep (after sep s).
Proof.
  intros Hsep Hi. rewrite split_str_first, Hi by assumption.
  cbn [nth]. rewrite <- (split_str_hd sep) by assumption.
  destruct (split_str sep 0 [] (after sep s)); reflexivity.
Qed.

(** *** Cutting at a character *)

Lemma prefixb_char c s : prefixb [c] s = starts_in (Ascii.eqb c) s.
Proof. destruct s as [|x t]; [reflexivity|]. simpl. apply andb_true_r. Qed.

Lemma includes_char c s : includes s [c] = true <-> In c s.
Proof.
  induction s as [|x t IH]; cbn [includes]; [simpl; split; [discriminate|tauto]|].
  rewrite prefixb_char. cbn [starts_in]. rewrite orb_true_iff, IH, Ascii.eqb_eq.
  simpl. split; intros [H|H]; auto.
Qed.

Lemma before_char_free c s : ~ In c (before [c] s).
Proof.
  induction s as [|x t IH]; cbn [before]; [tauto|].
  rewrite prefixb_char. cbn [starts_in].
  destruct (Ascii.eqb c x) eqn:E; [tauto|].
  apply Ascii.eqb_neq in E. simpl. intros [H|H]; [congruence|tauto].
Qed.

Lemma before_char_skip c u t : ~ In c u -> before [c] (u ++ t) = u ++ before [c] t.
Proof.
  induction u as [|x u IH]; intros H; [reflexivity|].
  change ((x :: u) ++ t) with (x :: (u ++ t)). cbn [before].
  rewrite prefixb_char. cbn [starts_in].
  destruct (Ascii.eqb c x) eqn:E.
  - apply Ascii.eqb_eq in E. exfalso. apply H. left. congruence.
  - simpl. f_equal. apply IH. intros Hin. apply H. right. exact Hin.
Qed.

Lemma before_char_hit c t : before [c] (c :: t) = [].
Proof. cbn [before]. rewrite prefixb_char. simpl. rewrite Ascii.eqb_refl. reflexivity. Qed.

Lemma before_char_cut c u t : ~ In c u -> before [c] (u ++ c :: t) = u.
Proof.
  intros H. rewrite before_char_skip, before_char_hit, app_nil_r by assumption.
  reflexivity.
Qed.

Lemma before_char_all c u : ~ In c u -> before [c] u = u.
Proof.
  intros H. apply before_none. destruct (includes u [c]) eqn:E; [|reflexivity].
  apply includes_char in E. contradiction.
Qed.

Lemma after_char_cut c u t : ~ In c u -> after [c] (u ++ c :: t) = t.
Proof.
  induction u as [|x u IH]; intros H.
  - cbn [app after]. rewrite prefixb_char. simpl. rewrite Ascii.eqb_refl. reflexivity.
  - change ((x :: u) ++ c :: t) with (x :: (u ++ c :: t)). cbn [after].
    rewrite prefixb_char. cbn [starts_in].
    destruct (Ascii.eqb c x) eqn:E.
    + apply Ascii.eqb_eq in E. exfalso. apply H. left. congruence.
    + apply IH. intros Hin. apply H. right. exact Hin.
Qed.

Lemma In_prefix {A} (x : A) u v s : s = u ++ v -> In x u -> In x s.
Proof. intros -> H. apply in_or_app. left. exact H. Qed.

Lemma before_keeps_free c sep s : ~ In c s -> ~ In c (before sep s).
Proof.
  intros H Hin. destruct (before_prefix sep s) as [v Hv].
  apply H. eapply In_prefix; eassumption.
Qed.

(** *** The first occurrence of a separator *)

Lemma app_prefix_le {A} (x : list A) : forall a v b,
  x ++ v = a ++ b -> length x <= length a -> exists w, a = x ++ w.
Proof.
  induction x as [|c x IH]; intros a v b H Hl.
  - exists a. reflexivity.
  - destruct a as [|d a]; [simpl in Hl; lia|].
    simpl in H. injection H as -> H.
    destruct (IH a v b H) as [w ->]; [simpl in Hl; lia|].
    exists w. reflexivity.
Qed.

(** When the separator does not occur in the text [u] followed by all of
    the separator but its last character, its first occurrence in
    [u ++ sep ++ t] is the one behind [u]. *)
Lemma before_first sep u t :
  sep <> [] ->
  includes (u ++ removelast sep) sep = false ->
  before sep (u ++ sep ++ t) = u /\ after sep (u ++ sep ++ t) = t
  /\ includes (u ++ sep ++ t) sep = true.
Proof.
  intros Hsep. induction u as [|c u IH]; intros H.
  - cbn [app]. destruct sep as [|d sep']; [congruence|].
    change ((d :: sep') ++ t) with (d :: (sep' ++ t)).
    cbn [before after includes].
    change (d :: sep' ++ t) with ((d :: sep') ++ t).
    rewrite prefixb_app, skipn_app, skipn_all, Nat.sub_diag. auto.
  - change ((c :: u) ++ removelast sep) with (c :: (u ++ removelast sep)) in H.
    cbn [includes] in H. apply orb_false_iff in H. destruct H as [Hp Hi].
    change ((c :: u) ++ sep ++ t) with (c :: (u ++ sep ++ t)).
    cbn [before after includes].
    assert (Hq : prefixb sep (c :: u ++ sep ++ t) = false).
    { destruct (prefixb sep (c :: u ++ sep ++ t)) eqn:E; [|reflexivity].
      apply prefixb_spec in E. destruct E as [v Hv].
      assert (Hsplit : sep ++ t = removelast sep ++ (last sep c :: t)).
      { rewrite (app_removelast_last c Hsep) at 1.
        rewrite <- app_assoc. reflexivity. }
      rewrite Hsplit in Hv.
      change (c :: u ++ removelast sep ++ last sep c :: t)
        with ((c :: u) ++ removelast sep ++ last sep c :: t) in Hv.
      rewrite app_assoc in Hv. symmetry in Hv.
      apply app_prefix_le in Hv.
      - destruct Hv as [w Hw]. simpl in Hw.
        assert (prefixb sep (c :: u ++ removelast sep) = true)
          by (apply prefixb_spec; exists w; exact Hw).
        congruence.
      - rewrite length_app. simpl.
        assert (length sep = S (length (removelast sep))).
        { rewrite (app_removelast_last c Hsep) at 1.
          rewrite length_app. simpl. lia. }
        lia. }
    rewrite Hq. cbn [orb].
    destruct (IH Hi) as (Hb & Ha & Hin).
    rewrite Hb, Ha, Hin. auto.
Qed.

End TextFacts.

(** * Further properties of the reference extractor and the severity scan *)

Module ExtractionFacts.

Import IssueAnalyzerService RegExpTerms IssueAnalyzerTerms ServiceTerms
       RegExpFacts StringFacts DoubleFacts IssueAnalyzerFacts TextFacts.

(** *** Fenced blocks *)

Lemma opt_shape a st st' :
  In st' (run (Opt a) st) -> In st' (run a st) \/ st' = st.
Proof.
  unfold Opt. intros H. apply In_run_Alt in H. destruct H as [H|H]; [auto|].
  destruct H as [<-|[]]. auto.
Qed.

Lemma codeBlock_shape st st' :
  In st' (run codeBlockPattern st) ->
  exists lang ws annotation body,
    Forall (fun c => is_alpha c = true) lang /\
    Forall (fun c => is_space c = true) ws /\
    rest st = js "```" ++ lang ++ ws ++ annotation ++ body ++ js "```" ++ rest st' /\
    ((annotation = [] /\ caps st' = caps st) \/
     (filename annotation /\ caps st' = (1, annotation) :: caps st)).
Proof.
  unfold codeBlockPattern, seqs. intros H.
  apply In_run_Seq in H. destruct H as [s1 [H1 H]].
  apply In_run_Seq in H. destruct H as [s2 [H2 H]].
  apply In_run_Seq in H. destruct H as [s3 [H3 H]].
  apply In_run_Seq in H. destruct H as [s4 [H4 H]].
  apply In_run_Seq in H. destruct H as [s5 [H5 H6]].
  apply lit_shape in H1. destruct H1 as [E1 C1].
  apply lit_shape in H6. destruct H6 as [E6 C6].
  apply class_star_shape in H3. destruct H3 as (ws & E3 & F3 & C3).
  apply class_star_shape in H5. destruct H5 as (body & E5 & _ & C5).
  assert (Hlang : exists lang, rest s1 = lang ++ rest s2 /\
                               Forall (fun c => is_alpha c = true) lang /\
                               caps s2 = caps s1).
  { apply opt_shape in H2. destruct H2 as [H2| ->].
    - apply class_plus_shape in H2. destruct H2 as (lang & E2 & _ & F2 & C2).
      exists lang. auto.
    - exists []. auto. }
  destruct Hlang as (lang & E2 & F2 & C2).
  exists lang, ws.
  apply opt_shape in H4. destruct H4 as [H4| ->].
  - apply path_group_shape in H4. destruct H4 as (p & Fp & E4 & C4).
    exists p, body. split; [exact F2|]. split; [exact F3|]. split.
    + rewrite E1, E2, E3, E4, E5, E6. reflexivity.
    + right. split; [exact Fp|]. rewrite C6, C5, C4, C3, C2, C1. reflexivity.
  - exists [], body. split; [exact F2|]. split; [exact F3|]. split.
    + rewrite E1, E2, E3, E5, E6. reflexivity.
    + left. split; [reflexivity|]. rewrite C6, C5, C3, C2, C1. reflexivity.
Qed.

(** A fenced block found in a text: its header, with the annotation if
    there is one, its body and the fence that closes it. *)
Lemma codeBlock_match_origin text m :
  In m (execAll codeBlockPattern text) ->
  exists header body,
    fence_header (group_or_empty m 1) header /\
    m_text m = header ++ body ++ js "```" /\
    contains text (header ++ body ++ js "```") /\
    (group_or_empty m 1 = [] \/ filename (group_or_empty m 1)).
Proof.
  intros H. apply execAll_within in H. destruct H as (pre & Ht & Hm).
  apply match_here_Some in Hm.
  destruct Hm as (st' & l & Hrun & _ & Hpost & Hcaps).
  assert (Hin : In st' (run codeBlockPattern (start (m_text m ++ m_post m))))
    by (rewrite Hrun; left; reflexivity).
  apply codeBlock_shape in Hin.
  destruct Hin as (lang & ws & annotation & body & Fl & Fw & Er & Hc).
  cbn [start rest caps] in Er, Hc. rewrite <- Hpost in Er.
  assert (Hg : group_or_empty m 1 = annotation).
  { unfold group_or_empty, group. rewrite Hcaps.
    destruct Hc as [[-> ->]|[_ ->]]; reflexivity. }
  assert (Et : m_text m
               = (js "```" ++ lang ++ ws ++ annotation) ++ body ++ js "```").
  { apply app_inv_tail with (l := m_post m). rewrite Er.
    rewrite <- !app_assoc. reflexivity. }
  exists (js "```" ++ lang ++ ws ++ annotation), body.
  split; [|split; [|split]].
  - rewrite Hg. exists lang, ws. auto.
  - exact Et.
  - rewrite <- Et, Ht. apply contains_middle.
  - rewrite Hg. destruct Hc as [[-> _]|[Hf _]]; auto.
Qed.

(** *** Pass 2 *)

Lemma fold_addBlock_origin ms : forall refs r,
  In r (fold_left addBlock ms refs) ->
  In r refs \/
  exists m, In m ms /\ group_or_empty m 1 <> [] /\
            r = mkRef (group_or_empty m 1) [].
Proof.
  induction ms as [|m ms IH]; intros refs r H; [left; exact H|].
  cbn [fold_left] in H. apply IH in H. destruct H as [H|(m' & Hm' & Hg & Hr)].
  - unfold addBlock in H.
    destruct (group_or_empty m 1) as [|c p] eqn:G; [left; exact H|].
    destruct (has_path refs (c :: p)); [left; exact H|].
    apply in_app_or in H. destruct H as [H|[<-|[]]]; [left; exact H|].
    right. exists m. rewrite G. split; [left; reflexivity|].
    split; [discriminate|reflexivity].
  - right. exists m'. split; [right; exact Hm'|]. auto.
Qed.

Lemma fold_addBlock_keeps ms : forall refs r,
  In r refs -> In r (fold_left addBlock ms refs).
Proof.
  intros refs r H. destruct (fold_addBlock ms refs) as (added & -> & _).
  apply in_or_app. left. exact H.
Qed.

Lemma fold_addBlock_covers ms : forall refs m,
  In m ms -> group_or_empty m 1 <> [] ->
  In (group_or_empty m 1) (map path (fold_left addBlock ms refs)).
Proof.
  induction ms as [|m0 ms IH]; intros refs m H Hg; [contradiction|].
  cbn [fold_left]. destruct H as [->|H]; [|apply IH; assumption].
  assert (Hin : In (group_or_empty m 1) (map path (addBlock refs m))).
  { unfold addBlock. destruct (group_or_empty m 1) as [|c p] eqn:G;
      [congruence|].
    destruct (has_path refs (c :: p)) eqn:Hp.
    - apply has_path_In, Hp.
    - rewrite map_app. apply in_or_app. right. left. reflexivity. }
  apply in_map_iff in Hin. destruct Hin as (r & Er & Hr).
  apply in_map_iff. exists r. split; [exact Er|].
  apply fold_addBlock_keeps, Hr.
Qed.

(** *** Where the references come from *)

Lemma reference_origin maxLength text r :
  In r (extractFileReferences maxLength (JStr text)) ->
  filename (path r) /\ (from_token text r \/ from_fence text r).
Proof.
  rewrite extract_JStr. unfold pass2. intros H.
  apply fold_addBlock_origin in H. destruct H as [H|(m & Hm & Hg & ->)].
  - destruct (pass1_origin maxLength text r H)
      as (p & s & oe & Fp & Ns & Ne & Hc & ->).
    cbn [ref_of_token path]. split; [exact Fp|].
    left. exists s, oe. cbn [path]. auto.
  - destruct (codeBlock_match_origin text m Hm)
      as (header & body & Hh & _ & Hc & Hf).
    cbn [path]. split; [destruct Hf; [contradiction|assumption]|].
    right. split; [reflexivity|]. exists header, body. cbn [path]. auto.
Qed.

Lemma token_text_colon p s oe : In ":"%char (token_text p s oe).
Proof. unfold token_text. apply in_or_app. right. left. reflexivity. Qed.

Lemma In_contains (c : ascii) s w : contains s w -> In c w -> In c s.
Proof.
  intros (u & v & ->) H. apply in_or_app. right. apply in_or_app. left. exact H.
Qed.

Lemma no_fence_no_block text :
  ~ contains text "```" -> execAll codeBlockPattern text = [].
Proof.
  intros Hno. destruct (execAll codeBlockPattern text) as [|m ms] eqn:E;
    [reflexivity|].
  exfalso. apply Hno.
  destruct (codeBlock_match_origin text m) as (header & body & _ & _ & Hc & _);
    [rewrite E; left; reflexivity|].
  eapply contains_trans; [exact Hc|].
  exists (header ++ body), []. rewrite app_nil_r, <- app_assoc. reflexivity.
Qed.

Lemma extract_no_fence maxLength text :
  ~ contains text "```" ->
  extractFileReferences maxLength (JStr text) = pass1 maxLength text.
Proof.
  intros H. rewrite extract_JStr. unfold pass2.
  rewrite (no_fence_no_block text H). reflexivity.
Qed.

End ExtractionFacts.

Module CredentialFacts.

Import IssueAnalyzerService RegExpTerms IssueAnalyzerTerms ServiceTerms
       RegExpFacts StringFacts IssueAnalyzerFacts TextFacts ExtractionFacts.

(** *** Searching for a pattern that matches somewhere *)

Lemma search_complete r w v :
  run r (start (w ++ v)) <> [] -> forall u, search r (u ++ w ++ v) <> None.
Proof.
  intros Hrun. induction u as [|c u IH].
  - cbn [app]. unfold match_here in *.
    destruct (match_here r (w ++ v)) as [m|] eqn:E.
    + rewrite (search_here _ _ _ E). discriminate.
    + unfold match_here in E.
      destruct (run r (start (w ++ v))); [congruence|discriminate].
  - change ((c :: u) ++ w ++ v) with (c :: (u ++ w ++ v)). cbn [search].
    destruct (match_here r (c :: u ++ w ++ v)); [discriminate|].
    destruct (search r (u ++ w ++ v)) as [[pre m]|]; [discriminate|].
    congruence.
Qed.

(** A pattern is found in a text exactly when the text contains a word
    that the pattern reads. *)
Lemma test_language r (L : str -> Prop) :
  (forall st st', In st' (run r st) ->
                  exists w, L w /\ rest st = w ++ rest st') ->
  (forall w t, L w -> In (MState t []) (run r (MState (w ++ t) []))) ->
  forall s, test r s = true <-> exists w, L w /\ contains s w.
Proof.
  intros Hsound Hcomplete s. unfold test. split.
  - destruct (search r s) as [[pre m]|] eqn:E; [|discriminate]. intros _.
    apply search_Some in E. destruct E as [Es Em].
    apply match_here_Some in Em.
    destruct Em as (st' & l & Hrun & _ & Hpost & _).
    assert (Hin : In st' (run r (start (m_text m ++ m_post m))))
      by (rewrite Hrun; left; reflexivity).
    apply Hsound in Hin. destruct Hin as (w & Hw & Er).
    cbn [start rest] in Er. rewrite <- Hpost in Er.
    apply app_inv_tail in Er. subst w.
    exists (m_text m). split; [exact Hw|]. rewrite Es. apply contains_middle.
  - intros (w & Hw & (u & v & ->)).
    assert (Hrun : run r (start (w ++ v)) <> []).
    { intros E. pose proof (Hcomplete w v Hw) as Hin.
      unfold start in E. rewrite E in Hin. contradiction. }
    pose proof (search_complete r w v Hrun u) as Hs.
    destruct (search r (u ++ w ++ v)); [reflexivity|congruence].
Qed.

(** *** The assigned literal *)

Lemma class_shape p st st' :
  In st' (run (Cls p) st) ->
  exists c, rest st = c :: rest st' /\ p c = true /\ caps st' = caps st.
Proof. apply step_char_In. Qed.

Lemma class_In p c t cs :
  p c = true -> In (MState t cs) (run (Cls p) (MState (c :: t) cs)).
Proof. intros H. cbn [run]. unfold step_char. cbn [rest caps]. rewrite H. left. reflexivity. Qed.

Lemma assignedLiteral_shape st st' :
  In st' (run assignedLiteral st) ->
  exists t, assigned_literal t /\ rest st = t ++ rest st'.
Proof.
  unfold assignedLiteral, seqs. intros H.
  apply In_run_Seq in H. destruct H as [s1 [H1 H]].
  apply In_run_Seq in H. destruct H as [s2 [H2 H]].
  apply In_run_Seq in H. destruct H as [s3 [H3 H]].
  apply In_run_Seq in H. destruct H as [s4 [H4 H]].
  apply In_run_Seq in H. destruct H as [s5 [H5 H6]].
  apply class_star_shape in H1. destruct H1 as (ws1 & E1 & F1 & _).
  apply class_shape in H2. destruct H2 as (c & E2 & P2 & _).
  apply class_star_shape in H3. destruct H3 as (ws2 & E3 & F3 & _).
  apply class_plus_shape in H4. destruct H4 as (qs & E4 & N4 & F4 & _).
  apply class_plus_shape in H5. destruct H5 as (v & E5 & N5 & F5 & _).
  apply class_shape in H6. destruct H6 as (q & E6 & P6 & _).
  exists (ws1 ++ c :: ws2 ++ qs ++ v ++ [q]). split.
  - exists ws1, c, ws2, qs, v, q.
    split; [reflexivity|]. split; [exact F1|]. split; [exact P2|].
    split; [exact F3|]. split; [exact N4|]. split; [exact F4|].
    split; [exact N5|]. split; [|exact P6].
    eapply Forall_impl; [|exact F5]. intros x Hx.
    apply negb_true_iff in Hx. exact Hx.
  - rewrite E1, E2, E3, E4, E5, E6. rewrite <- !app_assoc. cbn [app].
    rewrite <- !app_assoc. reflexivity.
Qed.

Lemma assignedLiteral_In t after cs :
  assigned_literal t ->
  In (MState after cs) (run assignedLiteral (MState (t ++ after) cs)).
Proof.
  intros (ws1 & c & ws2 & qs & v & q & -> & F1 & P2 & F3 & N4 & F4 & N5 & F5 & P6).
  unfold assignedLiteral, seqs.
  replace ((ws1 ++ c :: ws2 ++ qs ++ v ++ [q]) ++ after)
    with (ws1 ++ c :: ws2 ++ qs ++ v ++ q :: after)
    by (rewrite <- !app_assoc; cbn [app]; rewrite <- !app_assoc; reflexivity).
  apply In_run_Seq. eexists. split; [apply star_class_In, F1|].
  apply In_run_Seq. eexists. split; [apply class_In, P2|].
  apply In_run_Seq. eexists. split; [apply star_class_In, F3|].
  apply In_run_Seq. eexists. split; [apply plus_class_In; [exact N4|exact F4]|].
  apply In_run_Seq. eexists. split.
  - apply plus_class_In; [exact N5|].
    eapply Forall_impl; [|exact F5]. intros x Hx.
    apply negb_true_iff. exact Hx.
  - apply class_In, P6.
Qed.

(** *** The five patterns *)

Lemma keyword_pattern kw code :
  test (Seq (lit kw) assignedLiteral) code = true <->
  exists w, (exists t, assigned_literal t /\ w = kw ++ t) /\ contains code w.
Proof.
  apply test_language.
  - intros st st' H. apply In_run_Seq in H. destruct H as (mid & H1 & H2).
    apply lit_shape in H1. destruct H1 as [E1 _].
    apply assignedLiteral_shape in H2. destruct H2 as (t & Ht & E2).
    exists (kw ++ t). split; [exists t; auto|].
    rewrite E1, E2, app_assoc. reflexivity.
  - intros w after (t & Ht & ->). apply In_run_Seq.
    exists (MState (t ++ after) []). split.
    + rewrite <- app_assoc. apply lit_In.
    + apply assignedLiteral_In, Ht.
Qed.

Lemma underscore_hyphen c :
  is_underscore_hyphen c = true <-> c = "_"%char \/ c = "-"%char.
Proof.
  unfold is_underscore_hyphen. rewrite orb_true_iff, !Ascii.eqb_eq. tauto.
Qed.

Lemma api_key_pattern code :
  test (seqs [lit "api"; Opt (Cls is_underscore_hyphen); lit "key";
              assignedLiteral]) code = true <->
  exists w,
    (exists j t, (j = [] \/ j = js "_" \/ j = js "-") /\ assigned_literal t /\
                 w = js "api" ++ j ++ js "key" ++ t) /\
    contains code w.
Proof.
  apply test_language.
  - unfold seqs. intros st st' H.
    apply In_run_Seq in H. destruct H as (s1 & H1 & H).
    apply In_run_Seq in H. destruct H as (s2 & H2 & H).
    apply In_run_Seq in H. destruct H as (s3 & H3 & H4).
    apply lit_shape in H1. destruct H1 as [E1 _].
    apply lit_shape in H3. destruct H3 as [E3 _].
    apply assignedLiteral_shape in H4. destruct H4 as (t & Ht & E4).
    assert (Hj : exists j, (j = [] \/ j = js "_" \/ j = js "-") /\
                           rest s1 = j ++ rest s2).
    { apply opt_shape in H2. destruct H2 as [H2| ->].
      - apply class_shape in H2. destruct H2 as (c & E2 & P2 & _).
        apply underscore_hyphen in P2. exists [c].
        split; [|exact E2]. destruct P2 as [->| ->]; auto.
      - exists []. auto. }
    destruct Hj as (j & Hj & E2).
    exists (js "api" ++ j ++ js "key" ++ t). split; [exists j, t; auto|].
    rewrite E1, E2, E3, E4. rewrite <- !app_assoc. reflexivity.
  - unfold seqs. intros w after (j & t & Hj & Ht & ->).
    replace ((js "api" ++ j ++ js "key" ++ t) ++ after)
      with (js "api" ++ j ++ js "key" ++ t ++ after)
      by (rewrite <- !app_assoc; reflexivity).
    apply In_run_Seq. eexists. split; [apply lit_In|].
    apply In_run_Seq. exists (MState (js "key" ++ t ++ after) []). split.
    + unfold Opt. apply In_run_Alt.
      destruct Hj as [->|[->| ->]].
      * right. left. reflexivity.
      * left. apply class_In. reflexivity.
      * left. apply class_In. reflexivity.
    + apply In_run_Seq. eexists. split; [apply lit_In|].
      apply assignedLiteral_In, Ht.
Qed.

(** The credential heuristic fires exactly on the texts that hold a
    keyword followed by an assigned literal. *)
Lemma hasCredential_iff code :
  hasCredential code = true <-> hardcoded_credential code.
Proof.
  unfold hasCredential, credentialPatterns. cbn [existsb].
  rewrite !orb_true_iff.
  rewrite !keyword_pattern, api_key_pattern.
  unfold hardcoded_credential, credential_keyword. split.
  - intros [H|[H|[H|[H|[H|H]]]]]; try discriminate.
    + destruct H as (w & (t & Ht & ->) & Hc). exists (js "password"), t. auto.
    + destruct H as (w & (j & t & Hj & Ht & ->) & Hc).
      destruct Hj as [->|[->| ->]].
      * exists (js "apikey"), t. split; [auto|]. split; [exact Ht|exact Hc].
      * exists (js "api_key"), t. split; [auto|]. split; [exact Ht|exact Hc].
      * exists (js "api-key"), t. split; [auto 6|]. split; [exact Ht|exact Hc].
    + destruct H as (w & (t & Ht & ->) & Hc). exists (js "secret"), t. auto 8.
    + destruct H as (w & (t & Ht & ->) & Hc). exists (js "token"), t. auto 8.
    + destruct H as (w & (t & Ht & ->) & Hc). exists (js "auth"), t. auto 9.
  - intros (kw & t & Hkw & Ht & Hc).
    destruct Hkw as [->|[->|[->|[->|[->|[->| ->]]]]]].
    + left. exists (js "password" ++ t). split; [exists t; auto|exact Hc].
    + right. left. exists (js "apikey" ++ t). split; [|exact Hc].
      exists [], t. auto.
    + right. left. exists (js "api_key" ++ t). split; [|exact Hc].
      exists (js "_"), t. auto.
    + right. left. exists (js "api-key" ++ t). split; [|exact Hc].
      exists (js "-"), t. auto.
    + right. right. left. exists (js "secret" ++ t). split; [exists t; auto|exact Hc].
    + right. right. right. left. exists (js "token" ++ t).
      split; [exists t; auto|exact Hc].
    + right. right. right. right. left. exists (js "auth" ++ t).
      split; [exists t; auto|exact Hc].
Qed.

End CredentialFacts.

Module FindingFacts.

Import IssueAnalyzerService RegExpTerms IssueAnalyzerTerms ServiceTerms.

(** *** The findings of one file *)

Lemma analyzeCode_sublist code : sublist CodeIssue (analyzeCode code) allFindings.
Proof.
  destruct code as [|[|c s]]; [exact I|exact I|].
  rewrite IssueAnalyzerSpec.analyzeCode_eq by discriminate.
  unfold allFindings.
  destruct (hasDebug (c :: s)), (hasTodo (c :: s)), (hasUnsafe (c :: s)),
    (hasCredential (c :: s)); simpl; tauto.
Qed.

Lemma sublist_length {A} (l : list A) : forall l',
  sublist A l l' -> length l <= length l'.
Proof.
  induction l as [|x t IH]; intros l' H; [simpl; lia|].
  induction l' as [|y t' IH']; [contradiction|].
  cbn [sublist] in H. destruct H as [[_ H]|H].
  - simpl. apply IH in H. lia.
  - apply IH' in H. simpl in *. lia.
Qed.

Lemma sublist_In {A} (l : list A) : forall l' x,
  sublist A l l' -> In x l -> In x l'.
Proof.
  induction l as [|a t IH]; intros l' x H Hin; [contradiction|].
  induction l' as [|y t' IH']; [contradiction|].
  cbn [sublist] in H. destruct H as [[-> H]|H].
  - destruct Hin as [->|Hin]; [left; reflexivity|right; eapply IH; eassumption].
  - right. apply IH'; assumption.
Qed.

Lemma sublist_NoDup {A} (l : list A) : forall l',
  sublist A l l' -> NoDup l' -> NoDup l.
Proof.
  induction l as [|a t IH]; intros l' H Hn; [constructor|].
  induction l' as [|y t' IH']; [contradiction|].
  cbn [sublist] in H. inversion Hn as [|? ? Hy Hn']; subst.
  destruct H as [[-> H]|H].
  - constructor; [|eapply IH; eassumption].
    intros Hin. apply Hy. eapply sublist_In; eassumption.
  - apply IH'; assumption.
Qed.

Lemma allFindings_NoDup : NoDup allFindings.
Proof.
  unfold allFindings.
  repeat (constructor;
          [simpl; intros H;
           repeat (destruct H as [H|H]; [vm_compute in H; discriminate|]);
           exact H|]).
  constructor.
Qed.

End FindingFacts.

Module AnalysisCodeFacts.

Import IssueAnalyzerService RegExpTerms IssueAnalyzerTerms ServiceTerms
       RegExpFacts StringFacts IssueAnalyzerFacts TextFacts ExtractionFacts
       CredentialFacts FindingFacts.

Lemma includes_contains s sub : includes s sub = true <-> contains s sub.
Proof. apply includes_spec. Qed.

Lemma hasDebug_iff code :
  hasDebug code = true <->
  contains code "console.log" \/ contains code "console.debug" \/
  contains code "console.error".
Proof.
  unfold hasDebug. rewrite !orb_true_iff, !includes_contains. tauto.
Qed.

Lemma hasTodo_iff code :
  hasTodo code = true <->
  contains code "TODO" \/ contains code "FIXME" \/ contains code "HACK" \/
  contains code "XXX".
Proof.
  unfold hasTodo. rewrite !orb_true_iff, !includes_contains. tauto.
Qed.

Lemma hasUnsafe_iff code :
  hasUnsafe code = true <->
  contains code "eval(" \/ contains code "new Function(".
Proof.
  unfold hasUnsafe. rewrite !orb_true_iff, !includes_contains. tauto.
Qed.

Lemma contains_nil_nonempty sub : sub <> [] -> ~ contains [] sub.
Proof.
  intros Hs (u & v & H). symmetry in H. apply app_eq_nil in H.
  destruct H as [_ H]. apply app_eq_nil in H. destruct H. contradiction.
Qed.

Lemma condition_nonempty i code : condition i code -> code <> [].
Proof.
  intros H ->. unfold condition in H.
  repeat match goal with
         | H : _ \/ _ |- _ => destruct H as [H|H]
         | H : _ /\ _ |- _ => destruct H as [_ H]
         end;
    try (revert H; apply contains_nil_nonempty; discriminate).
  destruct H as (kw & t & Hkw & _ & Hc).
  revert Hc. apply contains_nil_nonempty.
  unfold credential_keyword in Hkw.
  repeat (destruct Hkw as [->|Hkw]; [discriminate|]). subst. discriminate.
Qed.

(** A finding is reported exactly when its condition holds. *)
Lemma findings_iff code i :
  In i (analyzeCode (JStr code)) <-> condition i code.
Proof.
  destruct code as [|c s].
  - split; [contradiction|]. intros H. apply condition_nonempty in H.
    congruence.
  - rewrite IssueAnalyzerSpec.analyzeCode_eq by discriminate.
    rewrite !in_app_iff, !IssueAnalyzerSpec.In_if.
    rewrite hasDebug_iff, hasTodo_iff, hasUnsafe_iff, hasCredential_iff.
    unfold condition. intuition congruence.
Qed.

Lemma condition_monotone i code code' :
  contains code' code -> condition i code -> condition i code'.
Proof.
  intros Hc H. unfold condition in *.
  assert (Hsub : forall sub, contains code sub -> contains code' sub)
    by (intros sub; apply contains_trans, Hc).
  destruct H as [[E H]|[[E H]|[[E H]|[E H]]]].
  - left. split; [exact E|]. intuition.
  - right. left. split; [exact E|]. intuition.
  - right. right. left. split; [exact E|]. intuition.
  - right. right. right. split; [exact E|].
    destruct H as (kw & t & Hkw & Ht & Hin). exists kw, t. auto.
Qed.

End AnalysisCodeFacts.

Module IssueAnalyzerProperties.

Import IssueAnalyzerService RegExpTerms IssueAnalyzerTerms ServiceTerms
       RegExpFacts StringFacts IssueAnalyzerFacts TextFacts ExtractionFacts
       CredentialFacts FindingFacts AnalysisCodeFacts.

(** X1.  Every reference returned for a text comes from the text: its
    path has the shape of a file name (path characters, a dot, letters)
    and it is either the reference of a token [path:line] or
    [path:start-end] that the text contains, or a reference without line
    numbers whose path annotates the header of a fenced block that the
    text contains and closes.  This holds whatever the number of lines
    that an array takes, and whatever the size of the numerals. *)
Theorem references_come_from_text (maxLength : nat) (text : str) :
  Forall (fun r => filename (path r) /\ (from_token text r \/ from_fence text r))
         (extractFileReferences maxLength (JStr text)).
Proof. apply Forall_forall. intros r. apply reference_origin. Qed.

(** X2.  A text without a colon and without a fence of three backticks
    yields no reference at all, whatever file names it mentions. *)
Theorem no_reference_without_marks (maxLength : nat) (text : str) :
  ~ In ":"%char text -> ~ contains text "```" ->
  extractFileReferences maxLength (JStr text) = [].
Proof.
  intros Hcolon Hfence.
  destruct (extractFileReferences maxLength (JStr text)) as [|r l] eqn:E;
    [reflexivity|].
  exfalso.
  destruct (reference_origin maxLength text r) as [_ [H|H]];
    [rewrite E; left; reflexivity| |].
  - destruct H as (s & oe & _ & _ & Hc & _). apply Hcolon.
    eapply In_contains; [exact Hc|]. apply token_text_colon.
  - destruct H as (_ & header & body & (lang & ws & -> & _) & Hc).
    apply Hfence. eapply contains_trans; [exact Hc|].
    exists [], (lang ++ ws ++ path r ++ body ++ js "```").
    cbn [app]. rewrite <- !app_assoc. reflexivity.
Qed.

Lemma no_reference_without_marks_witness :
  (~ In ":"%char (js "see src/app.js, line 10") /\
   ~ contains "see src/app.js, line 10" "```") /\
  extractFileReferences languageLimit (JStr "see src/app.js, line 10") = [].
Proof.
  assert (H1 : ~ In ":"%char (js "see src/app.js, line 10")).
  { intros H. vm_compute in H.
    repeat (destruct H as [H|H]; [discriminate|]). exact H. }
  assert (H2 : ~ contains "see src/app.js, line 10" "```").
  { intros H. apply includes_spec in H. vm_compute in H. discriminate. }
  split; [exact (conj H1 H2)|].
  exact (no_reference_without_marks languageLimit "see src/app.js, line 10"
                                    H1 H2).
Defined.

(** X3.  In a text without fences, a character that is neither a path
    character nor a colon (a space or a line break, for instance)
    separates the extraction: the references of the whole text are those
    of the part before it followed by those of the part after it, when
    the tokens of the part before it are within the limits (otherwise
    pass 1 ends in that part and what follows is not read). *)
Theorem references_of_parts (maxLength : nat) (x : str) (c : ascii)
        (t : str) :
  is_pathc c = false -> c <> ":"%char -> ~ contains (x ++ c :: t) "```" ->
  tokens_within maxLength x ->
  extractFileReferences maxLength (JStr (x ++ c :: t))
  = extractFileReferences maxLength (JStr x)
    ++ extractFileReferences maxLength (JStr t).
Proof.
  intros Hc Hcolon Hfence Hlim.
  assert (Hx : ~ contains x "```").
  { intros H. apply Hfence. eapply contains_trans; [|exact H].
    exists [], (c :: t). reflexivity. }
  assert (Ht : ~ contains t "```").
  { intros H. apply Hfence. eapply contains_trans; [|exact H].
    exists (x ++ [c]), []. rewrite app_nil_r, <- app_assoc. reflexivity. }
  rewrite !extract_no_fence by assumption.
  apply pass1_barrier; assumption.
Qed.

Lemma references_of_parts_witness :
  (is_pathc " " = false /\ " "%char <> ":"%char /\
   ~ contains (js "a.js:1-2" ++ " "%char :: js "b.py:7") "```" /\
   tokens_within languageLimit "a.js:1-2") /\
  extractFileReferences languageLimit
    (JStr (js "a.js:1-2" ++ " "%char :: js "b.py:7"))
  = extractFileReferences languageLimit (JStr "a.js:1-2")
    ++ extractFileReferences languageLimit (JStr "b.py:7").
Proof.
  assert (H1 : is_pathc " " = false) by reflexivity.
  assert (H2 : " "%char <> ":"%char) by discriminate.
  assert (H3 : ~ contains (js "a.js:1-2" ++ " "%char :: js "b.py:7") "```").
  { intros H. apply includes_spec in H. vm_compute in H. discriminate. }
  assert (H4 : tokens_within languageLimit "a.js:1-2").
  { apply (small_numerals_within 1000);
      [lia|unfold languageLimit; lia|vm_compute; reflexivity]. }
  split; [exact (conj H1 (conj H2 (conj H3 H4)))|].
  exact (references_of_parts languageLimit "a.js:1-2" " " "b.py:7"
                             H1 H2 H3 H4).
Defined.

(** X4.  A finding is reported for a code exactly when its condition
    holds: the debugging finding when the code contains [console.log],
    [console.debug] or [console.error]; the incomplete finding when it
    contains [TODO], [FIXME], [HACK] or [XXX]; the unsafe-execution
    finding when it contains [eval(] or [new Function(]; the credential
    finding when it contains one of the words password, apikey, api_key,
    api-key, secret, token or auth (in lower case) followed by optional
    white space, a colon or an equals sign, optional white space, one or
    more quotes, one or more characters that are no quotes, and a quote. *)
Theorem findings_conditions (code : str) (i : CodeIssue) :
  In i (analyzeCode (JStr code)) <-> condition i code.
Proof. apply findings_iff. Qed.

(** X5.  Text added around a code never removes a finding: the findings
    of a code are findings of every text that contains it. *)
Theorem findings_monotone (code code' : str) :
  contains code' code ->
  incl (analyzeCode (JStr code)) (analyzeCode (JStr code')).
Proof.
  intros Hc i Hi. apply findings_iff. apply findings_iff in Hi.
  eapply condition_monotone; eassumption.
Qed.

Lemma findings_monotone_witness :
  contains "if (debug) { eval(src); } // TODO" "eval(src)" /\
  incl (analyzeCode (JStr "eval(src)"))
       (analyzeCode (JStr "if (debug) { eval(src); } // TODO")).
Proof.
  assert (H : contains "if (debug) { eval(src); } // TODO" "eval(src)")
    by (apply includes_spec; reflexivity).
  split; [exact H|].
  exact (findings_monotone "eval(src)" "if (debug) { eval(src); } // TODO" H).
Defined.

(** X6.  The result of [analyzeCode] is the list of the four findings in
    the order debugging, incomplete, unsafe execution, credentials, with
    some of them left out: at most four findings and none twice.  It is
    empty for [null] and for the empty string. *)
Theorem findings_ordered (code : jsstring) :
  sublist CodeIssue (analyzeCode code) allFindings /\
  NoDup (analyzeCode code) /\ length (analyzeCode code) <= 4 /\
  analyzeCode JNull = [] /\ analyzeCode (JStr []) = [].
Proof.
  pose proof (analyzeCode_sublist code) as H.
  split; [exact H|]. split; [|split; [|split; reflexivity]].
  - eapply sublist_NoDup; [exact H|apply allFindings_NoDup].
  - apply sublist_length in H. exact H.
Qed.

End IssueAnalyzerProperties.

Module EnhancementFacts.

Import IssueAnalyzerService IssueEnhancement RegExpTerms IssueAnalyzerTerms
       ServiceTerms StringFacts FindingFacts.

Lemma analyzeReference_adds fileContents acc ref :
  analyzeReference fileContents acc ref
  = acc ++ analyzeReference fileContents [] ref.
Proof.
  unfold analyzeReference. destruct fileContents as [files|];
    [|rewrite app_nil_r; reflexivity].
  destruct (find _ files) as [f|]; [|rewrite app_nil_r; reflexivity].
  destruct (0 <? length (analyzeCode (content f)));
    [reflexivity|rewrite app_nil_r; reflexivity].
Qed.

Lemma fold_analyzeReference fileContents refs : forall acc,
  fold_left (analyzeReference fileContents) refs acc
  = acc ++ flat_map (analyzeReference fileContents []) refs.
Proof.
  induction refs as [|ref refs IH]; intros acc; cbn [fold_left flat_map].
  - rewrite app_nil_r. reflexivity.
  - rewrite IH, analyzeReference_adds, <- app_assoc. reflexivity.
Qed.

Lemma find_split {A} (test : A -> bool) l x :
  find test l = Some x ->
  exists before after,
    l = before ++ x :: after /\ test x = true /\
    forall y, In y before -> test y = false.
Proof.
  induction l as [|a l IH]; [discriminate|]. cbn [find].
  destruct (test a) eqn:E.
  - intros H. injection H as ->. exists [], l. split; [reflexivity|].
    split; [exact E|]. intros y [].
  - intros H. destruct (IH H) as (before & after & -> & Hx & Hb).
    exists (a :: before), after. split; [reflexivity|]. split; [exact Hx|].
    intros y [<-|Hy]; auto.
Qed.

Lemma str_eqb_false a b : str_eqb a b = false <-> a <> b.
Proof.
  unfold str_eqb. destruct (list_eq_dec ascii_dec a b); split; congruence.
Qed.

(** What one reference contributes: the findings of the first file of its
    path, when there are findings. *)
Lemma analyzeReference_entry files ref a :
  In a (analyzeReference (Some files) [] ref) <->
  exists before f after,
    files = before ++ f :: after /\ path f = IssueAnalyzerService.path ref /\
    (forall g, In g before -> path g <> IssueAnalyzerService.path ref) /\
    analyzeCode (content f) <> [] /\
    a = mkFileAnalysis (IssueAnalyzerService.path ref) (analyzeCode (content f)).
Proof.
  unfold analyzeReference. split.
  - destruct (find _ files) as [f|] eqn:E; [|contradiction].
    apply find_split in E. destruct E as (before & after & Hl & Hf & Hb).
    apply str_eqb_eq in Hf.
    destruct (analyzeCode (content f)) as [|i l] eqn:Ea; [contradiction|].
    cbn [length Nat.ltb Nat.leb app]. intros [<-|[]].
    exists before, f, after. split; [exact Hl|]. split; [exact Hf|].
    split; [|rewrite Ea; split; [discriminate|reflexivity]].
    intros g Hg. apply str_eqb_false. apply Hb, Hg.
  - intros (before & f & after & Hl & Hf & Hb & Hne & ->).
    rewrite (GeminiFacts.find_first _ files before f after Hl).
    + destruct (analyzeCode (content f)) as [|i l]; [congruence|].
      left. reflexivity.
    + apply str_eqb_eq, Hf.
    + intros g Hg. apply str_eqb_false. apply Hb, Hg.
Qed.

Lemma analyzeReference_one fileContents ref :
  length (analyzeReference fileContents [] ref) <= 1.
Proof.
  unfold analyzeReference. destruct fileContents as [files|]; [|simpl; lia].
  destruct (find _ files) as [f|]; [|simpl; lia].
  destruct (0 <? length (analyzeCode (content f))); simpl; lia.
Qed.

Lemma flat_map_short {A B} (f : A -> list B) l :
  (forall x, length (f x) <= 1) -> length (flat_map f l) <= length l.
Proof.
  intros H. induction l as [|x l IH]; [simpl; lia|].
  cbn [flat_map]. rewrite length_app. specialize (H x). simpl. lia.
Qed.

End EnhancementFacts.

Module EnhancementProperties.

Import IssueAnalyzerService IssueEnhancement RegExpTerms IssueAnalyzerTerms
       ServiceTerms StringFacts FindingFacts EnhancementFacts.

(** X7.  For an issue and a list of files, the enhanced issue carries the
    issue, the references extracted from its body and, in the order of
    the references, one entry for every reference whose path is exactly
    the path of a file and whose first such file has findings: the entry
    holds the path and the findings of that first file.  Files that no
    reference names are not analyzed, and a path referenced twice is
    entered twice. *)
Theorem code_analysis_entries (Issue : Type) (body : Issue -> jsstring)
        (maxLength : nat) (i : Issue) (files : list FileData) :
  exists e,
    enhanceIssueWithCodeAnalysis body maxLength (Some i) (Some files) = Enhanced e /\
    issue e = i /\
    fileReferences e = extractFileReferences maxLength (body i) /\
    codeAnalysis e
    = flat_map (analyzeReference (Some files) []) (fileReferences e) /\
    forall a,
      In a (codeAnalysis e) <->
      exists ref before f after,
        In ref (fileReferences e) /\
        files = before ++ f :: after /\
        path f = IssueAnalyzerService.path ref /\
        (forall g, In g before -> path g <> IssueAnalyzerService.path ref) /\
        analyzeCode (content f) <> [] /\
        a = mkFileAnalysis (IssueAnalyzerService.path ref)
                           (analyzeCode (content f)).
Proof.
  eexists. split; [reflexivity|]. cbn [issue fileReferences codeAnalysis].
  split; [reflexivity|]. split; [reflexivity|].
  rewrite fold_analyzeReference. cbn [app].
  split; [reflexivity|]. intros a. rewrite in_flat_map. split.
  - intros (ref & Hr & Ha). apply analyzeReference_entry in Ha.
    destruct Ha as (before & f & after & H). exists ref, before, f, after.
    tauto.
  - intros (ref & before & f & after & Hr & H). exists ref.
    split; [exact Hr|]. apply analyzeReference_entry.
    exists before, f, after. exact H.
Qed.

(** X8.  The edges of the enhancement.  A [null] issue is returned as it
    is.  Without a list of files ([null]), or with an empty one, the
    issue is enhanced with its references and an empty code analysis.
    A [null] or empty body gives no reference and no analysis.  In every
    case there is at most one entry per reference, and an entry has a
    path among the references and findings that are not empty. *)
Theorem enhancement_edges (Issue : Type) (body : Issue -> jsstring)
        (maxLength : nat) (i : Issue)
        (fileContents : option (list FileData)) :
  enhanceIssueWithCodeAnalysis body maxLength None fileContents = Unchanged None /\
  enhanceIssueWithCodeAnalysis body maxLength (Some i) None
  = Enhanced (mkEnhanced i (extractFileReferences maxLength (body i)) []) /\
  enhanceIssueWithCodeAnalysis body maxLength (Some i) (Some [])
  = Enhanced (mkEnhanced i (extractFileReferences maxLength (body i)) []) /\
  (body i = JNull \/ body i = JStr [] ->
   enhanceIssueWithCodeAnalysis body maxLength (Some i) fileContents
   = Enhanced (mkEnhanced i [] [])) /\
  exists e,
    enhanceIssueWithCodeAnalysis body maxLength (Some i) fileContents = Enhanced e /\
    length (codeAnalysis e) <= length (fileReferences e) /\
    Forall (fun a => issues a <> [] /\ sublist CodeIssue (issues a) allFindings /\
                     In (filePath a)
                        (map IssueAnalyzerService.path (fileReferences e)))
           (codeAnalysis e).
Proof.
  split; [reflexivity|].
  assert (Hnone : forall refs,
             flat_map (analyzeReference None []) refs = []).
  { induction refs as [|r refs IH]; [reflexivity|]. cbn [flat_map].
    rewrite IH. reflexivity. }
  assert (Hempty : forall refs,
             flat_map (analyzeReference (Some []) []) refs = []).
  { induction refs as [|r refs IH]; [reflexivity|]. cbn [flat_map].
    rewrite IH. reflexivity. }
  unfold enhanceIssueWithCodeAnalysis.
  split; [rewrite fold_analyzeReference, Hnone; reflexivity|].
  split; [rewrite fold_analyzeReference, Hempty; reflexivity|].
  split; [intros [-> | ->]; reflexivity|].
  eexists. split; [reflexivity|]. cbn [fileReferences codeAnalysis].
  rewrite fold_analyzeReference. cbn [app]. split.
  - apply flat_map_short. apply analyzeReference_one.
  - apply Forall_forall. intros a Ha. apply in_flat_map in Ha.
    destruct Ha as (ref & Hr & Ha).
    destruct fileContents as [files|]; [|contradiction].
    apply analyzeReference_entry in Ha.
    destruct Ha as (before & f & after & _ & _ & _ & Hne & ->).
    cbn [issues filePath]. split; [exact Hne|].
    split; [apply analyzeCode_sublist|]. apply in_map. exact Hr.
Qed.

End EnhancementProperties.

(** * Further properties of the response structurer *)

Module GeminiProperties.

Import IssueAnalyzerService GeminiService RegExpTerms IssueAnalyzerTerms
       GeminiTerms ServiceTerms RegExpFacts StringFacts IssueAnalyzerFacts
       GeminiFacts ExtractionFacts.

(** X9.  On every text the analysis and the solution of the result are
    trimmed: trimming them again changes nothing, and they neither start
    nor end with white space.  There is one snippet per fenced block
    found, and no snippet has line numbers. *)
Theorem fields_are_trimmed (rawText : str) (files : option (list KnownFile)) :
  exists sol,
    parseAIResponse (JStr rawText) files = Returns sol /\
    trim (analysis sol) = analysis sol /\
    trim (solution sol) = solution sol /\
    starts_ws (analysis sol) = false /\ starts_ws (rev (analysis sol)) = false /\
    starts_ws (solution sol) = false /\ starts_ws (rev (solution sol)) = false /\
    length (codeSnippets sol) = length (execAll codeBlockRegex rawText) /\
    Forall (fun sn => lineNumbers sn = []) (codeSnippets sol).
Proof.
  rewrite parse_fields. eexists. split; [reflexivity|].
  cbn [analysis solution codeSnippets].
  assert (Hrev : forall s, starts_ws (rev (trim s)) = false).
  { intros s. unfold trim, trimEnd. rewrite rev_involutive.
    apply trimStart_not_ws. }
  assert (Hsol : forall o : option str,
             let s := match o with
                      | Some text => trim text
                      | None => []
                      end in
             trim s = s /\ starts_ws s = false /\ starts_ws (rev s) = false).
  { intros [text|]; cbn zeta.
    - split; [apply trim_idem|]. split; [apply trim_not_ws|apply Hrev].
    - repeat split. }
  destruct (Hsol (sectionText (str_match solutionPattern rawText)))
    as (S1 & S2 & S3).
  assert (Han : forall s : str,
             let a := match sectionText (str_match analysisPattern rawText) with
                      | Some text => trim text
                      | None => trim s
                      end in
             trim a = a /\ starts_ws a = false /\ starts_ws (rev a) = false).
  { intros s. destruct (sectionText (str_match analysisPattern rawText));
      cbn zeta; (split; [apply trim_idem|]; split; [apply trim_not_ws|apply Hrev]). }
  destruct (Han (firstParagraph rawText)) as (A1 & A2 & A3).
  split; [exact A1|]. split; [exact S1|]. split; [exact A2|].
  split; [exact A3|]. split; [exact S2|]. split; [exact S3|].
  split; [apply length_map|].
  apply Forall_forall. intros sn Hsn. apply in_map_iff in Hsn.
  destruct Hsn as (m & <- & _). reflexivity.
Qed.

(** X10.  The list of files only serves to resolve the snippets: two
    calls on the same text with different lists agree on the analysis,
    the solution, the best practices and the suggested code of every
    snippet.  Without a list ([null]) or with an empty one, every snippet
    has the annotation of its block as [filePath] and an empty
    [originalCode]. *)
Theorem files_only_resolve (rawText : str)
        (files files' : option (list KnownFile)) :
  exists sol sol',
    parseAIResponse (JStr rawText) files = Returns sol /\
    parseAIResponse (JStr rawText) files' = Returns sol' /\
    analysis sol = analysis sol' /\ solution sol = solution sol' /\
    bestPractices sol = bestPractices sol' /\
    map suggestedCode (codeSnippets sol) = map suggestedCode (codeSnippets sol') /\
    (files = None \/ files = Some [] ->
     codeSnippets sol
     = map (fun m => mkSnippet (group_or_empty m 1) []
                               (replace_empty fenceClosing
                                  (replace_empty fenceOpening (m_text m))) [])
           (execAll codeBlockRegex rawText)).
Proof.
  rewrite !parse_fields. do 2 eexists.
  split; [reflexivity|]. split; [reflexivity|].
  cbn [analysis solution bestPractices codeSnippets].
  split; [reflexivity|]. split; [reflexivity|]. split; [reflexivity|].
  split.
  - rewrite !map_map. apply map_ext. intros m. reflexivity.
  - intros [-> | ->]; apply map_ext; intros m; unfold snippetOfMatch;
      destruct (group_or_empty m 1); reflexivity.
Qed.

(** X11.  The structurer and the extractor read the fenced blocks with
    the same pattern: the annotation of every fenced block of a text has
    the shape of a file name and is the path of a reference that
    [extractFileReferences] returns for the same text, whatever pass 1
    has registered.  So, without known files, the [filePath] of every
    snippet is empty or such a path. *)
Theorem annotations_are_references (maxLength : nat) (rawText : str) :
  Forall (fun m =>
            group_or_empty m 1 = [] \/
            (filename (group_or_empty m 1) /\
             In (group_or_empty m 1)
                (map IssueAnalyzerService.path
                     (extractFileReferences maxLength (JStr rawText)))))
         (execAll codeBlockRegex rawText) /\
  exists sol,
    parseAIResponse (JStr rawText) None = Returns sol /\
    Forall (fun sn =>
              filePath sn = [] \/
              In (filePath sn)
                 (map IssueAnalyzerService.path
                      (extractFileReferences maxLength (JStr rawText))))
           (codeSnippets sol).
Proof.
  assert (H : forall m, In m (execAll codeBlockRegex rawText) ->
            group_or_empty m 1 = [] \/
            (filename (group_or_empty m 1) /\
             In (group_or_empty m 1)
                (map IssueAnalyzerService.path
                     (extractFileReferences maxLength (JStr rawText))))).
  { intros m Hm. unfold codeBlockRegex in Hm.
    destruct (codeBlock_match_origin rawText m Hm)
      as (_ & _ & _ & _ & _ & [Hg|Hg]); [left; exact Hg|].
    right. split; [exact Hg|]. rewrite extract_JStr. unfold pass2.
    apply fold_addBlock_covers; [exact Hm|].
    apply filename_nonempty, Hg. }
  split; [apply Forall_forall; exact H|].
  rewrite parse_fields. eexists. split; [reflexivity|].
  cbn [codeSnippets]. apply Forall_forall. intros sn Hsn.
  apply in_map_iff in Hsn. destruct Hsn as (m & <- & Hm).
  assert (Hp : filePath (snippetOfMatch None m) = group_or_empty m 1).
  { unfold snippetOfMatch. destruct (group_or_empty m 1); reflexivity. }
  rewrite Hp. destruct (H m Hm) as [Hg|[_ Hg]]; auto.
Qed.

End GeminiProperties.

Module FenceFacts.

Import IssueAnalyzerService GeminiService RegExpTerms IssueAnalyzerTerms
       GeminiTerms ServiceTerms RegExpFacts StringFacts IssueAnalyzerFacts
       GeminiFacts TextFacts ExtractionFacts.

(** *** The first way a pattern matches *)

Lemma head_Seq a b st x y :
  (exists l, run a st = x :: l) -> (exists l, run b x = y :: l) ->
  exists l, run (Seq a b) st = y :: l.
Proof.
  intros [l Ha] [l' Hb]. rewrite run_Seq_eq, Ha. cbn [flat_map].
  rewrite Hb. eexists. reflexivity.
Qed.

Lemma no_In_nil {A} (l : list A) : (forall x, ~ In x l) -> l = [].
Proof.
  destruct l as [|a l]; [reflexivity|]. intros H. exfalso.
  apply (H a). left. reflexivity.
Qed.

Lemma head_lit w t cs : run (lit w) (MState (w ++ t) cs) = [MState t cs].
Proof.
  revert t cs. induction w as [|c w IH]; intros t cs; [reflexivity|].
  destruct w as [|d w].
  - apply run_Chr_hit.
  - change (lit (c :: d :: w)) with (Seq (Chr c) (lit (d :: w))).
    rewrite run_Seq_eq.
    change ((c :: d :: w) ++ t) with (c :: ((d :: w) ++ t)).
    rewrite run_Chr_hit. cbn [flat_map]. rewrite IH. reflexivity.
Qed.

Lemma lit_fail w s cs :
  prefixb w s = false -> run (lit w) (MState s cs) = [].
Proof.
  intros H. apply no_In_nil. intros st' Hin. apply lit_shape in Hin.
  destruct Hin as [E _]. cbn [rest] in E.
  assert (prefixb w s = true) by (apply prefixb_spec; eauto).
  congruence.
Qed.

Lemma head_star_class p w t cs :
  Forall (fun c => p c = true) w -> starts_in p t = false ->
  exists l, run (Star true (Cls p)) (MState (w ++ t) cs) = MState t cs :: l.
Proof.
  intros Hw Ht. cbn [run rest].
  apply (star_iter_class_full p (run (Cls p)) (fun st => eq_refl));
    [exact Hw|exact Ht|lia].
Qed.

Lemma head_opt_fail a st : run a st = [] -> exists l, run (Opt a) st = st :: l.
Proof.
  intros H. unfold Opt. rewrite run_Alt_eq, H. eexists. reflexivity.
Qed.

Lemma head_opt_plus_class p w t cs :
  Forall (fun c => p c = true) w -> starts_in p t = false ->
  exists l,
    run (Opt (Plus true (Cls p))) (MState (w ++ t) cs) = MState t cs :: l.
Proof.
  intros Hw Ht. destruct w as [|c w].
  - apply head_opt_fail. cbn [app]. destruct t as [|d t].
    + apply plus_class_none_nil.
    + apply plus_class_none. exact Ht.
  - destruct (plus_class_full p (c :: w) t cs) as [l Hl];
      [discriminate|exact Hw|exact Ht|].
    unfold Opt. rewrite run_Alt_eq, Hl. eexists. reflexivity.
Qed.

(** *** A code that does not start with a dotted name *)

Lemma no_dot_prefix w : forall q r t,
  Forall (fun c => is_pathc c = true /\ c <> "."%char) w ->
  starts_in is_pathc t = false ->
  Forall (fun c => is_pathc c = true) q ->
  w ++ t = q ++ "."%char :: r -> False.
Proof.
  induction w as [|a w IH]; intros q r t Hw Ht Hq E.
  - cbn [app] in E. subst t. destruct q as [|c q].
    + cbn in Ht. discriminate.
    + inversion Hq as [|? ? Hc _]. cbn in Ht. congruence.
  - inversion Hw as [|? ? [_ Ha] Hw']; subst.
    destruct q as [|c q].
    + cbn in E. injection E as E _. contradiction.
    + inversion Hq as [|? ? _ Hq']; subst.
      cbn in E. injection E as _ E. eapply IH; eassumption.
Qed.

Lemma pathPattern_fail w t cs :
  Forall (fun c => is_pathc c = true /\ c <> "."%char) w ->
  starts_in is_pathc t = false ->
  run pathPattern (MState (w ++ t) cs) = [].
Proof.
  intros Hw Ht. apply no_In_nil. intros st' Hin.
  apply pathPattern_shape in Hin.
  destruct Hin as (p & (q & ext & -> & _ & Hq & _) & E & _).
  cbn [rest] in E. rewrite <- app_assoc in E. cbn [app] in E.
  eapply no_dot_prefix; eassumption.
Qed.

(** *** The lazy body of a block *)

Lemma any_step s c cs :
  run (Cls any_char) (MState (c :: s) cs) = [MState s cs].
Proof. reflexivity. Qed.

Lemma head_lazy_until f F t cs b : forall n,
  ~ In f b -> length (b ++ (f :: F) ++ t) <= n ->
  exists l,
    flat_map (run (lit (f :: F)))
             (star_iter false (run (Cls any_char)) n
                        (MState (b ++ (f :: F) ++ t) cs))
    = MState t cs :: l.
Proof.
  induction b as [|x b IH]; intros n Hb Hn.
  - cbn [app] in *.
    assert (Hs : exists more,
               star_iter false (run (Cls any_char)) n
                         (MState (f :: F ++ t) cs)
               = MState (f :: F ++ t) cs :: more).
    { destruct n; cbn [star_iter]; eexists; reflexivity. }
    destruct Hs as [more ->]. cbn [flat_map].
    change (f :: F ++ t) with ((f :: F) ++ t). rewrite head_lit.
    eexists. reflexivity.
  - destruct n as [|n]; [simpl in Hn; lia|].
    change ((x :: b) ++ (f :: F) ++ t) with (x :: (b ++ (f :: F) ++ t)).
    cbn [star_iter]. rewrite any_step. cbn [flat_map rest].
    assert (Hlt : (length (b ++ (f :: F) ++ t)
                   <? length (x :: b ++ (f :: F) ++ t)) = true)
      by (apply Nat.ltb_lt; simpl; lia).
    rewrite Hlt, app_nil_r.
    rewrite lit_fail.
    + cbn [app]. apply IH.
      * intros H. apply Hb. right. exact H.
      * simpl in Hn. simpl. lia.
    + cbn [prefixb]. destruct (Ascii.eqb f x) eqn:E; [|reflexivity].
      apply Ascii.eqb_eq in E. exfalso. apply Hb. left. congruence.
Qed.

Lemma head_body f F t cs b :
  ~ In f b ->
  exists l,
    run (Seq (Star false (Cls any_char)) (lit (f :: F)))
        (MState (b ++ (f :: F) ++ t) cs)
    = MState t cs :: l.
Proof.
  intros Hb. rewrite run_Seq_eq. cbn [run rest].
  apply head_lazy_until; [exact Hb|apply Nat.le_refl].
Qed.

(** *** Searching past a text where nothing matches *)

Lemma search_skip r s pre :
  (forall u v, pre = u ++ v -> v <> [] -> match_here r (v ++ s) = None) ->
  search r (pre ++ s)
  = match search r s with
    | Some (p, m) => Some (pre ++ p, m)
    | None => None
    end.
Proof.
  induction pre as [|c pre IH]; intros H.
  - cbn [app]. destruct (search r s) as [[p m]|]; reflexivity.
  - change ((c :: pre) ++ s) with (c :: (pre ++ s)). cbn [search].
    change (c :: pre ++ s) with ((c :: pre) ++ s).
    rewrite (H [] (c :: pre) eq_refl) by discriminate.
    rewrite IH.
    + destruct (search r s) as [[p m]|]; reflexivity.
    + intros u v -> Hv. apply (H (c :: u) v eq_refl Hv).
Qed.

Lemma match_here_head r s t cs :
  (exists l, run r (start (s ++ t)) = MState t cs :: l) ->
  match_here r (s ++ t) = Some (RMatch s t cs).
Proof.
  intros [l H]. unfold match_here. rewrite H. cbn [rest caps].
  rewrite (consumed_app (start (s ++ t)) (MState t cs) s eq_refl).
  reflexivity.
Qed.

(** *** The header of a block *)

Lemma code_start code z :
  plain_start code ->
  starts_in is_space (code ++ LF :: z) = false /\
  (forall cs, run pathPattern (MState (code ++ LF :: z) cs) = []) /\
  (forall cs, run (Chr LF) (MState (code ++ LF :: z) cs) = []).
Proof.
  intros (Hne & Hws & w & t & -> & Hw & Ht).
  destruct (w ++ t) as [|c s] eqn:E; [congruence|].
  cbn [starts_ws] in Hws. split; [exact Hws|]. split.
  - intros cs. rewrite <- E, <- app_assoc. apply pathPattern_fail; [exact Hw|].
    destruct t; [reflexivity|exact Ht].
  - intros cs. cbn [app]. apply run_Chr_miss. intros ->. discriminate.
Qed.

Lemma fenced_app lang indent code after :
  fenced lang (indent ++ code) ++ after
  = js "```" ++ lang ++ (LF :: indent) ++ code ++ LF :: js "```" ++ after.
Proof.
  unfold fenced. rewrite <- !app_assoc. cbn [app]. rewrite <- !app_assoc.
  reflexivity.
Qed.

Lemma LF_spaces indent :
  Forall (fun c => is_space c = true) indent ->
  Forall (fun c => is_space c = true) (LF :: indent).
Proof. intros H. constructor; [reflexivity|exact H]. Qed.

(** The first way the pattern of the blocks matches at a block reads the
    block up to its closing fence and captures nothing. *)
Lemma codeBlock_head lang indent code after :
  Forall (fun c => is_alpha c = true) lang ->
  Forall (fun c => is_space c = true) indent ->
  plain_start code -> ~ In "`"%char code ->
  exists l,
    run codeBlockPattern (start (fenced lang (indent ++ code) ++ after))
    = MState after [] :: l.
Proof.
  intros Hlang Hindent Hcode Htick.
  destruct (code_start code (js "```" ++ after) Hcode) as (Hs & Hp & _).
  rewrite fenced_app. unfold codeBlockPattern, seqs, start.
  eapply head_Seq; [eexists; apply head_lit|].
  eapply head_Seq; [apply head_opt_plus_class; [exact Hlang|reflexivity]|].
  eapply head_Seq;
    [apply head_star_class; [apply LF_spaces, Hindent|exact Hs]|].
  eapply head_Seq.
  { apply head_opt_fail. rewrite run_Group_eq, Hp. reflexivity. }
  replace (code ++ LF :: js "```" ++ after)
    with ((code ++ [LF]) ++ ("`"%char :: js "``") ++ after)
    by (rewrite <- app_assoc; reflexivity).
  apply (head_body "`" (js "``") after [] (code ++ [LF])).
  intros H. apply in_app_or in H. destruct H as [H|[H|[]]];
    [contradiction|discriminate].
Qed.

(** The first way the pattern of the opening fence matches at a block
    reads the fence, the language tag, the line break and the white space
    that follows it. *)
Lemma fenceOpening_head lang indent code :
  Forall (fun c => is_alpha c = true) lang ->
  Forall (fun c => is_space c = true) indent ->
  plain_start code ->
  exists l,
    run fenceOpening
        (start ((js "```" ++ lang ++ LF :: indent) ++ code ++ LF :: js "```"))
    = MState (code ++ LF :: js "```") [] :: l.
Proof.
  intros Hlang Hindent Hcode.
  destruct (code_start code (js "```") Hcode) as (Hs & Hp & Hlf).
  rewrite <- !app_assoc.
  unfold fenceOpening, seqs, start.
  eapply head_Seq; [eexists; apply head_lit|].
  eapply head_Seq; [apply head_opt_plus_class; [exact Hlang|reflexivity]|].
  eapply head_Seq;
    [apply head_star_class; [apply LF_spaces, Hindent|exact Hs]|].
  eapply head_Seq; [apply head_opt_fail, Hp|].
  eapply head_Seq.
  { apply (head_star_class is_space [] (code ++ LF :: js "```") []);
      [constructor|exact Hs]. }
  apply head_opt_fail, Hlf.
Qed.

(** Removing the opening fence from a block leaves the code, the line
    break and the closing fence. *)
Lemma fenceOpening_removed lang indent code :
  Forall (fun c => is_alpha c = true) lang ->
  Forall (fun c => is_space c = true) indent ->
  plain_start code ->
  replace_empty fenceOpening (fenced lang (indent ++ code))
  = code ++ LF :: js "```".
Proof.
  intros Hlang Hindent Hcode.
  assert (E : fenced lang (indent ++ code)
              = (js "```" ++ lang ++ LF :: indent) ++ code ++ LF :: js "```").
  { unfold fenced. rewrite <- ?app_assoc. cbn [app]. rewrite <- ?app_assoc.
    reflexivity. }
  rewrite E. unfold replace_empty.
  rewrite (search_here _ _ _
             (match_here_head fenceOpening _ _ []
                (fenceOpening_head lang indent code Hlang Hindent Hcode))).
  reflexivity.
Qed.

Lemma fenceClosing_shape st st' :
  In st' (run fenceClosing st) ->
  rest st = js "```" \/ rest st = LF :: js "```".
Proof.
  unfold fenceClosing, seqs. intros H.
  apply In_run_Seq in H. destruct H as (s1 & H1 & H).
  apply In_run_Seq in H. destruct H as (s2 & H2 & H3).
  apply lit_shape in H2. destruct H2 as [E2 _].
  cbn [run] in H3. destruct (rest s2) eqn:E3; [|contradiction].
  rewrite app_nil_r in E2.
  apply opt_shape in H1. destruct H1 as [H1| ->].
  - apply In_run_Chr in H1. destruct H1 as [E1 _]. right. congruence.
  - left. exact E2.
Qed.

(** Removing the closing fence from a code followed by a line break and
    the fence gives the code. *)
Lemma fenceClosing_removed code :
  replace_empty fenceClosing (code ++ LF :: js "```") = code.
Proof.
  unfold replace_empty. rewrite search_skip.
  - assert (E : search fenceClosing (LF :: js "```")
                = Some ([], RMatch (LF :: js "```") [] []))
      by reflexivity.
    rewrite E. cbn [m_post]. rewrite !app_nil_r. reflexivity.
  - intros u v -> Hv. unfold match_here.
    rewrite (no_In_nil (run fenceClosing (start (v ++ LF :: js "```"))));
      [reflexivity|].
    intros st' Hin. apply fenceClosing_shape in Hin. cbn [start rest] in Hin.
    destruct Hin as [E|E]; apply (f_equal (@List.length ascii)) in E;
      rewrite length_app in E; cbn in E; [lia|].
    destruct v; [congruence|cbn in E; lia].
Qed.

(** No block starts in a text without a backtick. *)
Lemma no_block_before r before s :
  (forall st st', In st' (run r st) -> exists t, rest st = "`"%char :: t) ->
  ~ In "`"%char before ->
  search r (before ++ s)
  = match search r s with
    | Some (p, m) => Some (before ++ p, m)
    | None => None
    end.
Proof.
  intros Hr Hb. apply search_skip. intros u v -> Hv. unfold match_here.
  rewrite (no_In_nil (run r (start (v ++ s)))); [reflexivity|].
  intros st' Hin. apply Hr in Hin. destruct Hin as [t E].
  cbn [start rest] in E. destruct v as [|c v]; [congruence|].
  cbn in E. injection E as E _. apply Hb. apply in_or_app. right.
  left. exact E.
Qed.

Lemma codeBlock_starts st st' :
  In st' (run codeBlockPattern st) -> exists t, rest st = "`"%char :: t.
Proof.
  intros Hin. apply codeBlock_shape in Hin.
  destruct Hin as (lg & ws & an & body & _ & _ & E & _).
  rewrite E. eexists. reflexivity.
Qed.

(** The first fenced block of a text without a backtick before it. *)
Lemma first_block before lang indent code after :
  ~ In "`"%char before ->
  Forall (fun c => is_alpha c = true) lang ->
  Forall (fun c => is_space c = true) indent ->
  plain_start code -> ~ In "`"%char code ->
  exists more,
    execAll codeBlockRegex (before ++ fenced lang (indent ++ code) ++ after)
    = RMatch (fenced lang (indent ++ code)) after [] :: more.
Proof.
  intros Hb Hlang Hindent Hcode Htick.
  unfold execAll, codeBlockRegex. cbn [exec_loop].
  rewrite (no_block_before _ _ _ codeBlock_starts Hb).
  rewrite (search_here _ _ _
             (match_here_head _ _ _ _
                (codeBlock_head lang indent code after Hlang Hindent Hcode
                                Htick))).
  eexists. reflexivity.
Qed.

(** *** A code that starts with a dotted name *)

Lemma star_class_stop p t cs :
  starts_in p t = false ->
  run (Star true (Cls p)) (MState t cs) = [MState t cs].
Proof.
  intros Ht. cbn [run rest]. destruct t as [|c s]; [reflexivity|].
  cbn [length star_iter run].
  change (step_char p (MState (c :: s) cs))
    with (if p c then [MState s cs] else []).
  cbn [starts_in] in Ht. rewrite Ht. reflexivity.
Qed.

Lemma star_class_step p c s cs :
  p c = true ->
  run (Star true (Cls p)) (MState (c :: s) cs)
  = run (Star true (Cls p)) (MState s cs) ++ [MState (c :: s) cs].
Proof.
  intros Hc. cbn [run rest length star_iter].
  change (step_char p (MState (c :: s) cs))
    with (if p c then [MState s cs] else []).
  rewrite Hc. cbn [flat_map rest].
  assert (Hlt : (length s <? S (length s)) = true)
    by (apply Nat.ltb_lt; lia).
  rewrite Hlt, app_nil_r. reflexivity.
Qed.

(** When no suffix of the characters read lets the rest of the pattern
    match, backtracking finds nothing. *)
Lemma star_suffixes_fail (K : mstate -> list mstate) p t cs u :
  Forall (fun c => p c = true) u -> starts_in p t = false ->
  (forall v' v, u = v' ++ v -> K (MState (v ++ t) cs) = []) ->
  flat_map K (run (Star true (Cls p)) (MState (u ++ t) cs)) = [].
Proof.
  intros Hu Ht. induction u as [|c u IH]; intros HK.
  - cbn [app]. rewrite star_class_stop by exact Ht. cbn [flat_map].
    pose proof (HK [] [] eq_refl) as H0. cbn [app] in H0. rewrite H0.
    reflexivity.
  - inversion Hu as [|? ? Hc Hu']; subst.
    change ((c :: u) ++ t) with (c :: (u ++ t)).
    rewrite star_class_step by exact Hc. rewrite flat_map_app.
    rewrite IH.
    + cbn [flat_map app]. change (c :: u ++ t) with ((c :: u) ++ t).
      rewrite (HK [] (c :: u) eq_refl). reflexivity.
    + exact Hu'.
    + intros v' v ->. apply (HK (c :: v') v). reflexivity.
Qed.

(** A greedy repetition gives back characters until the rest of the
    pattern matches: the first match is the one with the longest
    repetition that lets the rest match. *)
Lemma greedy_backtrack (K : mstate -> list mstate) p t cs w2 y l w1 :
  Forall (fun c => p c = true) w1 -> Forall (fun c => p c = true) w2 ->
  starts_in p t = false ->
  (forall v' v, w2 = v' ++ v -> v' <> [] -> K (MState (v ++ t) cs) = []) ->
  K (MState (w2 ++ t) cs) = y :: l ->
  exists l',
    flat_map K (run (Star true (Cls p)) (MState (w1 ++ w2 ++ t) cs))
    = y :: l'.
Proof.
  intros H1 H2 Ht Hfail Hhit. induction w1 as [|c w1 IH].
  - cbn [app]. destruct w2 as [|d w2].
    + cbn [app] in *. rewrite star_class_stop by exact Ht. cbn [flat_map].
      rewrite Hhit. eexists. reflexivity.
    + inversion H2 as [|? ? Hd H2']; subst.
      change ((d :: w2) ++ t) with (d :: (w2 ++ t)).
      rewrite star_class_step by exact Hd. rewrite flat_map_app.
      rewrite star_suffixes_fail; [|exact H2'|exact Ht|].
      * cbn [flat_map app]. change (d :: w2 ++ t) with ((d :: w2) ++ t).
        rewrite Hhit. eexists. reflexivity.
      * intros v' v ->. apply (Hfail (d :: v') v); [reflexivity|discriminate].
  - inversion H1 as [|? ? Hc H1']; subst.
    change ((c :: w1) ++ w2 ++ t) with (c :: (w1 ++ w2 ++ t)).
    rewrite star_class_step by exact Hc. rewrite flat_map_app.
    destruct (IH H1') as [l' ->]. eexists. reflexivity.
Qed.

Lemma pathc_not_space c : is_pathc c = true -> is_space c = false.
Proof. all_chars c. Qed.

Lemma not_pathc_not_alpha t :
  starts_in is_pathc t = false -> starts_in is_alpha t = false.
Proof.
  destruct t as [|c t]; [reflexivity|]. cbn [starts_in]. intros H.
  destruct (is_alpha c) eqn:E; [|reflexivity].
  apply alpha_is_pathc in E. congruence.
Qed.

Lemma not_pathc_not_dot t cs :
  starts_in is_pathc t = false -> run (Chr ".") (MState t cs) = [].
Proof.
  destruct t as [|c t]; [intros _; apply run_Chr_nil|].
  cbn [starts_in]. intros H. apply run_Chr_miss. intros ->. discriminate.
Qed.

(** The first way the path pattern matches at a file name that ends where
    the path characters end reads the whole name. *)
Lemma pathPattern_head p t cs :
  filename p -> starts_in is_pathc t = false ->
  exists l, run pathPattern (MState (p ++ t) cs) = MState t cs :: l.
Proof.
  intros (q & ext & -> & Hq & Fq & He & Fe) Ht.
  destruct q as [|c q]; [congruence|].
  inversion Fq as [|? ? Hc Fq']; subst.
  unfold pathPattern, seqs, Plus. rewrite run_Seq_eq, run_Seq_eq.
  rewrite <- app_assoc.
  change ((c :: q) ++ ("."%char :: ext) ++ t)
    with (c :: (q ++ ("."%char :: ext) ++ t)).
  assert (Hstep : run (Cls is_pathc)
                      (MState (c :: q ++ ("."%char :: ext) ++ t) cs)
                  = [MState (q ++ ("."%char :: ext) ++ t) cs]).
  { cbn [run]. unfold step_char. cbn [rest caps]. rewrite Hc. reflexivity. }
  rewrite Hstep. cbn [flat_map]. rewrite app_nil_r.
  destruct (plus_class_full is_alpha ext t cs He Fe
                            (not_pathc_not_alpha t Ht)) as [l Hl].
  apply (greedy_backtrack
           (run (Seq (Chr ".") (Seq (Cls is_alpha) (Star true (Cls is_alpha)))))
           is_pathc t cs ("."%char :: ext) (MState t cs) (l ++ [])).
  - exact Fq'.
  - constructor; [reflexivity|].
    eapply Forall_impl; [|exact Fe]. intros x. apply alpha_is_pathc.
  - exact Ht.
  - intros v' v E Hv. rewrite run_Seq_eq.
    destruct v' as [|d v']; [congruence|]. cbn in E. injection E as _ E.
    destruct v as [|a v].
    + cbn [app]. rewrite not_pathc_not_dot by exact Ht. reflexivity.
    + assert (Ha : is_alpha a = true).
      { rewrite Forall_forall in Fe. apply Fe. rewrite E.
        apply in_or_app. right. left. reflexivity. }
      cbn [app]. rewrite run_Chr_miss; [reflexivity|].
      intros ->. discriminate.
  - rewrite run_Seq_eq. cbn [app]. rewrite run_Chr_hit. cbn [flat_map].
    fold (Plus true (Cls is_alpha)). rewrite Hl. reflexivity.
Qed.

Lemma trimStart_split t :
  exists ws, t = ws ++ trimStart t /\ Forall (fun c => is_space c = true) ws.
Proof.
  induction t as [|c t (ws & E & F)]; [exists []; auto|].
  cbn [trimStart]. destruct (is_space c) eqn:Ec.
  - exists (c :: ws). split; [cbn; congruence|]. constructor; assumption.
  - exists []. auto.
Qed.

Lemma starts_in_app p (s z : str) :
  s <> [] -> starts_in p (s ++ z) = starts_in p s.
Proof. destruct s; [congruence|reflexivity]. Qed.

Lemma starts_pathc_end t z :
  starts_in is_pathc t = false -> starts_in is_pathc (t ++ LF :: z) = false.
Proof. destruct t; [reflexivity|intros H; exact H]. Qed.

Lemma filename_start p z :
  filename p -> starts_in is_space (p ++ z) = false.
Proof.
  intros (q & ext & -> & Hq & Fq & _). destruct q as [|c q]; [congruence|].
  inversion Fq as [|? ? Hc _]. cbn. apply pathc_not_space, Hc.
Qed.

(** The first way the pattern of the blocks matches at a block whose
    code starts with a file name captures the name. *)
Lemma codeBlock_head_dotted lang indent p t after :
  Forall (fun c => is_alpha c = true) lang ->
  Forall (fun c => is_space c = true) indent ->
  filename p -> starts_in is_pathc t = false -> ~ In "`"%char t ->
  exists l,
    run codeBlockPattern (start (fenced lang (indent ++ p ++ t) ++ after))
    = MState after [(1, p)] :: l.
Proof.
  intros Hlang Hindent Hp Ht Htick.
  rewrite fenced_app. unfold codeBlockPattern, seqs, start.
  eapply head_Seq; [eexists; apply head_lit|].
  eapply head_Seq; [apply head_opt_plus_class; [exact Hlang|reflexivity]|].
  eapply head_Seq.
  { apply head_star_class; [apply LF_spaces, Hindent|].
    rewrite <- app_assoc. apply filename_start, Hp. }
  eapply head_Seq.
  { rewrite <- app_assoc.
    destruct (pathPattern_head p (t ++ LF :: js "```" ++ after) [] Hp
                               (starts_pathc_end _ _ Ht)) as [l Hl].
    unfold Opt. rewrite run_Alt_eq, run_Group_eq, Hl. cbn [map app].
    rewrite (consumed_app _ _ p) by reflexivity. eexists. reflexivity. }
  cbn [rest caps].
  replace (t ++ LF :: js "```" ++ after)
    with ((t ++ [LF]) ++ ("`"%char :: js "``") ++ after)
    by (rewrite <- app_assoc; reflexivity).
  apply (head_body "`" (js "``") after [(1, p)] (t ++ [LF])).
  intros H. apply in_app_or in H. destruct H as [H|[H|[]]];
    [contradiction|discriminate].
Qed.

(** The pattern of the opening fence then reads the name and the white
    space behind it as well. *)
Lemma fenceOpening_removed_dotted lang indent p t :
  Forall (fun c => is_alpha c = true) lang ->
  Forall (fun c => is_space c = true) indent ->
  filename p -> starts_in is_pathc t = false -> trimStart t <> [] ->
  replace_empty fenceOpening (fenced lang (indent ++ p ++ t))
  = trimStart t ++ LF :: js "```".
Proof.
  intros Hlang Hindent Hp Ht Hne.
  destruct (trimStart_split t) as (ws & Et & Fws).
  assert (Hs : starts_in is_space (trimStart t ++ LF :: js "```") = false).
  { rewrite starts_in_app by exact Hne. rewrite <- starts_ws_in.
    apply trimStart_not_ws. }
  assert (E : fenced lang (indent ++ p ++ t)
              = (js "```" ++ lang ++ (LF :: indent) ++ p ++ ws)
                  ++ trimStart t ++ LF :: js "```").
  { unfold fenced. rewrite Et at 1. rewrite <- ?app_assoc. cbn [app].
    rewrite <- ?app_assoc. reflexivity. }
  rewrite E. unfold replace_empty.
  assert (Hhead : exists l,
             run fenceOpening
                 (start ((js "```" ++ lang ++ (LF :: indent) ++ p ++ ws)
                           ++ trimStart t ++ LF :: js "```"))
             = MState (trimStart t ++ LF :: js "```") [] :: l);
    [|rewrite (search_here _ _ _ (match_here_head _ _ _ _ Hhead));
      reflexivity].
  rewrite <- !app_assoc. unfold fenceOpening, seqs, start.
  eapply head_Seq; [eexists; apply head_lit|].
  eapply head_Seq; [apply head_opt_plus_class; [exact Hlang|reflexivity]|].
  eapply head_Seq.
  { apply head_star_class; [apply LF_spaces, Hindent|].
    apply filename_start, Hp. }
  eapply head_Seq.
  { assert (Hpc : starts_in is_pathc (ws ++ trimStart t ++ LF :: js "```")
                  = false).
    { rewrite app_assoc, <- Et. apply starts_pathc_end, Ht. }
    destruct (pathPattern_head p _ [] Hp Hpc) as [l Hl].
    unfold Opt. rewrite run_Alt_eq, Hl. eexists. reflexivity. }
  eapply head_Seq; [apply head_star_class; [exact Fws|exact Hs]|].
  apply head_opt_fail.
  destruct (trimStart t) as [|c s] eqn:Ec; [congruence|].
  cbn [app starts_in] in Hs. cbn [app]. apply run_Chr_miss.
  intros ->. discriminate.
Qed.

Lemma first_block_dotted before lang indent p t after :
  ~ In "`"%char before ->
  Forall (fun c => is_alpha c = true) lang ->
  Forall (fun c => is_space c = true) indent ->
  filename p -> starts_in is_pathc t = false -> ~ In "`"%char t ->
  exists more,
    execAll codeBlockRegex (before ++ fenced lang (indent ++ p ++ t) ++ after)
    = RMatch (fenced lang (indent ++ p ++ t)) after [(1, p)] :: more.
Proof.
  intros Hb Hlang Hindent Hp Ht Htick.
  unfold execAll, codeBlockRegex. cbn [exec_loop].
  rewrite (no_block_before _ _ _ codeBlock_starts Hb).
  rewrite (search_here _ _ _
             (match_here_head _ _ _ _
                (codeBlock_head_dotted lang indent p t after Hlang Hindent Hp
                                       Ht Htick))).
  eexists. reflexivity.
Qed.

End FenceFacts.

Module FenceProperties.

Import IssueAnalyzerService GeminiService RegExpTerms IssueAnalyzerTerms
       GeminiTerms ServiceTerms RegExpFacts StringFacts IssueAnalyzerFacts
       GeminiFacts TextFacts ExtractionFacts FenceFacts.

(** X12.  A fenced block whose fences stand on lines of their own, with
    a language tag of letters or none, in a text without a backtick
    before it, is the first block found.  When its code holds no
    backtick and starts, after optional white space, with characters
    that do not form a dotted name (the path characters it starts with
    hold no dot), the first snippet carries exactly that code as
    [suggestedCode], without the white space before it and without the
    fences; its [filePath] and its [originalCode] are empty. *)
Theorem fenced_code_extracted (before lang indent code after : str)
        (files : option (list KnownFile)) :
  ~ In "`"%char before ->
  Forall (fun c => is_alpha c = true) lang ->
  Forall (fun c => is_space c = true) indent ->
  plain_start code -> ~ In "`"%char code ->
  exists sol more,
    parseAIResponse
      (JStr (before ++ fenced lang (indent ++ code) ++ after)) files
    = Returns sol /\
    codeSnippets sol = mkSnippet [] [] code [] :: more.
Proof.
  intros Hb Hlang Hindent Hcode Htick.
  destruct (first_block before lang indent code after Hb Hlang Hindent Hcode
                        Htick) as [more Hfirst].
  rewrite parse_fields. eexists. eexists. split; [reflexivity|].
  cbn [codeSnippets]. rewrite Hfirst. cbn [map]. f_equal.
  unfold snippetOfMatch, group_or_empty, group. cbn [m_caps m_text lookup].
  rewrite (fenceOpening_removed lang indent code Hlang Hindent Hcode),
    fenceClosing_removed.
  destruct files; reflexivity.
Qed.

Lemma fenced_code_extracted_witness :
  (~ In "`"%char (js "Solution: use a strict bound.\n\n") /\
   Forall (fun c => is_alpha c = true) (js "js") /\
   Forall (fun c => is_space c = true) (js "  ") /\
   plain_start "for (let i = 0; i < n; i++) {\n    visit(i);\n  }" /\
   ~ In "`"%char (js "for (let i = 0; i < n; i++) {\n    visit(i);\n  }")) /\
  exists sol more,
    parseAIResponse
      (JStr (js "Solution: use a strict bound.\n\n"
               ++ fenced "js"
                    (js "  "
                       ++ js "for (let i = 0; i < n; i++) {\n    visit(i);\n  }")
               ++ js "\nDone.")) None
    = Returns sol /\
    codeSnippets sol
    = mkSnippet [] [] "for (let i = 0; i < n; i++) {\n    visit(i);\n  }" []
      :: more.
Proof.
  assert (H1 : ~ In "`"%char (js "Solution: use a strict bound.\n\n")).
  { intros H. vm_compute in H.
    repeat (destruct H as [H|H]; [discriminate|]). exact H. }
  assert (H2 : Forall (fun c => is_alpha c = true) (js "js"))
    by (repeat constructor).
  assert (H2' : Forall (fun c => is_space c = true) (js "  "))
    by (repeat constructor).
  assert (H3 : plain_start
                 "for (let i = 0; i < n; i++) {\n    visit(i);\n  }").
  { split; [discriminate|]. split; [reflexivity|].
    exists (js "for"), (js " (let i = 0; i < n; i++) {\n    visit(i);\n  }").
    split; [reflexivity|]. split; [|reflexivity].
    repeat (constructor; [split; [reflexivity|discriminate]|]).
    constructor. }
  assert (H4 : ~ In "`"%char
                    (js "for (let i = 0; i < n; i++) {\n    visit(i);\n  }")).
  { intros H. vm_compute in H.
    repeat (destruct H as [H|H]; [discriminate|]). exact H. }
  split; [exact (conj H1 (conj H2 (conj H2' (conj H3 H4))))|].
  exact (fenced_code_extracted _ "js" "  " _ "\nDone." None H1 H2 H2' H3 H4).
Defined.

(** X13.  When the code of such a block starts with a dotted name, that
    is with text of the shape of a file name such as [console.log]
    followed by a character that is no path character, the name is
    taken as the annotation of the block: without known files it is the
    [filePath] of the snippet, the [suggestedCode] is what follows the
    name, without white space before it, and the name is the path of a
    reference that [extractFileReferences] returns for the text,
    whatever pass 1 has registered. *)
Theorem dotted_name_taken (maxLength : nat)
        (before lang indent p t after : str) :
  ~ In "`"%char before ->
  Forall (fun c => is_alpha c = true) lang ->
  Forall (fun c => is_space c = true) indent ->
  filename p -> starts_in is_pathc t = false -> trimStart t <> [] ->
  ~ In "`"%char t ->
  let text := before ++ fenced lang (indent ++ p ++ t) ++ after in
  (exists sol more,
      parseAIResponse (JStr text) None = Returns sol /\
      codeSnippets sol = mkSnippet p [] (trimStart t) [] :: more) /\
  In p (map IssueAnalyzerService.path
            (extractFileReferences maxLength (JStr text))).
Proof.
  intros Hb Hlang Hindent Hp Ht Hne Htick text.
  destruct (first_block_dotted before lang indent p t after Hb Hlang Hindent
                               Hp Ht Htick) as [more Hfirst].
  fold text in Hfirst. split.
  - rewrite parse_fields. eexists. eexists. split; [reflexivity|].
    cbn [codeSnippets]. rewrite Hfirst. cbn [map]. f_equal.
    unfold snippetOfMatch, group_or_empty, group.
    cbn [m_caps m_text lookup Nat.eqb].
    rewrite (fenceOpening_removed_dotted lang indent p t Hlang Hindent Hp Ht
                                         Hne),
      fenceClosing_removed.
    destruct p; reflexivity.
  - rewrite extract_JStr. unfold pass2.
    assert (Hg : group_or_empty (RMatch (fenced lang (indent ++ p ++ t))
                                        after [(1, p)]) 1 = p)
      by reflexivity.
    rewrite <- Hg at 1. apply fold_addBlock_covers.
    + unfold codeBlockRegex in Hfirst. rewrite Hfirst. left. reflexivity.
    + rewrite Hg. apply filename_nonempty, Hp.
Qed.

Lemma dotted_name_taken_witness :
  (~ In "`"%char (js "Log the value:\n\n") /\
   Forall (fun c => is_alpha c = true) (js "js") /\
   Forall (fun c => is_space c = true) [] /\
   filename "console.log" /\
   starts_in is_pathc "(value);" = false /\
   trimStart "(value);" <> [] /\
   ~ In "`"%char (js "(value);")) /\
  let text := js "Log the value:\n\n"
                ++ fenced "js" ([] ++ js "console.log" ++ js "(value);")
                ++ [] in
  (exists sol more,
      parseAIResponse (JStr text) None = Returns sol /\
      codeSnippets sol = mkSnippet "console.log" [] (trimStart "(value);") []
                         :: more) /\
  In (js "console.log")
     (map IssueAnalyzerService.path
          (extractFileReferences languageLimit (JStr text))).
Proof.
  assert (H1 : ~ In "`"%char (js "Log the value:\n\n")).
  { intros H. vm_compute in H.
    repeat (destruct H as [H|H]; [discriminate|]). exact H. }
  assert (H2 : Forall (fun c => is_alpha c = true) (js "js"))
    by (repeat constructor).
  assert (H3 : Forall (fun c => is_space c = true) []) by constructor.
  assert (H4 : filename "console.log").
  { exists (js "console"), (js "log"). split; [reflexivity|].
    split; [discriminate|]. split; [repeat constructor|].
    split; [discriminate|repeat constructor]. }
  assert (H5 : starts_in is_pathc "(value);" = false) by reflexivity.
  assert (H6 : trimStart "(value);" <> []) by (vm_compute; discriminate).
  assert (H7 : ~ In "`"%char (js "(value);")).
  { intros H. vm_compute in H.
    repeat (destruct H as [H|H]; [discriminate|]). exact H. }
  split; [exact (conj H1 (conj H2 (conj H3 (conj H4 (conj H5 (conj H6 H7))))))|].
  exact (dotted_name_taken languageLimit "Log the value:\n\n" "js" []
                           "console.log" "(value);" [] H1 H2 H3 H4 H5 H6 H7).
Defined.

End FenceProperties.

Module SectionFacts.

Import IssueAnalyzerService GeminiService RegExpTerms IssueAnalyzerTerms
       GeminiTerms ServiceTerms SectionTerms RegExpFacts StringFacts
       IssueAnalyzerFacts GeminiFacts TextFacts ExtractionFacts FenceFacts.

(** *** Captures do not steer a pattern without groups *)

Lemma step_char_recap p s cs cs' :
  step_char p (MState s cs) = map (recap cs) (step_char p (MState s cs')).
Proof.
  unfold step_char. cbn [rest caps]. destruct s as [|c t]; [reflexivity|].
  destruct (p c); reflexivity.
Qed.

Lemma star_iter_recap g step :
  (forall s cs cs',
      step (MState s cs) = map (recap cs) (step (MState s cs'))) ->
  forall n s cs cs',
    star_iter g step n (MState s cs)
    = map (recap cs) (star_iter g step n (MState s cs')).
Proof.
  intros Hstep. induction n as [|n IH]; intros s cs cs'; [reflexivity|].
  cbn [star_iter rest].
  assert (E : flat_map
                (fun st' => if length (rest st') <? length s
                            then star_iter g step n st' else [])
                (step (MState s cs))
              = map (recap cs)
                    (flat_map
                       (fun st' => if length (rest st') <? length s
                                   then star_iter g step n st' else [])
                       (step (MState s cs')))).
  { rewrite (Hstep s cs cs'). apply flat_map_map_in. intros y _.
    cbn [recap rest].
    destruct (length (rest y) <? length s); [|reflexivity].
    destruct y as [r c]. cbn [rest]. apply IH. }
  rewrite E. destruct g; cbn [map].
  - rewrite map_app. reflexivity.
  - reflexivity.
Qed.

Lemma run_recap r :
  nogroups r = true ->
  forall s cs cs',
    run r (MState s cs) = map (recap cs) (run r (MState s cs')).
Proof.
  induction r as [ |c|c|p|a IHa b IHb|a IHa b IHb|g a IHa|i a IHa|a IHa| ];
    cbn [nogroups]; intros HG s cs cs'; try discriminate.
  - reflexivity.
  - apply step_char_recap.
  - apply step_char_recap.
  - apply step_char_recap.
  - apply andb_prop in HG. destruct HG as [Ga Gb].
    rewrite !run_Seq_eq. rewrite (IHa Ga s cs cs').
    apply flat_map_map_in. intros y _. destruct y as [r c].
    cbn [recap rest]. apply (IHb Gb).
  - apply andb_prop in HG. destruct HG as [Ga Gb].
    rewrite !run_Alt_eq, map_app, <- (IHa Ga), <- (IHb Gb). reflexivity.
  - cbn [run rest]. apply star_iter_recap. exact (IHa HG).
  - cbn [run]. rewrite (IHa HG s cs cs').
    destruct (run a (MState s cs')) as [|x l]; reflexivity.
  - cbn [run rest]. destruct s; reflexivity.
Qed.

Lemma run_recap_nil r s cs :
  nogroups r = true ->
  test_anchored r s = false -> run r (MState s cs) = [].
Proof.
  intros HG H. rewrite (run_recap r HG s cs []).
  unfold test_anchored, match_here, start in H.
  destruct (run r (MState s [])); [reflexivity|discriminate].
Qed.

Lemma run_recap_head r s cs :
  nogroups r = true ->
  test_anchored r s = true ->
  exists x l, run r (MState s cs) = x :: l /\ caps x = cs.
Proof.
  intros HG H. rewrite (run_recap r HG s cs []).
  unfold test_anchored, match_here, start in H.
  destruct (run r (MState s [])) as [|x l]; [discriminate|].
  exists (recap cs x), (map (recap cs) l). split; reflexivity.
Qed.

(** *** The test that fails at every position *)

Lemma nowhere_spec test b t :
  nowhere test b t = true ->
  forall u v, b = u ++ v -> v <> [] -> test (v ++ t) = false.
Proof.
  induction b as [|c b IH]; intros H u v E Hv.
  - destruct u; destruct v; try discriminate. congruence.
  - cbn [nowhere] in H. apply andb_prop in H. destruct H as [H1 H2].
    destruct u as [|d u].
    + cbn [app] in E. subst v. apply negb_true_iff in H1. exact H1.
    + cbn [app] in E. injection E as _ E. exact (IH H2 u v E Hv).
Qed.

(** *** The lazy body of a section *)

Lemma lazy_star_here s cs :
  exists more,
    run (Star false (Cls any_char)) (MState s cs) = MState s cs :: more.
Proof.
  change (run (Star false (Cls any_char)) (MState s cs))
    with (star_iter false (run (Cls any_char)) (length s) (MState s cs)).
  destruct (length s); cbn [star_iter]; eexists; reflexivity.
Qed.

Lemma lazy_star_next x s cs :
  run (Star false (Cls any_char)) (MState (x :: s) cs)
  = MState (x :: s) cs :: run (Star false (Cls any_char)) (MState s cs).
Proof.
  change (run (Star false (Cls any_char)) (MState (x :: s) cs))
    with (star_iter false (run (Cls any_char)) (S (length s))
                    (MState (x :: s) cs)).
  change (run (Star false (Cls any_char)) (MState s cs))
    with (star_iter false (run (Cls any_char)) (length s) (MState s cs)).
  cbn [star_iter]. rewrite any_step. cbn [flat_map rest length].
  assert (Hlt : (length s <? S (length s)) = true)
    by (apply Nat.ltb_lt; lia).
  rewrite Hlt, app_nil_r. reflexivity.
Qed.

Lemma lazy_first (K : mstate -> list mstate) (f : mstate -> mstate)
      t cs y l b :
  (forall u v, b = u ++ v -> v <> [] -> K (f (MState (v ++ t) cs)) = []) ->
  K (f (MState t cs)) = y :: l ->
  exists l',
    flat_map K (map f (run (Star false (Cls any_char)) (MState (b ++ t) cs)))
    = y :: l'.
Proof.
  induction b as [|x b IH]; intros Hfail Hend.
  - cbn [app]. destruct (lazy_star_here t cs) as [more ->].
    cbn [map flat_map]. rewrite Hend. eexists. reflexivity.
  - change ((x :: b) ++ t) with (x :: (b ++ t)). rewrite lazy_star_next.
    cbn [map flat_map].
    change (x :: b ++ t) with ((x :: b) ++ t).
    rewrite (Hfail [] (x :: b) eq_refl) by discriminate.
    cbn [app]. apply IH.
    + intros u v E Hv.
      apply (Hfail (x :: u) v); [rewrite E; reflexivity|exact Hv].
    + exact Hend.
Qed.

(** *** The three section patterns *)

Lemma section_pattern_eq sec :
  section_pattern sec
  = Seq (alts (map liti (label_texts sec)))
        (Seq sectionBody (followedBy (terminators sec))).
Proof. destruct sec; reflexivity. Qed.

Lemma terminators_nogroups sec :
  nogroups (seqs [Chr LF; Star true (Cls is_space); alts (terminators sec)])
  = true.
Proof. destruct sec; reflexivity. Qed.

(** At one of its labels, spelled as in the pattern, the alternation of
    the labels matches in one way. *)
Lemma label_head sec label r cs :
  In label (label_texts sec) ->
  run (alts (map liti (label_texts sec))) (MState (label ++ r) cs)
  = [MState r cs].
Proof.
  intros Hin. destruct sec; cbn [label_texts In] in Hin;
    repeat (destruct Hin as [<-|Hin]; [reflexivity|]); destruct Hin.
Qed.

Lemma followedBy_fail sec s cs :
  ends_section sec s = false -> run (followedBy (terminators sec)) (MState s cs) = [].
Proof.
  intros H. unfold followedBy. cbn [run].
  rewrite (run_recap_nil _ s cs (terminators_nogroups sec) H). reflexivity.
Qed.

Lemma followedBy_head sec s cs :
  ends_section sec s = true ->
  run (followedBy (terminators sec)) (MState s cs) = [MState s cs].
Proof.
  intros H. unfold followedBy. cbn [run].
  destruct (run_recap_head _ s cs (terminators_nogroups sec) H)
    as [x [l [E Hc]]].
  rewrite E. cbn [rest]. rewrite Hc. reflexivity.
Qed.

Lemma section_head sec label sep body tail :
  In label (label_texts sec) ->
  sep <> [] -> Forall (fun c => is_colon_space c = true) sep ->
  body <> [] -> starts_in is_colon_space body = false ->
  nowhere (ends_section sec) body tail = true ->
  ends_section sec tail = true ->
  exists l,
    run (section_pattern sec) (start (label ++ sep ++ body ++ tail))
    = MState tail [(1, body)] :: l.
Proof.
  intros Hlabel Hsep Hcs Hbody Hstart Hfree Hend.
  rewrite section_pattern_eq, run_Seq_eq. unfold start.
  rewrite (label_head sec label _ [] Hlabel). cbn [flat_map].
  rewrite app_nil_r, run_Seq_eq. unfold sectionBody. rewrite run_Seq_eq.
  assert (Hs : starts_in is_colon_space (body ++ tail) = false).
  { destruct body; [congruence|exact Hstart]. }
  destruct (plus_class_full is_colon_space sep (body ++ tail) [] Hsep Hcs Hs)
    as [l1 ->].
  cbn [flat_map]. rewrite flat_map_app.
  rewrite run_Group_eq.
  destruct (lazy_first (run (followedBy (terminators sec)))
              (fun st' => MState (rest st')
                            ((1, consumed (MState (body ++ tail) []) st')
                               :: caps st'))
              tail [] (MState tail [(1, body)]) [] body) as [l2 E].
  - intros u v Eb Hv. cbn [rest caps]. apply followedBy_fail.
    exact (nowhere_spec _ _ _ Hfree u v Eb Hv).
  - cbn [rest caps].
    rewrite (consumed_app (MState (body ++ tail) []) (MState tail []) body
                          eq_refl).
    apply followedBy_head. exact Hend.
  - rewrite E. eexists. reflexivity.
Qed.

End SectionFacts.

Module SectionProperties.

Import IssueAnalyzerService GeminiService RegExpTerms IssueAnalyzerTerms
       GeminiTerms ServiceTerms SectionTerms RegExpFacts StringFacts
       IssueAnalyzerFacts GeminiFacts TextFacts ExtractionFacts FenceFacts
       SectionFacts.

(** X14. [parseAIResponse] reads a labelled section as follows.  Let the
    response be [before ++ label ++ sep ++ body ++ tail], where [label]
    is a label of the section spelled as in the pattern, no label of the
    section starts (in any case) at a position of [before], [sep] is a
    non-empty run of colons and white space, [body] is not empty and
    starts with neither, [tail] starts with an end of the section (a
    line break, optional white space and a label or position the pattern
    looks ahead for) and no end of the section starts at a position of
    [body].  Then the field of the section is computed from [body]: the
    analysis and the solution are [body] trimmed, the best practices are
    the items of [body]. *)
Theorem section_captured (sec : section_name)
        (before label sep body tail : str)
        (files : option (list KnownFile)) :
  In label (label_texts sec) ->
  nowhere (starts_label sec) before (label ++ sep ++ body ++ tail) = true ->
  sep <> [] -> Forall (fun c => is_colon_space c = true) sep ->
  body <> [] -> starts_in is_colon_space body = false ->
  nowhere (ends_section sec) body tail = true ->
  ends_section sec tail = true ->
  exists sol,
    parseAIResponse (JStr (before ++ label ++ sep ++ body ++ tail)) files
    = Returns sol /\
    match sec with
    | AnalysisSection => analysis sol = trim body
    | SolutionSection => solution sol = trim body
    | PracticesSection => bestPractices sol = splitPractices body
    end.
Proof.
  intros Hlabel Hbefore Hsep Hcs Hbody Hstart Hfree Hend.
  assert (Hm : sectionText
                 (str_match (section_pattern sec)
                            (before ++ label ++ sep ++ body ++ tail))
               = Some body).
  { unfold str_match. rewrite search_skip.
    - destruct (section_head sec label sep body tail Hlabel Hsep Hcs Hbody
                             Hstart Hfree Hend) as [l Hhead].
      assert (Hhere : match_here (section_pattern sec)
                                 ((label ++ sep ++ body) ++ tail)
                      = Some (RMatch (label ++ sep ++ body) tail [(1, body)])).
      { apply match_here_head. exists l. rewrite <- !app_assoc.
        exact Hhead. }
      rewrite <- !app_assoc in Hhere.
      rewrite (search_here _ _ _ Hhere).
      unfold sectionText, group_or_empty, group. cbn [m_caps lookup Nat.eqb].
      destruct body; [congruence|reflexivity].
    - intros u v E Hv. unfold match_here.
      rewrite section_pattern_eq, run_Seq_eq.
      pose proof (nowhere_spec _ _ _ Hbefore u v E Hv) as Hno.
      unfold starts_label, test_anchored, match_here in Hno.
      destruct (run (alts (map liti (label_texts sec)))
                    (start (v ++ label ++ sep ++ body ++ tail)));
        [reflexivity|discriminate]. }
  rewrite parse_fields. eexists. split; [reflexivity|].
  destruct sec; cbn [section_pattern] in Hm;
    cbn [analysis solution bestPractices]; rewrite Hm; reflexivity.
Qed.

Lemma section_captured_witness :
  let before := js "Analysis: The bound is off by one\n" in
  let sep := js ": " in
  let body := js "Compare with < and not with <=\nthen run the tests" in
  let tail := js "\n\nBest Practices:\n- Test the bounds\n" in
  (In (js "Solution") (label_texts SolutionSection) /\
   nowhere (starts_label SolutionSection) before
           (js "Solution" ++ sep ++ body ++ tail) = true /\
   sep <> [] /\ Forall (fun c => is_colon_space c = true) sep /\
   body <> [] /\ starts_in is_colon_space body = false /\
   nowhere (ends_section SolutionSection) body tail = true /\
   ends_section SolutionSection tail = true) /\
  exists sol,
    parseAIResponse (JStr (before ++ js "Solution" ++ sep ++ body ++ tail))
                    None
    = Returns sol /\
    solution sol = trim body.
Proof.
  intros before sep body tail.
  assert (H1 : In (js "Solution") (label_texts SolutionSection))
    by (left; reflexivity).
  assert (H2 : nowhere (starts_label SolutionSection) before
                       (js "Solution" ++ sep ++ body ++ tail) = true)
    by (vm_compute; reflexivity).
  assert (H3 : sep <> []) by discriminate.
  assert (H4 : Forall (fun c => is_colon_space c = true) sep)
    by (repeat constructor).
  assert (H5 : body <> []) by discriminate.
  assert (H6 : starts_in is_colon_space body = false) by reflexivity.
  assert (H7 : nowhere (ends_section SolutionSection) body tail = true)
    by (vm_compute; reflexivity).
  assert (H8 : ends_section SolutionSection tail = true)
    by (vm_compute; reflexivity).
  split; [exact (conj H1 (conj H2 (conj H3 (conj H4 (conj H5 (conj H6
                   (conj H7 H8)))))))|].
  exact (section_captured SolutionSection before (js "Solution") sep body tail
                          None H1 H2 H3 H4 H5 H6 H7 H8).
Defined.

End SectionProperties.

(** * Properties of the parser of repository URLs *)

Module GitHubFacts.

Import GitHubService RegExpTerms ServiceTerms StringFacts TextFacts.

Lemma nth_0_hd (l : list str) : nth 0 l [] = hd [] l.
Proof. destruct l; reflexivity. Qed.

(** The two guards of [parseRepoUrl] and its result, in terms of the
    first occurrences of the separators. *)
Lemma parseRepoUrl_eq repoUrl :
  parseRepoUrl repoUrl
  = if includes repoUrl "github.com/"
    then
      let afterHost := before "github.com/" (after "github.com/" repoUrl) in
      if includes afterHost "/"
      then Ok (mkRepository
                 (before "/" afterHost)
                 (before "?" (before "#" (before "/" (after "/" afterHost)))))
      else Err "Failed to parse GitHub URL: Invalid GitHub URL format"
    else Err "Failed to parse GitHub URL: Invalid GitHub URL".
Proof.
  assert (Hhost : js "github.com/" <> []) by (vm_compute; discriminate).
  assert (Hslash : js "/" <> []) by (vm_compute; discriminate).
  assert (Hhash : js "#" <> []) by (vm_compute; discriminate).
  assert (Hquery : js "?" <> []) by (vm_compute; discriminate).
  unfold parseRepoUrl, part.
  rewrite split_str_length by assumption.
  destruct (includes repoUrl "github.com/") eqn:Hi; [|reflexivity].
  cbn [negb]. rewrite split_str_second by assumption.
  rewrite split_str_length by assumption.
  destruct (includes (before "github.com/" (after "github.com/" repoUrl)) "/")
    eqn:Hj; [|reflexivity].
  cbn [negb rethrow].
  rewrite split_str_second by assumption.
  rewrite !nth_0_hd, !split_str_hd by assumption.
  reflexivity.
Qed.

Lemma free_of_not_In p s c : free_of p s -> p c = true -> ~ In c s.
Proof.
  intros H Hc Hin. unfold free_of in H. rewrite Forall_forall in H.
  specialize (H c Hin). congruence.
Qed.

Lemma free_of_slash s : ~ In "/"%char s -> free_of is_slash s.
Proof.
  intros H. apply Forall_forall. intros x Hx. unfold is_slash.
  destruct (Ascii.eqb x "/") eqn:E; [|reflexivity].
  apply Ascii.eqb_eq in E. subst. contradiction.
Qed.

Lemma free_of_ends_name s :
  ~ In "/"%char s -> ~ In "#"%char s -> ~ In "?"%char s -> free_of ends_name s.
Proof.
  intros H1 H2 H3. apply Forall_forall. intros x Hx. unfold ends_name.
  destruct (Ascii.eqb x "/") eqn:E1;
    [apply Ascii.eqb_eq in E1; subst; contradiction|].
  destruct (Ascii.eqb x "#") eqn:E2;
    [apply Ascii.eqb_eq in E2; subst; contradiction|].
  destruct (Ascii.eqb x "?") eqn:E3;
    [apply Ascii.eqb_eq in E3; subst; contradiction|].
  reflexivity.
Qed.

Lemma before_char_miss c d t : c <> d -> before [c] (d :: t) = d :: before [c] t.
Proof.
  intros H. cbn [before]. rewrite prefixb_char. cbn [starts_in].
  destruct (Ascii.eqb c d) eqn:E; [apply Ascii.eqb_eq in E; contradiction|].
  reflexivity.
Qed.

(** The name of the repository ends at the first slash, hash or question
    mark. *)
Lemma name_cut name tail :
  free_of ends_name name ->
  starts_in ends_name tail = true \/ tail = [] ->
  before "?" (before "#" (before "/" (name ++ tail))) = name.
Proof.
  intros Hn Ht.
  assert (H1 : ~ In "/"%char name) by (eapply free_of_not_In; [eassumption|reflexivity]).
  assert (H2 : ~ In "#"%char name) by (eapply free_of_not_In; [eassumption|reflexivity]).
  assert (H3 : ~ In "?"%char name) by (eapply free_of_not_In; [eassumption|reflexivity]).
  change (js "?") with ["?"%char]. change (js "#") with ["#"%char].
  change (js "/") with ["/"%char].
  destruct Ht as [Ht | ->].
  - destruct tail as [|d t]; [discriminate|]. cbn [starts_in] in Ht.
    unfold ends_name in Ht. apply orb_true_iff in Ht. destruct Ht as [Ht|Ht];
      [apply orb_true_iff in Ht; destruct Ht as [Ht|Ht]|];
      apply Ascii.eqb_eq in Ht; subst d.
    + rewrite (before_char_cut "/" name t H1).
      rewrite (before_char_all "#" name H2), (before_char_all "?" name H3).
      reflexivity.
    + rewrite (before_char_skip "/" name _ H1).
      rewrite (before_char_miss "/" "#") by discriminate.
      rewrite (before_char_cut "#" name _ H2).
      rewrite (before_char_all "?" name H3). reflexivity.
    + rewrite (before_char_skip "/" name _ H1).
      rewrite (before_char_miss "/" "?") by discriminate.
      rewrite (before_char_skip "#" name _ H2).
      rewrite (before_char_miss "#" "?") by discriminate.
      rewrite (before_char_cut "?" name _ H3). reflexivity.
  - rewrite app_nil_r.
    rewrite (before_char_all "/" name H1), (before_char_all "#" name H2),
      (before_char_all "?" name H3).
    reflexivity.
Qed.

End GitHubFacts.

Module GitHubProperties.

Import GitHubService RegExpTerms ServiceTerms StringFacts TextFacts GitHubFacts.

(** X15.  What [parseRepoUrl] returns for any string.  Without an
    occurrence of [github.com/] it throws.  Otherwise it looks at the
    text between the first occurrence of [github.com/] and the next one
    (or the end): without a slash in it, it throws; with one, the owner
    is the text before the first slash and the repository is the text
    after it up to the first slash, hash or question mark. *)
Theorem parseRepoUrl_cuts (repoUrl : str) :
  parseRepoUrl repoUrl
  = if includes repoUrl "github.com/"
    then
      let afterHost := before "github.com/" (after "github.com/" repoUrl) in
      if includes afterHost "/"
      then Ok (mkRepository
                 (before "/" afterHost)
                 (before "?" (before "#" (before "/" (after "/" afterHost)))))
      else Err "Failed to parse GitHub URL: Invalid GitHub URL format"
    else Err "Failed to parse GitHub URL: Invalid GitHub URL".
Proof. apply parseRepoUrl_eq. Qed.

(** X16.  The two errors of [parseRepoUrl].  The message is
    [Failed to parse GitHub URL: Invalid GitHub URL] exactly when the
    string does not contain [github.com/]; it is
    [Failed to parse GitHub URL: Invalid GitHub URL format] exactly when
    it does and no slash follows before the next [github.com/], as in
    [https://github.com/owner]; there is no other message. *)
Theorem parseRepoUrl_errors (repoUrl : str) :
  (parseRepoUrl repoUrl = Err "Failed to parse GitHub URL: Invalid GitHub URL"
   <-> ~ contains repoUrl "github.com/") /\
  (parseRepoUrl repoUrl
   = Err "Failed to parse GitHub URL: Invalid GitHub URL format"
   <-> contains repoUrl "github.com/" /\
       ~ In "/"%char (before "github.com/" (after "github.com/" repoUrl))) /\
  (forall message,
      parseRepoUrl repoUrl = Err message ->
      message = js "Failed to parse GitHub URL: Invalid GitHub URL" \/
      message = js "Failed to parse GitHub URL: Invalid GitHub URL format").
Proof.
  rewrite parseRepoUrl_eq.
  pose proof (includes_spec "github.com/" repoUrl) as Hc.
  fold (contains repoUrl "github.com/") in Hc.
  pose proof (includes_char "/"
                (before "github.com/" (after "github.com/" repoUrl))) as Hs.
  change ["/"%char] with (js "/") in Hs.
  destruct (includes repoUrl "github.com/").
  - cbv zeta.
    destruct (includes (before "github.com/" (after "github.com/" repoUrl)) "/").
    + split; [|split].
      * split; [discriminate|]. intros H. exfalso. apply H, Hc. reflexivity.
      * split; [discriminate|]. intros [_ H]. exfalso. apply H, Hs. reflexivity.
      * discriminate.
    + split; [|split].
      * split; [intros H; vm_compute in H; discriminate|].
        intros H. exfalso. apply H, Hc. reflexivity.
      * split; [|reflexivity]. intros _. split; [apply Hc; reflexivity|].
        intros H. apply Hs in H. discriminate.
      * intros message H. injection H as <-. right. reflexivity.
  - split; [|split].
    + split; [|reflexivity]. intros _ H. apply Hc in H. discriminate.
    + split; [intros H; vm_compute in H; discriminate|].
      intros [H _]. apply Hc in H. discriminate.
    + intros message H. injection H as <-. left. reflexivity.
Qed.

(** X17.  A URL [scheme github.com/ owner / name tail] gives back the
    owner and the name, when [github.com/] occurs in it only once, the
    owner holds no slash, the name holds no slash, hash or question mark,
    and the tail is empty or starts with one of these three characters. *)
Theorem parseRepoUrl_canonical (scheme owner name tail : str) :
  includes (scheme ++ js "github.com") "github.com/" = false ->
  includes (owner ++ "/"%char :: name ++ tail) "github.com/" = false ->
  free_of is_slash owner -> free_of ends_name name ->
  starts_in ends_name tail = true \/ tail = [] ->
  parseRepoUrl (scheme ++ js "github.com/" ++ owner ++ "/"%char :: name ++ tail)
  = Ok (mkRepository owner name).
Proof.
  intros Hscheme Hrest Howner Hname Htail.
  assert (Hhost : js "github.com/" <> []) by (vm_compute; discriminate).
  destruct (before_first (js "github.com/") scheme
                         (owner ++ "/"%char :: name ++ tail) Hhost Hscheme)
    as (_ & Ha & Hi).
  rewrite parseRepoUrl_eq, Hi, Ha. cbv zeta.
  rewrite (before_none _ _ Hrest).
  assert (Hslash : ~ In "/"%char owner)
    by (eapply free_of_not_In; [eassumption|reflexivity]).
  assert (Hin : includes (owner ++ "/"%char :: name ++ tail) "/" = true).
  { apply (includes_char "/"). apply in_or_app. right. left. reflexivity. }
  rewrite Hin.
  change (js "/") with ["/"%char] at 1 2 3.
  rewrite (before_char_cut "/" owner _ Hslash).
  rewrite (after_char_cut "/" owner _ Hslash).
  change ["/"%char] with (js "/").
  rewrite name_cut by assumption. reflexivity.
Qed.

Lemma parseRepoUrl_canonical_witness :
  (includes (js "https://" ++ js "github.com") "github.com/" = false /\
   includes (js "octocat" ++ "/"%char :: js "hello-world" ++ js "/issues/3")
            "github.com/" = false /\
   free_of is_slash "octocat" /\ free_of ends_name "hello-world" /\
   (starts_in ends_name "/issues/3" = true \/ js "/issues/3" = [])) /\
  parseRepoUrl (js "https://" ++ js "github.com/" ++ js "octocat"
                  ++ "/"%char :: js "hello-world" ++ js "/issues/3")
  = Ok (mkRepository "octocat" "hello-world").
Proof.
  assert (H1 : includes (js "https://" ++ js "github.com") "github.com/" = false)
    by reflexivity.
  assert (H2 : includes (js "octocat" ++ "/"%char :: js "hello-world"
                           ++ js "/issues/3") "github.com/" = false)
    by reflexivity.
  assert (H3 : free_of is_slash "octocat")
    by (repeat constructor).
  assert (H4 : free_of ends_name "hello-world")
    by (repeat constructor).
  assert (H5 : starts_in ends_name "/issues/3" = true \/ js "/issues/3" = [])
    by (left; reflexivity).
  split; [exact (conj H1 (conj H2 (conj H3 (conj H4 H5))))|].
  exact (parseRepoUrl_canonical "https://" "octocat" "hello-world" "/issues/3"
                                H1 H2 H3 H4 H5).
Defined.

(** X18.  Whatever [parseRepoUrl] returns is in the URL: the URL
    contains [github.com/], the owner, a slash and the repository in a
    row; the owner holds no slash and the repository no slash, hash or
    question mark.  Either may be empty. *)
Theorem parseRepoUrl_sound (repoUrl : str) (r : Repository) :
  parseRepoUrl repoUrl = Ok r ->
  free_of is_slash (owner r) /\ free_of ends_name (repo r) /\
  exists scheme tail,
    repoUrl = scheme ++ js "github.com/" ++ owner r ++ "/"%char :: repo r ++ tail.
Proof.
  rewrite parseRepoUrl_eq.
  destruct (includes repoUrl "github.com/") eqn:Hi; [|discriminate].
  cbv zeta.
  destruct (includes (before "github.com/" (after "github.com/" repoUrl)) "/")
    eqn:Hj; [|discriminate].
  intros H. injection H as <-. cbn [owner repo].
  set (afterHost := before "github.com/" (after "github.com/" repoUrl)) in *.
  set (name1 := before "/" (after "/" afterHost)).
  assert (F1 : ~ In "/"%char name1) by apply (before_char_free "/").
  assert (F2 : ~ In "#"%char (before "#" name1)) by apply (before_char_free "#").
  split; [|split].
  - apply free_of_slash. apply (before_char_free "/").
  - apply free_of_ends_name.
    + apply before_keeps_free, before_keeps_free, F1.
    + apply before_keeps_free, F2.
    + apply (before_char_free "?").
  - destruct (before_prefix "?" (before "#" name1)) as [v3 H3].
    destruct (before_prefix "#" name1) as [v2 H2].
    destruct (before_prefix "/" (after "/" afterHost)) as [v1 H1].
    fold name1 in H1.
    destruct (before_prefix "github.com/" (after "github.com/" repoUrl))
      as [v0 H0].
    fold afterHost in H0.
    pose proof (before_after "/" afterHost Hj) as Hcut.
    pose proof (before_after "github.com/" repoUrl Hi) as Hurl.
    exists (before "github.com/" repoUrl), (v3 ++ v2 ++ v1 ++ v0).
    rewrite Hurl at 1. f_equal. f_equal.
    rewrite H0, Hcut, H1, H2, H3 at 1.
    change (js "/") with ["/"%char].
    rewrite <- !app_assoc. reflexivity.
Qed.

Lemma parseRepoUrl_sound_witness :
  parseRepoUrl "git@github.com/a/b.git#main" = Ok (mkRepository "a" "b.git") /\
  free_of is_slash "a" /\ free_of ends_name "b.git" /\
  exists scheme tail,
    js "git@github.com/a/b.git#main"
    = scheme ++ js "github.com/" ++ js "a" ++ "/"%char :: js "b.git" ++ tail.
Proof.
  assert (H : parseRepoUrl "git@github.com/a/b.git#main"
              = Ok (mkRepository "a" "b.git")) by reflexivity.
  split; [exact H|].
  exact (parseRepoUrl_sound "git@github.com/a/b.git#main"
                            (mkRepository "a" "b.git") H).
Defined.

(** X19.  A second occurrence of [github.com/] cuts the URL short: when
    the name of the repository ends in [github.com] and a slash follows,
    the repository returned is the name without that ending. *)
Theorem parseRepoUrl_second_host (scheme owner name tail : str) :
  includes (scheme ++ js "github.com") "github.com/" = false ->
  includes (owner ++ "/"%char :: name ++ js "github.com") "github.com/" = false ->
  free_of is_slash owner -> free_of ends_name name ->
  parseRepoUrl (scheme ++ js "github.com/" ++ owner ++ "/"%char :: name
                  ++ js "github.com/" ++ tail)
  = Ok (mkRepository owner name).
Proof.
  intros Hscheme Hrest Howner Hname.
  assert (Hhost : js "github.com/" <> []) by (vm_compute; discriminate).
  destruct (before_first (js "github.com/") scheme
              (owner ++ "/"%char :: name ++ js "github.com/" ++ tail)
              Hhost Hscheme) as (_ & Ha & Hi).
  rewrite parseRepoUrl_eq, Hi, Ha. cbv zeta.
  assert (Hre : owner ++ "/"%char :: name ++ js "github.com/" ++ tail
                = (owner ++ "/"%char :: name) ++ js "github.com/" ++ tail)
    by (rewrite <- app_assoc; reflexivity).
  rewrite Hre.
  assert (Hrest' : includes ((owner ++ "/"%char :: name)
                               ++ removelast (js "github.com/"))
                            "github.com/" = false)
    by (rewrite <- app_assoc; exact Hrest).
  destruct (before_first (js "github.com/") (owner ++ "/"%char :: name) tail
                         Hhost Hrest') as (Hb & _ & _).
  rewrite Hb.
  assert (Hslash : ~ In "/"%char owner)
    by (eapply free_of_not_In; [eassumption|reflexivity]).
  assert (Hin : includes (owner ++ "/"%char :: name) "/" = true).
  { apply (includes_char "/"). apply in_or_app. right. left. reflexivity. }
  rewrite Hin.
  change (js "/") with ["/"%char] at 1 2 3.
  rewrite (before_char_cut "/" owner _ Hslash).
  rewrite (after_char_cut "/" owner _ Hslash).
  change ["/"%char] with (js "/").
  rewrite <- (app_nil_r name) at 1.
  rewrite name_cut; auto.
Qed.

Lemma parseRepoUrl_second_host_witness :
  (includes (js "https://" ++ js "github.com") "github.com/" = false /\
   includes (js "octocat" ++ "/"%char :: js "octocat." ++ js "github.com")
            "github.com/" = false /\
   free_of is_slash "octocat" /\ free_of ends_name "octocat.") /\
  parseRepoUrl (js "https://" ++ js "github.com/" ++ js "octocat"
                  ++ "/"%char :: js "octocat." ++ js "github.com/" ++ js "issues")
  = Ok (mkRepository "octocat" "octocat.").
Proof.
  assert (H1 : includes (js "https://" ++ js "github.com") "github.com/" = false)
    by reflexivity.
  assert (H2 : includes (js "octocat" ++ "/"%char :: js "octocat."
                           ++ js "github.com") "github.com/" = false)
    by reflexivity.
  assert (H3 : free_of is_slash "octocat") by (repeat constructor).
  assert (H4 : free_of ends_name "octocat.") by (repeat constructor).
  split; [exact (conj H1 (conj H2 (conj H3 H4)))|].
  exact (parseRepoUrl_second_host "https://" "octocat" "octocat." "issues"
                                  H1 H2 H3 H4).
Defined.

End GitHubProperties.

(** * Properties of the routes *)

Module RoutesFacts.

Import IssueAnalyzerService RepoRoutes IssueRoutes RegExpTerms IssueAnalyzerTerms
       ServiceTerms RegExpFacts StringFacts IssueAnalyzerFacts TextFacts.

(** *** The extension of a path *)

Lemma lastIndexFrom_none c s : forall i found,
  ~ In c s -> lastIndexFrom c i found s = found.
Proof.
  induction s as [|x t IH]; intros i found H; [reflexivity|].
  cbn [lastIndexFrom].
  destruct (Ascii.eqb x c) eqn:E.
  - apply Ascii.eqb_eq in E. exfalso. apply H. left. exact E.
  - apply IH. intros Hin. apply H. right. exact Hin.
Qed.

Lemma lastIndexFrom_last c stem e : forall i found,
  ~ In c e ->
  lastIndexFrom c i found (stem ++ c :: e) = (i + Z.of_nat (length stem))%Z.
Proof.
  induction stem as [|x stem IH]; intros i found H.
  - cbn [app lastIndexFrom]. rewrite Ascii.eqb_refl.
    rewrite lastIndexFrom_none by assumption. simpl. lia.
  - change ((x :: stem) ++ c :: e) with (x :: (stem ++ c :: e)).
    cbn [lastIndexFrom]. rewrite IH by assumption.
    cbn [length]. lia.
Qed.

Lemma extensions_dotted :
  Forall (fun ext => exists e, ext = "."%char :: e /\ ~ In "."%char e)
         codeFileExtensions.
Proof.
  unfold codeFileExtensions.
  repeat (apply Forall_cons;
          [eexists; split; [reflexivity|];
           simpl; intros H;
           repeat (destruct H as [H|H]; [discriminate|]); exact H|]).
  apply Forall_nil.
Qed.

Lemma isCodeFile_extension p :
  isCodeFile p = true <-> has_extension codeFileExtensions p.
Proof.
  unfold isCodeFile, has_extension. split.
  - destruct (includes p "."); [|discriminate].
    intros H. apply existsb_exists in H. destruct H as (ext & Hin & He).
    apply str_eqb_eq in He. unfold substring in He.
    exists (firstn (Z.to_nat (lastIndexOf p ".")) p), ext.
    split; [|exact Hin]. rewrite <- He. symmetry. apply firstn_skipn.
  - intros (stem & ext & -> & Hin).
    pose proof extensions_dotted as Hd. rewrite Forall_forall in Hd.
    destruct (Hd ext Hin) as (e & -> & He).
    assert (Hi : includes (stem ++ "."%char :: e) "." = true).
    { apply (includes_char "."). apply in_or_app. right. left. reflexivity. }
    rewrite Hi. apply existsb_exists. exists ("."%char :: e).
    split; [exact Hin|]. apply str_eqb_eq.
    unfold substring, lastIndexOf.
    rewrite lastIndexFrom_last by assumption.
    rewrite Z.add_0_l, Nat2Z.id.
    rewrite skipn_app, skipn_all, Nat.sub_diag. reflexivity.
Qed.

End RoutesFacts.

Module NumberFacts.

Import IssueRoutes RegExpTerms IssueAnalyzerTerms ServiceTerms RegExpFacts
       StringFacts IssueAnalyzerFacts TextFacts.

Lemma digit_char_digit d :
  (0 <= d < 10)%Z ->
  is_digit (digit_char d) = true /\ digit_val (digit_char d) = d.
Proof.
  intros H.
  assert (Hd : (d = 0 \/ d = 1 \/ d = 2 \/ d = 3 \/ d = 4 \/ d = 5 \/ d = 6
                \/ d = 7 \/ d = 8 \/ d = 9)%Z) by lia.
  repeat (destruct Hd as [->|Hd]; [split; reflexivity|]).
  subst. split; reflexivity.
Qed.

Lemma digits_acc_snoc x c : forall a,
  Forall (fun c => is_digit c = true) x -> is_digit c = true ->
  digits_acc a (x ++ [c]) = (10 * digits_acc a x + digit_val c)%Z.
Proof.
  induction x as [|y x IH]; intros a Hx Hc.
  - simpl. rewrite Hc. reflexivity.
  - inversion Hx as [|? ? Hy Hx']; subst.
    change ((y :: x) ++ [c]) with (y :: (x ++ [c])).
    cbn [digits_acc]. rewrite Hy. apply IH; assumption.
Qed.

Lemma decimal_acc_app fuel : forall n acc,
  decimal_acc fuel n acc = decimal_acc fuel n [] ++ acc.
Proof.
  induction fuel as [|fuel IH]; intros n acc; [reflexivity|].
  cbn [decimal_acc]. destruct (n <? 10)%Z; [reflexivity|].
  rewrite IH. rewrite (IH _ [_]). rewrite <- app_assoc. reflexivity.
Qed.

Lemma decimal_acc_value fuel : forall n,
  (0 <= n < 10 ^ Z.of_nat (S fuel))%Z ->
  numeral (decimal_acc (S fuel) n []) /\ value (decimal_acc (S fuel) n []) = n.
Proof.
  induction fuel as [|fuel IH]; intros n H;
    change (decimal_acc (S ?f) n [])
      with (if (n <? 10)%Z then [digit_char (n mod 10)]
            else decimal_acc f (n / 10) [digit_char (n mod 10)]);
    destruct (n <? 10)%Z eqn:E.
  1, 3: apply Z.ltb_lt in E;
    rewrite Z.mod_small by lia;
    destruct (digit_char_digit n) as [Hd Hv]; [lia|];
    split;
    [split; [discriminate|]; constructor; [exact Hd|constructor]
    |unfold value; cbn [digits_acc]; rewrite Hd; cbn [digits_acc];
     rewrite Hv; lia].
  - apply Z.ltb_ge in E. change (10 ^ Z.of_nat 1)%Z with 10%Z in H. lia.
  - apply Z.ltb_ge in E.
    rewrite decimal_acc_app.
    assert (Hq : (0 <= n / 10 < 10 ^ Z.of_nat (S fuel))%Z).
    { split; [apply Z.div_pos; lia|].
      apply Z.div_lt_upper_bound; [lia|].
      rewrite (Nat2Z.inj_succ (S fuel)), Z.pow_succ_r in H by lia. lia. }
    destruct (IH _ Hq) as [[Hne Hall] Hval].
    destruct (digit_char_digit (n mod 10)) as [Hd Hv];
      [apply Z.mod_pos_bound; lia|].
    split.
    + split.
      * intros Habs. apply app_eq_nil in Habs. destruct Habs; discriminate.
      * apply Forall_app. split; [exact Hall|].
        constructor; [exact Hd|constructor].
    + unfold value in *. rewrite digits_acc_snoc by assumption.
      rewrite Hval, Hv. symmetry. apply Z.div_mod. lia.
Qed.

(** The decimal notation of a natural number is a numeral that
    [parseInt] reads back as the number. *)
Lemma decimal_value n :
  (0 <= n)%Z -> numeral (decimal n) /\ value (decimal n) = n.
Proof.
  intros H. unfold decimal. apply decimal_acc_value.
  split; [exact H|].
  rewrite Nat2Z.inj_succ, Z2Nat.id by apply Z.log2_nonneg.
  destruct (Z.eq_dec n 0) as [->|Hn]; [reflexivity|].
  destruct (Z.log2_spec n) as [_ Hlt]; [lia|].
  eapply Z.lt_le_trans; [exact Hlt|].
  apply Z.pow_le_mono_l. split; [lia|lia].
Qed.

Lemma numeral_no_hyphen d : numeral d -> ~ In "-"%char d.
Proof.
  intros [_ H] Hin. rewrite Forall_forall in H. specialize (H _ Hin).
  discriminate.
Qed.

Lemma numeral_not_AI d : numeral d -> prefixb "AI-" d = false.
Proof.
  intros [Hne H]. destruct d as [|c t]; [congruence|].
  inversion H as [|? ? Hc _]; subst.
  change (prefixb "AI-" (c :: t)) with (Ascii.eqb "A" c && prefixb "I-" t).
  destruct (Ascii.eqb "A" c) eqn:E; [|reflexivity].
  apply Ascii.eqb_eq in E. subst. discriminate.
Qed.

Lemma split_str_cut_at sep u t :
  sep <> [] -> includes (u ++ removelast sep) sep = false ->
  includes t sep = false ->
  split_str sep 0 [] (u ++ sep ++ t) = [u; t].
Proof.
  intros Hsep Hu Ht.
  destruct (before_first sep u t Hsep Hu) as (Hb & Ha & Hi).
  rewrite split_str_first, Hi, Hb, Ha by assumption.
  rewrite split_str_first, Ht by assumption. reflexivity.
Qed.

(** *** The numeric pattern *)

Lemma numericPattern_numeral s :
  test_anchored numericPattern s = true <-> numeral s.
Proof.
  unfold test_anchored, numericPattern. split.
  - destruct (match_here _ s) as [m|] eqn:E; [|discriminate]. intros _.
    apply match_here_Some in E. destruct E as (st' & l & Hrun & _).
    assert (Hin : In st' (run (Seq (Plus true (Cls is_digit)) Eos) (start s)))
      by (rewrite Hrun; left; reflexivity).
    apply In_run_Seq in Hin. destruct Hin as (mid & Hmid & Hend).
    apply (run_reads (fun c => is_digit c = true) _ digits_reads) in Hmid.
    destruct Hmid as (w & Hw & Hall & Hlen).
    cbn [run] in Hend. destruct (rest mid) eqn:Er; [|contradiction].
    cbn [start rest] in Hw. rewrite app_nil_r in Hw. subst w.
    apply numeral_of_read; assumption.
  - intros [Hne Hall].
    assert (Hin : In (MState [] []) (run (Plus true (Cls is_digit)) (MState (s ++ []) [])))
      by (apply plus_class_In; assumption).
    rewrite app_nil_r in Hin.
    assert (Hrun : In (MState [] [])
                      (run (Seq (Plus true (Cls is_digit)) Eos) (start s))).
    { apply In_run_Seq. exists (MState [] []). split; [exact Hin|].
      left. reflexivity. }
    unfold match_here.
    destruct (run (Seq (Plus true (Cls is_digit)) Eos) (start s));
      [contradiction|reflexivity].
Qed.

(** Below 2^53 a natural number is written with all its digits. *)
Lemma numberToString_safe z :
  (0 <= z < 2 ^ 53)%Z -> numberToString (Int z) = decimal z.
Proof.
  intros [H0 H1]. unfold numberToString, naturalToString.
  destruct (z <? 0)%Z eqn:E; [apply Z.ltb_lt in E; lia|].
  apply Z.ltb_lt in H1. rewrite H1. reflexivity.
Qed.

(** [i + 1] and [i++] on a natural number below 2^53. *)
Lemma number_succ_safe z :
  (0 <= z < 2 ^ 53)%Z -> number_succ (Int z) = Int (z + 1).
Proof.
  intros H. cbn [number_succ]. apply DoubleFacts.toNumber_small.
  rewrite Z.abs_eq by lia. lia.
Qed.

End NumberFacts.

Module AnalysisFacts.

Import IssueAnalyzerService RepoRoutes IssueRoutes RegExpTerms IssueAnalyzerTerms
       ServiceTerms RegExpFacts StringFacts IssueAnalyzerFacts TextFacts
       RoutesFacts FindingFacts NumberFacts.

Section Loop.

Variable World : Type.
Variable fetchFileContent : World -> str -> result str * World.

(** What the loop over the files adds to the results: for each file at
    most the four findings, under the path of the file. *)
Lemma analyzeFile_adds files : forall results w,
  exists added,
    fst (fold_left (analyzeFile fetchFileContent) files (results, w))
    = results ++ added /\
    length added <= 4 * length files /\
    Forall (fun r => In (filePath r) files /\ lineNumbers r = [] /\
                     exists i, In i allFindings /\ r = resultOf (filePath r) i)
           added.
Proof.
  induction files as [|p files IH]; intros results w.
  - exists []. simpl. rewrite app_nil_r. auto.
  - cbn [fold_left].
    assert (Hstep : exists one w',
               analyzeFile fetchFileContent (results, w) p = (results ++ one, w') /\
               length one <= 4 /\
               Forall (fun r => filePath r = p /\ lineNumbers r = [] /\
                                exists i, In i allFindings /\
                                          r = resultOf (filePath r) i) one).
    { unfold analyzeFile.
      destruct (fetchFileContent w p) as [[content|message] w'].
      - pose proof (analyzeCode_sublist (JStr content)) as Hsub.
        destruct (0 <? length (analyzeCode (JStr content))).
        + exists (map (resultOf p) (analyzeCode (JStr content))), w'.
          split; [reflexivity|]. split.
          * rewrite length_map. apply sublist_length in Hsub. exact Hsub.
          * apply Forall_forall. intros r Hr. apply in_map_iff in Hr.
            destruct Hr as (i & <- & Hi). cbn [resultOf filePath lineNumbers].
            split; [reflexivity|]. split; [reflexivity|].
            exists i. split; [|reflexivity].
            eapply sublist_In; eassumption.
        + exists [], w'. rewrite app_nil_r. simpl. split; [reflexivity|].
          split; [lia|constructor].
      - exists [], w'. rewrite app_nil_r. simpl. split; [reflexivity|].
        split; [lia|constructor]. }
    destruct Hstep as (one & w' & -> & Hlen & Hall).
    destruct (IH (results ++ one) w') as (added & Heq & Hlen' & Hall').
    exists (one ++ added). rewrite Heq, <- app_assoc.
    split; [reflexivity|]. split.
    + rewrite length_app. simpl. lia.
    + apply Forall_app. split.
      * eapply Forall_impl; [|exact Hall].
        intros r (Hp & Hl & Hi). split; [left; symmetry; exact Hp|]. auto.
      * eapply Forall_impl; [|exact Hall'].
        intros r (Hp & Hl & Hi). split; [right; exact Hp|]. auto.
Qed.

End Loop.

End AnalysisFacts.

Module RoutesProperties.

Import IssueAnalyzerService RepoRoutes IssueRoutes RegExpTerms IssueAnalyzerTerms
       ServiceTerms RegExpFacts StringFacts DoubleFacts IssueAnalyzerFacts
       TextFacts RoutesFacts NumberFacts AnalysisFacts.

(** X20.  A file of the listing is taken as a code file exactly when its
    path ends with one of the eighteen extensions, in lower case; a
    path without a dot never is. *)
Theorem code_file_extension (p : str) :
  isCodeFile p = true <-> has_extension codeFileExtensions p.
Proof. apply isCodeFile_extension. Qed.

(** X21.  Whatever the downloads return or throw, the analysis of a
    repository looks at no more than ten files, the first ten code files
    of the listing, and reports at most four results per file analyzed.
    Every result names one of these files, whose path ends with one of
    the extensions, carries one of the four findings and has no line
    numbers. *)
Theorem repository_analysis_bounded
        (World : Type) (fetchFileContent : World -> str -> result str * World)
        (repoContents : list str) (w : World) :
  let a := fst (analyzeRepository fetchFileContent repoContents w) in
  filesAnalyzed a <= 10 /\ filesAnalyzed a <= totalFiles a /\
  totalFiles a <= length repoContents /\
  length (analysisResults a) <= 4 * filesAnalyzed a /\
  Forall (fun r =>
            In (filePath r) (firstn 10 (filter isCodeFile repoContents)) /\
            has_extension codeFileExtensions (filePath r) /\
            lineNumbers r = [] /\
            exists i, In i allFindings /\ r = resultOf (filePath r) i)
         (analysisResults a).
Proof.
  unfold analyzeRepository.
  destruct (analyzeFile_adds World fetchFileContent
              (firstn 10 (filter isCodeFile repoContents)) [] w)
    as (added & Heq & Hlen & Hall).
  destruct (fold_left (analyzeFile fetchFileContent)
                      (firstn 10 (filter isCodeFile repoContents)) ([], w))
    as [results w'].
  cbn [fst] in Heq. cbn [app] in Heq. subst results.
  cbn [fst filesAnalyzed totalFiles analysisResults].
  split; [apply firstn_le_length|].
  split; [rewrite length_firstn; lia|].
  split; [apply filter_length_le|].
  split; [exact Hlen|].
  eapply Forall_impl; [|exact Hall].
  intros r (Hp & Hl & Hi). split; [exact Hp|]. split; [|auto].
  apply isCodeFile_extension.
  assert (Hin : In (filePath r) (filter isCodeFile repoContents)).
  { rewrite <- (firstn_skipn 10 (filter isCodeFile repoContents)).
    apply in_or_app. left. exact Hp. }
  apply filter_In in Hin. tauto.
Qed.

(** X22.  The issue number of a route is read as a number exactly when it
    is a decimal numeral, and then as the number nearest to the value of
    the numeral, which is the value itself within the safe integers; any
    other string stays as it is.  It designates an AI issue exactly when
    it starts with [AI-]. *)
Theorem parsedIssueNumber_cases (issueNumber : str) :
  ((numeral issueNumber /\
    parsedIssueNumber issueNumber = Numeric (toNumber (value issueNumber)) /\
    (safe_integer (value issueNumber) ->
     parsedIssueNumber issueNumber = Numeric (Int (value issueNumber)))) \/
   (~ numeral issueNumber /\
    parsedIssueNumber issueNumber = Textual issueNumber)) /\
  isAIIssue (parsedIssueNumber issueNumber) = prefixb "AI-" issueNumber.
Proof.
  unfold parsedIssueNumber.
  destruct (test_anchored numericPattern issueNumber) eqn:E.
  - apply numericPattern_numeral in E. rewrite (@parseInt_numeral _ E).
    split.
    + left. split; [exact E|]. split; [reflexivity|].
      intros Hs. f_equal. apply toNumber_small.
      pose proof (value_nonneg issueNumber). unfold safe_integer in Hs.
      rewrite Z.abs_eq by lia. change (2 ^ 53)%Z with 9007199254740992%Z.
      lia.
    + cbn [isAIIssue]. symmetry. apply numeral_not_AI, E.
  - split; [|reflexivity]. right. split; [|reflexivity].
    intros H. apply numericPattern_numeral in H. congruence.
Qed.

(** Beyond the safe integers the number read is not always the value of
    the numeral: it is the nearest double, and from 21 digits on its
    notation has an exponent. *)
Lemma parsedIssueNumber_rounded :
  parsedIssueNumber "9007199254740993" = Numeric (Int 9007199254740992) /\
  IssueModel.stringOf (parsedIssueNumber "1000000000000000000000")
  = js "1e+21".
Proof. split; vm_compute; reflexivity. Qed.

(** X23.  The number of a new AI issue.  From the stored issue [AI-d],
    [d] a numeral, the next number is the value of [d] plus one and the
    new issue is named [AI-] followed by its decimal notation; naming a
    second issue from the first gives the value plus two.  The values
    are taken within the safe integers. *)
Theorem next_ai_number (d : str) :
  numeral d -> safe_integer (value d + 2) ->
  nextAINumber (Some (js "AI-" ++ d)) = Int (value d + 1)%Z /\
  aiIssueNumber (Some (js "AI-" ++ d)) = js "AI-" ++ decimal (value d + 1) /\
  aiIssueNumber (Some (aiIssueNumber (Some (js "AI-" ++ d))))
  = js "AI-" ++ decimal (value d + 2).
Proof.
  intros Hd Hsafe. unfold safe_integer in Hsafe.
  assert (Hnext : forall e, numeral e -> (value e + 1 < 2 ^ 53)%Z ->
            nextAINumber (Some (js "AI-" ++ e)) = Int (value e + 1)%Z).
  { intros e He Hlt. unfold nextAINumber.
    assert (Hsep : js "-" <> []) by (vm_compute; discriminate).
    assert (Hfree : ~ In "-"%char e) by (apply numeral_no_hyphen, He).
    assert (Hsplit : split_str "-" 0 [] (js "AI-" ++ e) = [js "AI"; e]).
    { change (js "AI-" ++ e) with (js "AI" ++ js "-" ++ e).
      rewrite split_str_cut_at; [reflexivity|exact Hsep| |].
      - reflexivity.
      - destruct (includes e "-") eqn:E; [|reflexivity].
        apply (includes_char "-") in E. contradiction. }
    rewrite Hsplit. cbn [nth_error].
    rewrite (@parseInt_numeral _ He).
    pose proof (value_nonneg e) as Hv.
    rewrite toNumber_small by (rewrite Z.abs_eq by lia; lia).
    apply number_succ_safe. lia. }
  pose proof (value_nonneg d) as Hv.
  assert (Hp : (2 ^ 53 = 9007199254740992)%Z) by reflexivity.
  assert (H1 : aiIssueNumber (Some (js "AI-" ++ d))
               = js "AI-" ++ decimal (value d + 1)).
  { unfold aiIssueNumber. rewrite (Hnext d Hd) by lia.
    rewrite numberToString_safe by lia. reflexivity. }
  split; [apply (Hnext d Hd); lia|]. split; [exact H1|].
  rewrite H1.
  destruct (decimal_value (value d + 1)) as [Hn Hval]; [lia|].
  assert (H2 : nextAINumber (Some (js "AI-" ++ decimal (value d + 1)))
               = Int (value d + 2)%Z).
  { rewrite (Hnext _ Hn) by (rewrite Hval; lia).
    rewrite Hval. f_equal. lia. }
  unfold aiIssueNumber. f_equal.
  transitivity (numberToString (Int (value d + 2)%Z)).
  - apply f_equal. exact H2.
  - apply numberToString_safe. lia.
Qed.

Lemma next_ai_number_witness :
  (numeral "41" /\ safe_integer (value "41" + 2)) /\
  nextAINumber (Some (js "AI-" ++ js "41")) = Int (value "41" + 1)%Z /\
  aiIssueNumber (Some (js "AI-" ++ js "41"))
  = js "AI-" ++ decimal (value "41" + 1) /\
  aiIssueNumber (Some (aiIssueNumber (Some (js "AI-" ++ js "41"))))
  = js "AI-" ++ decimal (value "41" + 2).
Proof.
  assert (H1 : numeral "41")
    by (split; [discriminate|repeat constructor]).
  assert (H2 : safe_integer (value "41" + 2))
    by (vm_compute; discriminate).
  split; [exact (conj H1 H2)|].
  exact (next_ai_number "41" H1 H2).
Defined.

(** X24.  The name generated for an AI issue, whatever the stored issue
    it is computed from, is read by the routes as a string and as the
    name of an AI issue, never as a number.  Without a stored AI issue
    the name is [AI-1]. *)
Theorem ai_number_is_textual (highestAIIssue : option str) :
  parsedIssueNumber (aiIssueNumber highestAIIssue)
  = Textual (aiIssueNumber highestAIIssue) /\
  isAIIssue (parsedIssueNumber (aiIssueNumber highestAIIssue)) = true /\
  aiIssueNumber None = js "AI-1".
Proof.
  assert (H : parsedIssueNumber (aiIssueNumber highestAIIssue)
              = Textual (aiIssueNumber highestAIIssue)).
  { unfold parsedIssueNumber.
    destruct (test_anchored numericPattern (aiIssueNumber highestAIIssue))
      eqn:E; [|reflexivity].
    apply numericPattern_numeral in E. destruct E as [_ E].
    unfold aiIssueNumber in E. inversion E as [|? ? Hc _]. discriminate. }
  split; [exact H|]. split; [|reflexivity].
  rewrite H. reflexivity.
Qed.

End RoutesProperties.

Module StoredIssueFacts.

Import IssueAnalyzerService RepoRoutes IssueRoutes RegExpTerms IssueAnalyzerTerms
       ServiceTerms RegExpFacts StringFacts IssueAnalyzerFacts TextFacts
       RoutesFacts FindingFacts NumberFacts AnalysisFacts.

Lemma decimal_inj a b :
  (0 <= a)%Z -> (0 <= b)%Z -> decimal a = decimal b -> a = b.
Proof.
  intros Ha Hb E.
  destruct (decimal_value a Ha) as [_ Va].
  destruct (decimal_value b Hb) as [_ Vb]. congruence.
Qed.

Lemma aiIssuesFrom_names repoUrl results : forall i,
  map issueNumber (aiIssuesFrom repoUrl i results)
  = map (fun k => js "AI-" ++ decimal (Z.of_nat k + 1))
        (seq i (length results)).
Proof.
  induction results as [|item results IH]; intros i; [reflexivity|].
  cbn [aiIssuesFrom map length seq]. rewrite IH. reflexivity.
Qed.

Lemma NoDup_map_injective {A B} (f : A -> B) l :
  (forall x y, In x l -> In y l -> f x = f y -> x = y) ->
  NoDup l -> NoDup (map f l).
Proof.
  intros Hinj Hn. induction Hn as [|a l Ha Hn IH]; [constructor|].
  cbn [map]. constructor.
  - intros Hin. apply in_map_iff in Hin. destruct Hin as (x & E & Hx).
    assert (x = a) by (apply Hinj; [right; exact Hx|left; reflexivity|exact E]).
    subst. contradiction.
  - apply IH. intros x y Hx Hy. apply Hinj; right; assumption.
Qed.

Lemma aiIssuesFrom_each (P : AnalysisResult -> Prop) (Q : AIIssue -> Prop)
      repoUrl results :
  (forall i item, P item -> Q (aiIssue repoUrl i item)) ->
  Forall P results ->
  forall i, Forall Q (aiIssuesFrom repoUrl i results).
Proof.
  intros H HP. induction HP as [|item results Hitem _ IH]; intros i;
    cbn [aiIssuesFrom]; constructor; auto.
Qed.

Lemma aiIssuesFrom_aligned repoUrl results : forall i,
  Forall2 (fun item d =>
             fileReferences d = [mkRef (filePath item) (lineNumbers item)] /\
             repositoryUrl d = repoUrl /\ state d = js "open")
          results (aiIssuesFrom repoUrl i results).
Proof.
  induction results as [|item results IH]; intros i; cbn [aiIssuesFrom];
    constructor; auto.
Qed.

Lemma AI_name_textual name :
  parsedIssueNumber (js "AI-" ++ name) = Textual (js "AI-" ++ name).
Proof.
  unfold parsedIssueNumber.
  destruct (test_anchored numericPattern (js "AI-" ++ name)) eqn:E;
    [|reflexivity].
  apply numericPattern_numeral in E. destruct E as [_ E].
  inversion E as [|? ? Hc _]. discriminate.
Qed.

End StoredIssueFacts.

Module StoredIssueProperties.

Import IssueAnalyzerService RepoRoutes IssueRoutes RegExpTerms IssueAnalyzerTerms
       ServiceTerms RegExpFacts StringFacts IssueAnalyzerFacts TextFacts
       RoutesFacts FindingFacts NumberFacts AnalysisFacts StoredIssueFacts.

(** X25.  The AI issues that the analysis of a repository stores are
    named [AI-1], [AI-2], ... in the order of the results, one for each
    result; no two have the same name, and every name is read by the
    routes of the issues as a string and as the name of an AI issue.
    Each document carries the URL of the request, the state [open] and
    exactly one file reference, with the path and the line numbers of
    its result. *)
Theorem ai_issues_named (repoUrl : str) (results : list AnalysisResult) :
  let docs := aiIssues repoUrl results in
  map issueNumber docs
  = map (fun k => js "AI-" ++ decimal (Z.of_nat k + 1))
        (seq 0 (length results)) /\
  NoDup (map issueNumber docs) /\
  Forall (fun d =>
            parsedIssueNumber (issueNumber d) = Textual (issueNumber d) /\
            isAIIssue (parsedIssueNumber (issueNumber d)) = true)
         docs /\
  Forall2 (fun item d =>
             fileReferences d = [mkRef (filePath item) (lineNumbers item)] /\
             repositoryUrl d = repoUrl /\ state d = js "open")
          results docs.
Proof.
  cbv zeta. unfold aiIssues.
  split; [apply aiIssuesFrom_names|]. split; [|split].
  - rewrite aiIssuesFrom_names. apply NoDup_map_injective; [|apply seq_NoDup].
    intros x y _ _ E. apply app_inv_head in E.
    apply decimal_inj in E; lia.
  - apply (aiIssuesFrom_each (fun _ => True)).
    + intros i item _. cbn [aiIssue issueNumber].
      rewrite AI_name_textual. split; reflexivity.
    + apply Forall_forall. intros; exact I.
  - apply aiIssuesFrom_aligned.
Qed.

(** X26.  Whatever the downloads return, the analysis of a repository
    stores at most forty AI issues.  The title of each is [Code Issue: ]
    followed by [debugging], [incomplete] or [security], and its body is
    the description of one of the four findings, so that neither default
    text is ever used; its only file reference has no line numbers and a
    path that ends with one of the extensions of code files. *)
Theorem stored_issues_of_analysis
        (World : Type) (fetchFileContent : World -> str -> result str * World)
        (repoUrl : str) (repoContents : list str) (w : World) :
  let a := fst (analyzeRepository fetchFileContent repoContents w) in
  let docs := aiIssues repoUrl (analysisResults a) in
  length docs <= 40 /\
  Forall (fun d =>
            (title d = js "Code Issue: debugging" \/
             title d = js "Code Issue: incomplete" \/
             title d = js "Code Issue: security") /\
            (exists i, In i allFindings /\
                       body d = IssueAnalyzerService.description i) /\
            exists p, fileReferences d = [mkRef p []] /\
                      has_extension codeFileExtensions p)
         docs.
Proof.
  cbv zeta. unfold analyzeRepository.
  destruct (analyzeFile_adds World fetchFileContent
              (firstn 10 (filter isCodeFile repoContents)) [] w)
    as (added & Heq & Hlen & Hall).
  destruct (fold_left (analyzeFile fetchFileContent)
                      (firstn 10 (filter isCodeFile repoContents)) ([], w))
    as [results w'].
  cbn [fst] in Heq. cbn [app] in Heq. subst results.
  cbn [fst analysisResults]. unfold aiIssues. split.
  - assert (Hl : length (aiIssuesFrom repoUrl 0 added) = length added).
    { rewrite <- (length_map issueNumber), aiIssuesFrom_names, length_map.
      apply length_seq. }
    rewrite Hl.
    pose proof (firstn_le_length 10 (filter isCodeFile repoContents)). lia.
  - apply (aiIssuesFrom_each
             (fun r => In (filePath r)
                          (firstn 10 (filter isCodeFile repoContents)) /\
                       lineNumbers r = [] /\
                       exists i, In i allFindings /\
                                 r = resultOf (filePath r) i));
      [|exact Hall].
    intros k item (Hp & Hl & i & Hi & Hr).
    assert (Hext : has_extension codeFileExtensions (filePath item)).
    { apply isCodeFile_extension.
      assert (Hin : In (filePath item) (filter isCodeFile repoContents)).
      { rewrite <- (firstn_skipn 10 (filter isCodeFile repoContents)).
        apply in_or_app. left. exact Hp. }
      apply filter_In in Hin. tauto. }
    cbn [aiIssue title body fileReferences]. rewrite Hl.
    split; [|split].
    + rewrite Hr. cbn [resultOf issueType]. unfold allFindings in Hi.
      destruct Hi as [<-|[<-|[<-|[<-|[]]]]]; cbn; auto.
    + exists i. split; [exact Hi|]. rewrite Hr. cbn [resultOf description].
      unfold allFindings in Hi.
      destruct Hi as [<-|[<-|[<-|[<-|[]]]]]; reflexivity.
    + exists (filePath item). split; [reflexivity|exact Hext].
Qed.

End StoredIssueProperties.

(** * Properties of the model of a stored issue *)

Module IssueModelProperties.

Import IssueRoutes IssueModel RegExpTerms IssueAnalyzerTerms ServiceTerms
       StringFacts TextFacts GitHubFacts NumberFacts.

Lemma orDefault_twice x d : d <> [] -> orDefault (JStr (orDefault x d)) d = orDefault x d.
Proof.
  intros Hd. destruct x as [|[|c s]]; cbn [orDefault].
  1, 2: destruct d; [congruence|reflexivity].
  reflexivity.
Qed.

Lemma orDefault_nonempty x d : d <> [] -> orDefault x d <> [].
Proof. intros Hd. destruct x as [|[|c s]]; cbn [orDefault]; congruence. Qed.

Lemma decimal_acc_nonempty fuel : forall n acc,
  acc <> [] -> decimal_acc fuel n acc <> [].
Proof.
  induction fuel as [|fuel IH]; intros n acc Hacc; cbn [decimal_acc];
    [exact Hacc|].
  destruct (n <? 10)%Z; [discriminate|]. apply IH. discriminate.
Qed.

Lemma decimal_nonempty n : decimal n <> [].
Proof.
  unfold decimal. cbn [decimal_acc].
  destruct (n <? 10)%Z; [discriminate|].
  apply decimal_acc_nonempty. discriminate.
Qed.

Lemma writeNotation_nonempty c : writeNotation c <> [].
Proof.
  unfold writeNotation. pose proof (decimal_nonempty (nt_s c)) as H.
  destruct (decimal (nt_s c)) as [|d more]; [congruence|].
  destruct (nt_n c <=? 21)%Z; discriminate.
Qed.

Lemma naturalToString_nonempty m : naturalToString m <> [].
Proof.
  unfold naturalToString.
  destruct (m <? 2 ^ 53)%Z; [apply decimal_nonempty|].
  destruct (shortest 17 m 1);
    [apply writeNotation_nonempty|apply decimal_nonempty].
Qed.

Lemma stringOf_nonempty n : truthy (Some n) = true -> stringOf n <> [].
Proof.
  destruct n as [[|z|[|]]|[|c s]]; cbn [truthy stringOf numberToString];
    try discriminate.
  intros _. destruct (z <? 0)%Z; [discriminate|].
  apply naturalToString_nonempty.
Qed.

(** X27.  [processIssueData] is idempotent, whatever the parser of URLs
    returns: processing a processed document changes nothing. *)
Theorem processIssueData_idempotent (pathnameOf : str -> result str)
        (doc : IssueDoc) :
  processIssueData pathnameOf (processIssueData pathnameOf doc)
  = processIssueData pathnameOf doc.
Proof.
  assert (Hu : js "unknown" <> []) by (vm_compute; discriminate).
  destruct doc as [url o n i num]. unfold processIssueData.
  cbn [repositoryUrl repoOwner repoName issueId issueNumber].
  destruct url as [|[|c u]];
    cbn [repositoryUrl repoOwner repoName issueId issueNumber].
  1, 2: rewrite !orDefault_twice by assumption; reflexivity.
  destruct (pathnameOf (c :: u)) as [pathname|message] eqn:Ep;
    cbn [repositoryUrl repoOwner repoName issueId issueNumber].
  - destruct (3 <=? length (split_str "/" 0 [] pathname)) eqn:El;
      cbn [repositoryUrl repoOwner repoName issueId issueNumber];
      rewrite Ep, El.
    + f_equal. f_equal. destruct num as [k|].
      * destruct (truthy (Some k)); [reflexivity|].
        apply orDefault_twice, Hu.
      * apply orDefault_twice, Hu.
    + rewrite !orDefault_twice by assumption. reflexivity.
  - rewrite Ep. rewrite !orDefault_twice by assumption. reflexivity.
Qed.

(** X28.  [processIssueData] leaves the URL and the issue number as they
    are, and after it the owner, the name and the issue identifier are
    strings, never [null]; the issue identifier is not empty. *)
Theorem processed_fields (pathnameOf : str -> result str) (doc : IssueDoc) :
  let doc' := processIssueData pathnameOf doc in
  repositoryUrl doc' = repositoryUrl doc /\
  issueNumber doc' = issueNumber doc /\
  exists o n i,
    repoOwner doc' = JStr o /\ repoName doc' = JStr n /\
    issueId doc' = JStr i /\ i <> [].
Proof.
  assert (Hu : js "unknown" <> []) by (vm_compute; discriminate).
  destruct doc as [url o n i num]. unfold processIssueData.
  cbn [repositoryUrl repoOwner repoName issueId issueNumber].
  assert (Hdef : forall d,
             d = mkDoc url (JStr (orDefault o "unknown"))
                       (JStr (orDefault n "unknown"))
                       (JStr (orDefault i "unknown")) num ->
             repositoryUrl d = url /\ issueNumber d = num /\
             exists o' n' i',
               repoOwner d = JStr o' /\ repoName d = JStr n' /\
               issueId d = JStr i' /\ i' <> []).
  { intros d ->. cbn. split; [reflexivity|]. split; [reflexivity|].
    do 3 eexists. repeat split. apply orDefault_nonempty, Hu. }
  destruct url as [|[|c u]]; cbv zeta; try (apply Hdef; reflexivity).
  destruct (pathnameOf (c :: u)) as [pathname|message];
    try (apply Hdef; reflexivity).
  destruct (3 <=? length (split_str "/" 0 [] pathname));
    try (apply Hdef; reflexivity).
  cbn [repositoryUrl repoOwner repoName issueId issueNumber].
  split; [reflexivity|]. split; [reflexivity|].
  do 3 eexists. split; [reflexivity|]. split; [reflexivity|].
  split; [reflexivity|].
  destruct num as [k|]; [|apply orDefault_nonempty, Hu].
  destruct (truthy (Some k)) eqn:Et; [|apply orDefault_nonempty, Hu].
  destruct (isAIIssue k) eqn:Ea.
  - destruct k as [z|s]; [discriminate|].
    destruct s; [discriminate|discriminate].
  - apply stringOf_nonempty, Et.
Qed.

Lemma path_parts owner name tail :
  free_of is_slash owner -> free_of is_slash name ->
  starts_in is_slash tail = true \/ tail = [] ->
  exists more,
    split_str "/" 0 [] ("/"%char :: owner ++ "/"%char :: name ++ tail)
    = [] :: owner :: name :: more.
Proof.
  intros Ho Hn Ht.
  assert (Hsep : js "/" <> []) by (vm_compute; discriminate).
  assert (H1 : ~ In "/"%char owner)
    by (eapply free_of_not_In; [eassumption|reflexivity]).
  assert (H2 : ~ In "/"%char name)
    by (eapply free_of_not_In; [eassumption|reflexivity]).
  change ("/"%char :: owner ++ "/"%char :: name ++ tail)
    with (js "/" ++ owner ++ "/"%char :: name ++ tail).
  rewrite split_str_cut by assumption. cbn [rev].
  change (owner ++ "/"%char :: name ++ tail)
    with (owner ++ js "/" ++ name ++ tail).
  rewrite split_str_first by assumption.
  assert (Hi : includes (owner ++ js "/" ++ name ++ tail) "/" = true).
  { apply (includes_char "/"). apply in_or_app. right. left. reflexivity. }
  rewrite Hi. cbn [rev app].
  change (js "/") with ["/"%char].
  change (owner ++ ["/"%char] ++ name ++ tail)
    with (owner ++ "/"%char :: name ++ tail).
  rewrite (before_char_cut "/" owner _ H1), (after_char_cut "/" owner _ H1).
  change ["/"%char] with (js "/").
  rewrite split_str_first by assumption.
  assert (Hb : before "/" (name ++ tail) = name).
  { change (js "/") with ["/"%char]. destruct Ht as [Ht| ->].
    - destruct tail as [|d t]; [discriminate|]. cbn [starts_in] in Ht.
      apply Ascii.eqb_eq in Ht. subst d. apply before_char_cut, H2.
    - rewrite app_nil_r. apply before_char_all, H2. }
  destruct (includes (name ++ tail) "/") eqn:Ej.
  - rewrite Hb. eexists. reflexivity.
  - exists []. cbn [rev app]. f_equal. f_equal. f_equal.
    rewrite <- Hb at 2. symmetry. apply before_none, Ej.
Qed.

(** X29.  For a document whose URL has the path [/owner/name] (possibly
    followed by a slash and more), the owner and the name of the
    repository are those of the path.  The issue identifier is the issue
    number as a string when the number is present, not zero, not [NaN]
    and not empty, whether or not it starts with [AI-]; otherwise it is
    the identifier the document had, or [unknown]. *)
Theorem processed_owner_and_name (pathnameOf : str -> result str)
        (doc : IssueDoc) (url owner name tail : str) :
  repositoryUrl doc = JStr url -> url <> [] ->
  pathnameOf url = Ok ("/"%char :: owner ++ "/"%char :: name ++ tail) ->
  free_of is_slash owner -> free_of is_slash name ->
  starts_in is_slash tail = true \/ tail = [] ->
  let doc' := processIssueData pathnameOf doc in
  repoOwner doc' = JStr owner /\ repoName doc' = JStr name /\
  issueId doc'
  = JStr (if truthy (issueNumber doc)
          then match issueNumber doc with
               | Some n => stringOf n
               | None => []
               end
          else orDefault (issueId doc) "unknown").
Proof.
  intros Hurl Hne Hpath Ho Hn Ht.
  destruct (path_parts owner name tail Ho Hn Ht) as [more Hparts].
  destruct doc as [u o n i num]. cbn [repositoryUrl issueNumber issueId] in *.
  subst u. unfold processIssueData.
  cbn [repositoryUrl repoOwner repoName issueId issueNumber].
  destruct url as [|c url']; [congruence|].
  rewrite Hpath, Hparts. cbn [length Nat.leb nth].
  cbn [repoOwner repoName issueId].
  split; [reflexivity|]. split; [reflexivity|].
  f_equal. destruct num as [k|]; [|reflexivity].
  destruct (truthy (Some k)); [|reflexivity].
  destruct (isAIIssue k) eqn:Ea; [|reflexivity].
  destruct k; [discriminate|reflexivity].
Qed.

Lemma processed_owner_and_name_witness :
  let pathnameOf := fun _ : str => Ok (js "/octocat/hello-world/issues") in
  let doc := mkDoc (JStr "https://github.com/octocat/hello-world/issues")
                   JNull JNull JNull (Some (Textual "AI-3")) in
  (repositoryUrl doc = JStr "https://github.com/octocat/hello-world/issues" /\
   js "https://github.com/octocat/hello-world/issues" <> [] /\
   pathnameOf (js "https://github.com/octocat/hello-world/issues")
   = Ok ("/"%char :: js "octocat" ++ "/"%char :: js "hello-world" ++ js "/issues") /\
   free_of is_slash "octocat" /\ free_of is_slash "hello-world" /\
   (starts_in is_slash "/issues" = true \/ js "/issues" = [])) /\
  repoOwner (processIssueData pathnameOf doc) = JStr "octocat" /\
  repoName (processIssueData pathnameOf doc) = JStr "hello-world" /\
  issueId (processIssueData pathnameOf doc) = JStr "AI-3".
Proof.
  intros pathnameOf doc.
  assert (H1 : repositoryUrl doc
               = JStr "https://github.com/octocat/hello-world/issues")
    by reflexivity.
  assert (H2 : js "https://github.com/octocat/hello-world/issues" <> [])
    by discriminate.
  assert (H3 : pathnameOf (js "https://github.com/octocat/hello-world/issues")
               = Ok ("/"%char :: js "octocat" ++ "/"%char :: js "hello-world"
                       ++ js "/issues"))
    by reflexivity.
  assert (H4 : free_of is_slash "octocat") by (repeat constructor).
  assert (H5 : free_of is_slash "hello-world") by (repeat constructor).
  assert (H6 : starts_in is_slash "/issues" = true \/ js "/issues" = [])
    by (left; reflexivity).
  split; [exact (conj H1 (conj H2 (conj H3 (conj H4 (conj H5 H6)))))|].
  exact (processed_owner_and_name pathnameOf doc _ "octocat" "hello-world"
                                  "/issues" H1 H2 H3 H4 H5 H6).
Defined.

End IssueModelProperties.
